(** * Retrieval and session-state engine of the chatbot backend

    A shallow embedding of the in-memory core of the repository:
    - [lib/memory.js]     bounded per-session conversation history,
    - [lib/rateLimit.js]  sliding-window rate limiter,
    - [lib/embeddings.js] chunker and embedding store,
    - [lib/retriever.js]  cosine-similarity retrieval,
    followed by the code around it: the reading of the data directory,
    the request handler of [api/chat.js] that calls all of them, and the
    lazily built client of [lib/openai.js].
    Numbers that are counts, sizes or clock values are integers; the
    components of embeddings and the similarity scores are binary64
    floats, with the arithmetic of the engine.

    Module-level [Map]s are finite maps that every operation takes and
    returns; JavaScript arrays are lists ([push] appends at the end, [shift]
    drops the head); strings are [string]s, one character standing for one
    code unit.  [Date.now()] is an integer number of milliseconds. *)

From Stdlib Require Import ZArith List Ascii String Bool Lia Floats.
From stdpp Require Import base option list gmap strings fin_maps sorting.

Local Open Scope Z_scope.

(** ** Session memory ([lib/memory.js]) *)

Module Memory.

Record Turn := { role : string; content : string }.

Definition MAX_MESSAGES_PER_SESSION : nat := 20.

(** [getSessionHistory]: an unseen session identifier is first bound to
    the empty array; the array stored for the identifier is returned. *)
Definition getSessionHistory (sessionId : string)
    (sessions : gmap string (list Turn)) : list Turn * gmap string (list Turn) :=
  let sessions :=
    match sessions !! sessionId with
    | Some _ => sessions
    | None => <[sessionId := []]> sessions
    end in
  (default [] (sessions !! sessionId), sessions).

(** [addMessage]: push, one [shift] when the bound is exceeded, store. *)
Definition addMessage (sessionId role content : string)
    (sessions : gmap string (list Turn)) : gmap string (list Turn) :=
  let '(history, sessions) := getSessionHistory sessionId sessions in
  let history := history ++ [{| role := role; content := content |}] in
  let history :=
    if (MAX_MESSAGES_PER_SESSION <? length history)%nat
    then tail history else history in
  <[sessionId := history]> sessions.

Definition clearSession (sessionId : string)
    (sessions : gmap string (list Turn)) : gmap string (list Turn) :=
  delete sessionId sessions.

Definition getSessionCount (sessions : gmap string (list Turn)) : nat :=
  size sessions.

(** Calls made by the request handler, on any session identifier. *)
Inductive call :=
| AddMessage (sessionId role content : string)
| GetSessionHistory (sessionId : string).

Definition step (sessions : gmap string (list Turn)) (c : call)
    : gmap string (list Turn) :=
  match c with
  | AddMessage sessionId role content => addMessage sessionId role content sessions
  | GetSessionHistory sessionId => (getSessionHistory sessionId sessions).2
  end.

(** The module starts with an empty [Map]. *)
Definition run (calls : list call) : gmap string (list Turn) :=
  foldl step ∅ calls.

(** The turns appended to one session by a sequence of calls, oldest first. *)
Fixpoint appended (sessionId : string) (calls : list call) : list Turn :=
  match calls with
  | [] => []
  | AddMessage sid role content :: calls =>
      if decide (sid = sessionId)
      then {| role := role; content := content |} :: appended sessionId calls
      else appended sessionId calls
  | GetSessionHistory _ :: calls => appended sessionId calls
  end.

(** The last [n] elements of a list, in order. *)
Definition lastn {A} (n : nat) (l : list A) : list A :=
  drop (length l - n) l.

(** The array held for a session (empty when the session is unseen). *)
Definition history (sessions : gmap string (list Turn)) (sessionId : string)
    : list Turn :=
  default [] (sessions !! sessionId).

(** What one append does to the array of its session. *)
Definition pushShift (h : list Turn) (t : Turn) : list Turn :=
  if (MAX_MESSAGES_PER_SESSION <? length (h ++ [t]))%nat
  then tail (h ++ [t]) else h ++ [t].

(** *** Properties of the session memory *)

Lemma getSessionHistory_fst sessionId sessions :
  (getSessionHistory sessionId sessions).1 = history sessions sessionId.
Proof.
  unfold getSessionHistory, history; simpl.
  destruct (sessions !! sessionId) eqn:E; simpl.
  - by rewrite E.
  - by rewrite lookup_insert_eq.
Qed.

Lemma getSessionHistory_history sessionId sid sessions :
  history (getSessionHistory sessionId sessions).2 sid = history sessions sid.
Proof.
  unfold getSessionHistory, history; simpl.
  destruct (sessions !! sessionId) eqn:E; [done|].
  destruct (decide (sessionId = sid)) as [->|Hne].
  - by rewrite lookup_insert_eq, E.
  - by rewrite lookup_insert_ne.
Qed.

Lemma addMessage_history_eq sessionId role content sessions :
  history (addMessage sessionId role content sessions) sessionId =
  pushShift (history sessions sessionId) {| role := role; content := content |}.
Proof.
  unfold addMessage.
  pose proof (getSessionHistory_fst sessionId sessions) as Hh.
  destruct (getSessionHistory sessionId sessions) as [h s']; simpl in Hh; subst h.
  unfold history at 1. by rewrite lookup_insert_eq.
Qed.

Lemma addMessage_history_ne sessionId sid role content sessions :
  sessionId ≠ sid →
  history (addMessage sessionId role content sessions) sid = history sessions sid.
Proof.
  intros Hne. unfold addMessage.
  pose proof (getSessionHistory_history sessionId sid sessions) as Hh.
  destruct (getSessionHistory sessionId sessions) as [h s']; simpl in Hh.
  unfold history at 1. rewrite lookup_insert_ne by done. exact Hh.
Qed.

Lemma appended_app sessionId calls1 calls2 :
  appended sessionId (calls1 ++ calls2) =
  appended sessionId calls1 ++ appended sessionId calls2.
Proof.
  induction calls1 as [|[sid r c|sid] calls1 IH]; simpl; [done| |done].
  destruct (decide (sid = sessionId)); simpl; by rewrite IH.
Qed.

Lemma lastn_length {A} n (l : list A) : length (lastn n l) = (length l `min` n)%nat.
Proof. unfold lastn. rewrite length_drop. lia. Qed.

Lemma lastn_snoc {A} n (l : list A) x :
  lastn (S n) (l ++ [x]) = lastn n l ++ [x].
Proof.
  unfold lastn. rewrite length_app; simpl.
  rewrite drop_app_le by lia. f_equal. f_equal. lia.
Qed.

Lemma lastn_tail {A} n (l : list A) :
  (n < length l)%nat → tail (lastn (S n) l) = lastn n l.
Proof.
  intros Hlt. unfold lastn.
  replace (length l - n)%nat with (S (length l - S n)) by lia.
  generalize (length l - S n)%nat as k. clear Hlt. intros k.
  revert l. induction k as [|k IH]; intros [|y l]; simpl; done.
Qed.

Lemma lastn_all {A} n (l : list A) : (length l ≤ n)%nat → lastn n l = l.
Proof. intros H. unfold lastn. by replace (length l - n)%nat with 0%nat by lia. Qed.

Lemma pushShift_lastn (l : list Turn) (t : Turn) :
  pushShift (lastn MAX_MESSAGES_PER_SESSION l) t =
  lastn MAX_MESSAGES_PER_SESSION (l ++ [t]).
Proof.
  unfold pushShift. rewrite <- lastn_snoc.
  destruct (Nat.ltb_spec MAX_MESSAGES_PER_SESSION
              (length (lastn (S MAX_MESSAGES_PER_SESSION) (l ++ [t])))) as [Hlt|Hle].
  - rewrite lastn_length in Hlt. apply lastn_tail. lia.
  - rewrite lastn_length in Hle.
    rewrite !lastn_all; [done| |]; lia.
Qed.

Lemma run_snoc calls c : run (calls ++ [c]) = step (run calls) c.
Proof. unfold run. by rewrite foldl_app. Qed.

Lemma run_history calls sessionId :
  history (run calls) sessionId =
  lastn MAX_MESSAGES_PER_SESSION (appended sessionId calls).
Proof.
  induction calls as [|c calls IH] using rev_ind; [done|].
  rewrite run_snoc, appended_app.
  destruct c as [sid r c|sid]; cbn [step appended].
  - destruct (decide (sid = sessionId)) as [->|Hne].
    + rewrite addMessage_history_eq, IH. apply pushShift_lastn.
    + rewrite addMessage_history_ne, app_nil_r by done. exact IH.
  - rewrite getSessionHistory_history, app_nil_r. exact IH.
Qed.

(** C1. After any sequence of calls starting from the empty store, the
    history that [getSessionHistory] returns for a session has at most 20
    turns; it is exactly the last (at most 20) turns appended to that
    session, in the order they were appended; and a further append keeps
    every retained turn except, once 20 are held, the oldest one, which is
    dropped from the front. *)
Theorem session_history_bounded_fifo (calls : list call) (sessionId : string) :
  let h := (getSessionHistory sessionId (run calls)).1 in
  (length h ≤ MAX_MESSAGES_PER_SESSION)%nat ∧
  h = lastn MAX_MESSAGES_PER_SESSION (appended sessionId calls) ∧
  length h = (length (appended sessionId calls) `min` 20)%nat ∧
  ∀ role content,
    (getSessionHistory sessionId
       (addMessage sessionId role content (run calls))).1 =
    (if (length h <? MAX_MESSAGES_PER_SESSION)%nat then h else tail h)
      ++ [{| role := role; content := content |}].
Proof.
  cbv zeta. rewrite getSessionHistory_fst, run_history.
  set (l := appended sessionId calls).
  split_and!.
  - rewrite lastn_length. lia.
  - done.
  - apply lastn_length.
  - intros r c. rewrite getSessionHistory_fst, addMessage_history_eq, run_history.
    fold l. unfold pushShift. rewrite length_app; simpl.
    pose proof (lastn_length MAX_MESSAGES_PER_SESSION l) as Hlen.
    destruct (Nat.ltb_spec (length (lastn MAX_MESSAGES_PER_SESSION l))
                MAX_MESSAGES_PER_SESSION) as [Hlt|Hge].
    + destruct (Nat.ltb_spec MAX_MESSAGES_PER_SESSION
                  (length (lastn MAX_MESSAGES_PER_SESSION l) + 1)); [lia|done].
    + destruct (Nat.ltb_spec MAX_MESSAGES_PER_SESSION
                  (length (lastn MAX_MESSAGES_PER_SESSION l) + 1)); [|lia].
      destruct (lastn MAX_MESSAGES_PER_SESSION l); [simpl in Hge; unfold MAX_MESSAGES_PER_SESSION in Hge; lia|done].
Qed.

End Memory.


(** ** Rate limiter ([lib/rateLimit.js]) *)

Module RateLimit.

Definition RATE_LIMIT_WINDOW : Z := 60 * 1000.

Definition MAX_REQUESTS_PER_WINDOW : nat := 60.

(** The callback of both [filter] calls: [now - timestamp < RATE_LIMIT_WINDOW]. *)
Definition inWindow (now timestamp : Z) : bool :=
  now - timestamp <? RATE_LIMIT_WINDOW.

(** [isRateLimited] at clock value [now]: the answer and the [Map] afterwards. *)
Definition isRateLimited (ip : string) (now : Z)
    (requestCounts : gmap string (list Z)) : bool * gmap string (list Z) :=
  let requestCounts :=
    match requestCounts !! ip with
    | Some _ => requestCounts
    | None => <[ip := []]> requestCounts
    end in
  let requests := default [] (requestCounts !! ip) in
  let validRequests := List.filter (inWindow now) requests in
  if (MAX_REQUESTS_PER_WINDOW <=? length validRequests)%nat
  then (true, requestCounts)
  else (false, <[ip := validRequests ++ [now]]> requestCounts).

(** [cleanupRateLimitData] at clock value [now]: every entry is filtered,
    and deleted when nothing remains. *)
Definition cleanupRateLimitData (now : Z)
    (requestCounts : gmap string (list Z)) : gmap string (list Z) :=
  omap (λ requests,
          let validRequests := List.filter (inWindow now) requests in
          if (length validRequests =? 0)%nat then None else Some validRequests)
       requestCounts.

(** What happens to the module: a request checked at some clock value, or
    the periodic sweep.  The clock values are arbitrary. *)
Inductive event :=
| Request (ip : string) (now : Z)
| Sweep (now : Z).

Definition step (requestCounts : gmap string (list Z)) (e : event)
    : gmap string (list Z) :=
  match e with
  | Request ip now => (isRateLimited ip now requestCounts).2
  | Sweep now => cleanupRateLimitData now requestCounts
  end.

(** The module starts with an empty [Map]. *)
Definition run (events : list event) : gmap string (list Z) :=
  foldl step ∅ events.

(** The timestamps held for a key (none when the key is absent). *)
Definition stored (requestCounts : gmap string (list Z)) (ip : string) : list Z :=
  default [] (requestCounts !! ip).

(** Every stored list has at most [MAX_REQUESTS_PER_WINDOW] entries. *)
Definition bounded (requestCounts : gmap string (list Z)) : Prop :=
  ∀ ip requests, requestCounts !! ip = Some requests →
    (length requests ≤ MAX_REQUESTS_PER_WINDOW)%nat.

(** *** Properties of the rate limiter *)

Lemma filter_length_bound {A} (f : A → bool) (l : list A) :
  (length (List.filter f l) ≤ length l)%nat.
Proof. induction l as [|x l IH]; simpl; [lia|]. destruct (f x); simpl; lia. Qed.


Lemma filter_keeps {A} (f : A → bool) (l : list A) :
  Forall (λ x, f x = true) l → List.filter f l = l.
Proof. induction 1 as [|x l Hx _ IH]; simpl; [done|]. by rewrite Hx, IH. Qed.

Lemma filter_drops {A} (f : A → bool) (l : list A) x :
  x ∈ l → f x = false → (length (List.filter f l) < length l)%nat.
Proof.
  intros Hin Hx. induction Hin as [x l|x y l Hin IH]; simpl.
  - rewrite Hx. pose proof (filter_length_bound f l). lia.
  - specialize (IH Hx). destruct (f y); simpl; lia.
Qed.

(** The whole of [isRateLimited] in one equation: the answer depends on the
    number of stored timestamps that pass the filter; a rejection leaves the
    [Map] as it was, an acceptance stores the filtered list with [now] at
    its end. *)
Lemma isRateLimited_eq ip now requestCounts :
  isRateLimited ip now requestCounts =
  let validRequests := List.filter (inWindow now) (stored requestCounts ip) in
  if (MAX_REQUESTS_PER_WINDOW <=? length validRequests)%nat
  then (true, requestCounts)
  else (false, <[ip := validRequests ++ [now]]> requestCounts).
Proof.
  unfold isRateLimited, stored.
  destruct (requestCounts !! ip) as [requests|] eqn:E; cbv zeta.
  - by rewrite E.
  - rewrite lookup_insert_eq; simpl. by rewrite insert_insert_eq.
Qed.

Lemma isRateLimited_bounded ip now requestCounts :
  bounded requestCounts → bounded (isRateLimited ip now requestCounts).2.
Proof.
  intros Hb. rewrite isRateLimited_eq; cbv zeta.
  destruct (Nat.leb_spec MAX_REQUESTS_PER_WINDOW
              (length (List.filter (inWindow now) (stored requestCounts ip))))
    as [Hge|Hlt]; simpl; [done|].
  intros ip' requests. destruct (decide (ip = ip')) as [<-|Hne].
  - rewrite lookup_insert_eq. intros [= <-]. rewrite length_app; simpl. lia.
  - rewrite lookup_insert_ne by done. apply Hb.
Qed.

Lemma cleanupRateLimitData_bounded now requestCounts :
  bounded requestCounts → bounded (cleanupRateLimitData now requestCounts).
Proof.
  intros Hb ip requests. unfold cleanupRateLimitData. rewrite lookup_omap.
  destruct (requestCounts !! ip) as [old|] eqn:E; simpl; [|done].
  destruct (length (List.filter (inWindow now) old) =? 0)%nat; [done|].
  intros [= <-]. pose proof (filter_length_bound (inWindow now) old).
  specialize (Hb ip old E). lia.
Qed.

Lemma run_request_or_sweep events e : run (events ++ [e]) = step (run events) e.
Proof. unfold run. by rewrite foldl_app. Qed.

Lemma run_bounded events : bounded (run events).
Proof.
  induction events as [|e events IH] using rev_ind.
  - intros ip requests. unfold run; simpl. by rewrite lookup_empty.
  - rewrite run_request_or_sweep. destruct e as [ip now|now]; cbn [step].
    + by apply isRateLimited_bounded.
    + by apply cleanupRateLimitData_bounded.
Qed.

Lemma stored_bounded requestCounts ip :
  bounded requestCounts →
  (length (stored requestCounts ip) ≤ MAX_REQUESTS_PER_WINDOW)%nat.
Proof.
  intros Hb. unfold stored.
  destruct (requestCounts !! ip) as [requests|] eqn:E; simpl; [by eapply Hb|lia].
Qed.

(** C3. [isRateLimited] answers [true] and leaves the [Map] untouched when
    at least 60 stored timestamps of the key lie within the trailing
    window; otherwise it answers [false] and stores the filtered list with
    the current timestamp appended.  In particular a key holding exactly 60
    timestamps, all at most 59 seconds old, is rejected, and a later check
    for which one of them (such as the earliest) is 60 seconds old or more
    is accepted. *)
Theorem isRateLimited_sliding_window (ip : string) (now : Z)
    (requestCounts : gmap string (list Z)) :
  let requests := stored requestCounts ip in
  let validRequests := List.filter (inWindow now) requests in
  ((MAX_REQUESTS_PER_WINDOW ≤ length validRequests)%nat →
     isRateLimited ip now requestCounts = (true, requestCounts)) ∧
  ((length validRequests < MAX_REQUESTS_PER_WINDOW)%nat →
     isRateLimited ip now requestCounts =
       (false, <[ip := validRequests ++ [now]]> requestCounts)) ∧
  (length requests = 60%nat →
   Forall (λ timestamp, now - 59 * 1000 ≤ timestamp ≤ now) requests →
     isRateLimited ip now requestCounts = (true, requestCounts) ∧
     ∀ later aged, aged ∈ requests → RATE_LIMIT_WINDOW ≤ later - aged →
       isRateLimited ip later requestCounts =
         (false,
          <[ip := List.filter (inWindow later) requests ++ [later]]> requestCounts)).
Proof.
  cbv zeta. split_and!.
  - intros Hge. rewrite isRateLimited_eq; cbv zeta.
    by destruct (Nat.leb_spec MAX_REQUESTS_PER_WINDOW
                   (length (List.filter (inWindow now) (stored requestCounts ip))));
      [|lia].
  - intros Hlt. rewrite isRateLimited_eq; cbv zeta.
    by destruct (Nat.leb_spec MAX_REQUESTS_PER_WINDOW
                   (length (List.filter (inWindow now) (stored requestCounts ip))));
      [lia|].
  - intros Hlen Hrecent. split.
    + rewrite isRateLimited_eq; cbv zeta.
      assert (List.filter (inWindow now) (stored requestCounts ip)
              = stored requestCounts ip) as ->.
      { apply filter_keeps. eapply Forall_impl; [exact Hrecent|].
        intros t [Hlo Hhi]. unfold inWindow, RATE_LIMIT_WINDOW.
        apply Z.ltb_lt. lia. }
      rewrite Hlen. done.
    + intros later aged Hin Haged. rewrite isRateLimited_eq; cbv zeta.
      assert (inWindow later aged = false) as Hout.
      { unfold inWindow. apply Z.ltb_ge. done. }
      pose proof (filter_drops (inWindow later) _ _ Hin Hout) as Hlt.
      rewrite Hlen in Hlt.
      by destruct (Nat.leb_spec MAX_REQUESTS_PER_WINDOW
                     (length (List.filter (inWindow later) (stored requestCounts ip))));
        [unfold MAX_REQUESTS_PER_WINDOW in *; lia|].
Qed.

(** The scenario of the specification: 60 timestamps between second 1 and
    second 59, a check at second 60 and one at second 61. *)
Lemma isRateLimited_sliding_window_witness :
  let requests := map (λ k, 1000 + 983 * Z.of_nat k) (seq 0 60) in
  let requestCounts : gmap string (list Z) := {[ "203.0.113.7"%string := requests ]} in
  isRateLimited "203.0.113.7" 60000 requestCounts = (true, requestCounts) ∧
  (isRateLimited "203.0.113.7" 61000 requestCounts).1 = false.
Proof.
  cbv zeta.
  set (requests := map (λ k, 1000 + 983 * Z.of_nat k) (seq 0 60)).
  set (requestCounts := ({[ "203.0.113.7"%string := requests ]} : gmap string (list Z))).
  destruct (isRateLimited_sliding_window "203.0.113.7" 60000 requestCounts)
    as (_ & _ & H).
  assert (stored requestCounts "203.0.113.7" = requests) as Hst.
  { unfold stored, requestCounts. by rewrite lookup_singleton_eq. }
  rewrite Hst in H.
  destruct H as [Hrej Hacc].
  - reflexivity.
  - apply Forall_forall. intros t Ht.
    apply list_elem_of_In, in_map_iff in Ht as (k & <- & Hk).
    apply in_seq in Hk. lia.
  - split; [exact Hrej|].
    rewrite (Hacc 61000 1000); [done| |unfold RATE_LIMIT_WINDOW; lia].
    apply list_elem_of_In. simpl. by left.
Defined.



(** C10. After any sequence of checks and sweeps from the empty store, the
    list stored for a key has at most 60 entries.  A check either rejects,
    leaving the [Map] (and so the stored list) unchanged, or accepts,
    storing a filtered list of fewer than 60 entries with one timestamp
    appended. *)
Theorem stored_window_at_most_60 (events : list event) (ip : string) :
  let requestCounts := run events in
  (length (stored requestCounts ip) ≤ MAX_REQUESTS_PER_WINDOW)%nat ∧
  ∀ now,
    let validRequests := List.filter (inWindow now) (stored requestCounts ip) in
    isRateLimited ip now requestCounts = (true, requestCounts) ∨
    ((length validRequests < 60)%nat ∧
     isRateLimited ip now requestCounts =
       (false, <[ip := validRequests ++ [now]]> requestCounts) ∧
     stored (isRateLimited ip now requestCounts).2 ip = validRequests ++ [now]).
Proof.
  cbv zeta. split.
  - apply stored_bounded, run_bounded.
  - intros now. rewrite isRateLimited_eq; cbv zeta.
    destruct (Nat.leb_spec MAX_REQUESTS_PER_WINDOW
                (length (List.filter (inWindow now) (stored (run events) ip))))
      as [Hge|Hlt]; [by left|right].
    split_and!; [done..|].
    simpl. unfold stored at 1. by rewrite lookup_insert_eq.
Qed.

End RateLimit.

(** ** Chunker ([chunkText] of [lib/embeddings.js]) *)

Module Chunker.

(** [String.prototype.slice] on integer arguments: a negative index counts
    from the end, both indices are clamped to the string. *)
Definition slice (s : string) (start end_ : Z) : string :=
  let len := Z.of_nat (String.length s) in
  let from := if start <? 0 then Z.max (len + start) 0 else Z.min start len in
  let to := if end_ <? 0 then Z.max (len + end_) 0 else Z.min end_ len in
  substring (Z.to_nat from) (Z.to_nat (to - from)) s.

(** The [while] loop of [chunkText], one unit of fuel per iteration;
    [None] when the fuel does not suffice. *)
Fixpoint chunkLoop (fuel : nat) (text : string) (chunkSize overlap start : Z)
    (chunks : list string) : option (list string) :=
  if start <? Z.of_nat (String.length text) then
    match fuel with
    | O => None
    | S fuel =>
        let end_ := Z.min (start + chunkSize) (Z.of_nat (String.length text)) in
        chunkLoop fuel text chunkSize overlap (start + (chunkSize - overlap))
                  (chunks ++ [slice text start end_])
    end
  else Some chunks.

(** [chunkText]: the loop from [start = 0] with no chunk yet.  A loop that
    advances by at least one character ends within [length text]
    iterations; one that does not advance never ends, whatever the fuel. *)
Definition chunkText (text : string) (chunkSize overlap : Z)
    : option (list string) :=
  chunkLoop (String.length text) text chunkSize overlap 0 [].

(** The default arguments, [chunkSize = 800] and [overlap = 200]. *)
Definition chunkTextDefault (text : string) : option (list string) :=
  chunkText text 800 200.

(** Number of characters that window [k] shares with window [k + 1]: the
    end of window [k] (its start [k * step] plus the length of the chunk
    returned for it) minus the start of window [k + 1]. *)
Definition sharedChars (chunks : list string) (step : Z) (k : nat) : Z :=
  (Z.of_nat k * step + Z.of_nat (String.length (nth k chunks ""%string)))
  - Z.of_nat (S k) * step.

(** The overlap property as the specification words it: every pair of
    consecutive windows that does not involve the last window shares
    exactly [overlap] characters. *)
Definition overlap_exact_except_last : Prop :=
  ∀ (text : string) (chunkSize overlap : Z) (chunks : list string),
    0 < overlap < chunkSize →
    chunkText text chunkSize overlap = Some chunks →
    ∀ k, (k + 2 < length chunks)%nat →
      sharedChars chunks (chunkSize - overlap) k = overlap.

(** The windows the loop is meant to produce: [n] windows, window [k]
    starting at [k * step]. *)
Definition windows (text : string) (chunkSize step : Z) (n : nat) : list string :=
  map (λ k, slice text (Z.of_nat k * step) (Z.of_nat k * step + chunkSize))
      (seq 0 n).

(** How many starts [0, step, 2 * step, ...] lie below [len]. *)
Definition windowCount (len step : Z) : nat :=
  Z.to_nat ((len + step - 1) / step).

(** [r] iterations are left from [start]: the [r]-th next start is the
    first one not below [len]. *)
Definition itersLeft (len step start : Z) (r : nat) : Prop :=
  len ≤ start + Z.of_nat r * step ∧
  (r = 0%nat ∨ start + (Z.of_nat r - 1) * step < len).

(** *** Properties of the chunker *)

Lemma length_substring (n m : nat) (s : string) :
  String.length (substring n m s) = (m `min` (String.length s - n))%nat.
Proof.
  revert n m. induction s as [|c s IH]; intros [|n] [|m]; simpl;
    rewrite ?IH; simpl; lia.
Qed.

Lemma slice_clamped text start chunkSize :
  0 ≤ start →
  slice text start (Z.min (start + chunkSize) (Z.of_nat (String.length text))) =
  slice text start (start + chunkSize).
Proof.
  intros Hs. unfold slice; cbv zeta.
  set (len := Z.of_nat (String.length text)).
  destruct (Z.ltb_spec start 0); [lia|].
  destruct (Z.ltb_spec (Z.min (start + chunkSize) len) 0),
           (Z.ltb_spec (start + chunkSize) 0); f_equal; lia.
Qed.

Lemma slice_length text start chunkSize :
  0 ≤ start → 0 ≤ chunkSize →
  Z.of_nat (String.length (slice text start (start + chunkSize))) =
  Z.max 0 (Z.min chunkSize (Z.of_nat (String.length text) - start)).
Proof.
  intros Hs Hc. unfold slice; cbv zeta. rewrite length_substring.
  set (len := Z.of_nat (String.length text)).
  destruct (Z.ltb_spec start 0); [lia|].
  destruct (Z.ltb_spec (start + chunkSize) 0); [lia|].
  assert (String.length text = Z.to_nat len) as -> by (unfold len; lia).
  lia.
Qed.

Lemma chunkLoop_runs text chunkSize overlap :
  0 < chunkSize - overlap →
  ∀ r fuel start chunks,
    0 ≤ start → (r ≤ fuel)%nat →
    itersLeft (Z.of_nat (String.length text)) (chunkSize - overlap) start r →
    chunkLoop fuel text chunkSize overlap start chunks =
    Some (chunks ++
          map (λ k, slice text (start + Z.of_nat k * (chunkSize - overlap))
                          (start + Z.of_nat k * (chunkSize - overlap) + chunkSize))
              (seq 0 r)).
Proof.
  intros Hstep. induction r as [|r IH]; intros fuel start chunks Hs Hfuel [Hend Hlast].
  - destruct fuel; simpl;
      (destruct (Z.ltb_spec start (Z.of_nat (String.length text))); [lia|]);
      by rewrite app_nil_r.
  - destruct fuel as [|fuel]; [lia|]. simpl chunkLoop.
    destruct Hlast as [?|Hlast]; [done|].
    destruct (Z.ltb_spec start (Z.of_nat (String.length text))); [|nia].
    rewrite IH; [|lia|lia|].
    + rewrite slice_clamped by done. rewrite <- app_assoc. f_equal. f_equal.
      cbn [seq map app]. f_equal.
      * f_equal; lia.
      * rewrite <- seq_shift, map_map. apply map_ext. intros k. f_equal; lia.
    + split; [lia|]. destruct r as [|r]; [by left|right]. lia.
Qed.

Lemma windowCount_itersLeft len step :
  0 ≤ len → 0 < step → itersLeft len step 0 (windowCount len step).
Proof.
  intros Hl Hs. unfold itersLeft, windowCount.
  pose proof (Z.div_mod (len + step - 1) step ltac:(lia)) as Hdm.
  pose proof (Z.mod_pos_bound (len + step - 1) step Hs) as Hm.
  assert (0 ≤ (len + step - 1) / step) as Hq by (apply Z.div_pos; lia).
  rewrite Z2Nat.id by done. split; [nia|].
  destruct (decide ((len + step - 1) / step = 0)) as [->|Hne];
    [by left|right]. nia.
Qed.

Lemma windowCount_le len step :
  0 ≤ len → 0 < step → (windowCount len step ≤ Z.to_nat len)%nat.
Proof.
  intros Hl Hs. unfold windowCount.
  assert ((len + step - 1) / step ≤ len); [|lia].
  destruct (decide (len = 0)) as [->|Hne].
  - rewrite Z.div_small; lia.
  - apply Z.div_le_upper_bound; [lia|nia].
Qed.

Lemma chunkText_eq text chunkSize overlap :
  0 < chunkSize - overlap →
  chunkText text chunkSize overlap =
  Some (windows text chunkSize (chunkSize - overlap)
          (windowCount (Z.of_nat (String.length text)) (chunkSize - overlap))).
Proof.
  intros Hstep. unfold chunkText, windows.
  rewrite (chunkLoop_runs text chunkSize overlap Hstep
             (windowCount (Z.of_nat (String.length text)) (chunkSize - overlap)));
    [done|lia| |by apply windowCount_itersLeft; lia].
  etrans; [apply windowCount_le; lia|lia].
Qed.

Lemma windows_length text chunkSize step n :
  length (windows text chunkSize step n) = n.
Proof. unfold windows. by rewrite length_map, length_seq. Qed.

Lemma windows_nth text chunkSize step n k :
  (k < n)%nat →
  nth k (windows text chunkSize step n) ""%string =
  slice text (Z.of_nat k * step) (Z.of_nat k * step + chunkSize).
Proof.
  intros Hk. unfold windows.
  set (f := λ k, slice text (Z.of_nat k * step) (Z.of_nat k * step + chunkSize)).
  rewrite (nth_indep _ _ (f 0%nat)) by (rewrite length_map, length_seq; lia).
  rewrite (map_nth f), seq_nth by done. done.
Qed.

(** A loop that does not advance never ends on a text that is not empty. *)
Lemma chunkLoop_stuck text chunkSize overlap :
  chunkSize - overlap ≤ 0 →
  ∀ fuel start chunks,
    start < Z.of_nat (String.length text) →
    chunkLoop fuel text chunkSize overlap start chunks = None.
Proof.
  intros Hstep. induction fuel as [|fuel IH]; intros start chunks Hs; simpl;
    (destruct (Z.ltb_spec start (Z.of_nat (String.length text))); [|lia]);
    [done|]. apply IH. lia.
Qed.

Lemma slice_get text start chunkSize i :
  0 ≤ start → 0 ≤ chunkSize →
  (i < String.length (slice text start (start + chunkSize)))%nat →
  get i (slice text start (start + chunkSize)) = get (Z.to_nat start + i) text.
Proof.
  intros Hs Hc Hi.
  pose proof (slice_length text start chunkSize Hs Hc) as Hlen.
  revert Hi Hlen. unfold slice; cbv zeta.
  set (len := Z.of_nat (String.length text)).
  destruct (Z.ltb_spec start 0); [lia|].
  destruct (Z.ltb_spec (start + chunkSize) 0); [lia|].
  intros Hi Hlen. rewrite substring_correct1 by lia.
  f_equal. lia.
Qed.

(** C2, the overlap clause as worded.  With [chunkSize = 4] and
    [overlap = 3] the text ["abcd"] is cut into ["abcd"], ["bcd"], ["cd"]
    and ["d"]: the second and third windows share two characters, not
    three, and neither of them is the last window. *)
Lemma chunkText_overlap_counterexample : ¬ overlap_exact_except_last.
Proof.
  intros H.
  specialize (H "abcd"%string 4 3
                ["abcd"; "bcd"; "cd"; "d"]%string ltac:(lia) eq_refl 1%nat
                ltac:(simpl; lia)).
  vm_compute in H. discriminate H.
Qed.

(** C2, amended.  For [0 < overlap < chunkSize], [chunkText] returns (the
    loop ends) exactly the windows [text[start : start + chunkSize]] for
    [start = 0, step, 2 * step, ...] with [step = chunkSize - overlap],
    as long as [start] is below the length of the text.  Every window has
    at most [chunkSize] characters and holds the characters of the text
    from its start on; every position of the text lies in some window;
    window [k] shares with window [k + 1] exactly [overlap] characters
    whenever window [k] is not cut short by the end of the text, and
    between 1 and [overlap] characters otherwise; when
    [2 * overlap <= chunkSize] only the last pair of windows can share
    fewer.  The same input gives the same sequence. *)
Theorem chunkText_windows (text : string) (chunkSize overlap : Z) :
  0 < overlap < chunkSize →
  let len := Z.of_nat (String.length text) in
  let step := chunkSize - overlap in
  let n := windowCount len step in
  let chunks := windows text chunkSize step n in
  chunkText text chunkSize overlap = Some chunks ∧
  length chunks = n ∧
  (∀ k, (k < n)%nat → Z.of_nat k * step < len) ∧
  len ≤ Z.of_nat n * step ∧
  (∀ k, (k < n)%nat →
     let w := nth k chunks ""%string in
     w = slice text (Z.of_nat k * step) (Z.of_nat k * step + chunkSize) ∧
     Z.of_nat (String.length w) = Z.min chunkSize (len - Z.of_nat k * step) ∧
     Z.of_nat (String.length w) ≤ chunkSize ∧
     ∀ i, (i < String.length w)%nat →
       get i w = get (Z.to_nat (Z.of_nat k * step) + i) text) ∧
  (∀ p, 0 ≤ p < len →
     ∃ k, (k < n)%nat ∧
       Z.of_nat k * step ≤ p <
       Z.of_nat k * step + Z.of_nat (String.length (nth k chunks ""%string))) ∧
  (∀ k, (S k < n)%nat →
     sharedChars chunks step k =
       Z.min chunkSize (len - Z.of_nat k * step) - step ∧
     0 < sharedChars chunks step k ≤ overlap ∧
     (Z.of_nat k * step + chunkSize ≤ len →
        sharedChars chunks step k = overlap)) ∧
  (2 * overlap ≤ chunkSize →
     ∀ k, (k + 2 < n)%nat → sharedChars chunks step k = overlap) ∧
  (∀ text', text' = text →
     chunkText text' chunkSize overlap = chunkText text chunkSize overlap).
Proof.
  intros Hov. cbv zeta.
  set (len := Z.of_nat (String.length text)).
  set (step := chunkSize - overlap).
  set (n := windowCount len step).
  assert (0 < step) as Hstep by (unfold step; lia).
  assert (0 ≤ len) as Hlen by (unfold len; lia).
  destruct (windowCount_itersLeft len step Hlen Hstep) as [Hend Hlast].
  fold n in Hend, Hlast. rewrite Z.add_0_l in Hend, Hlast.
  assert (∀ k, (k < n)%nat → Z.of_nat k * step < len) as Hstart.
  { intros k Hk. destruct Hlast as [?|Hlast]; [lia|]. nia. }
  assert (∀ k, (k < n)%nat →
            Z.of_nat (String.length (nth k (windows text chunkSize step n) ""%string))
            = Z.min chunkSize (len - Z.of_nat k * step)) as Hwlen.
  { intros k Hk. rewrite windows_nth by done.
    rewrite slice_length by lia. fold len. specialize (Hstart k Hk). lia. }
  assert (∀ k, (S k < n)%nat →
            sharedChars (windows text chunkSize step n) step k
            = Z.min chunkSize (len - Z.of_nat k * step) - step) as Hshared.
  { intros k Hk. unfold sharedChars. rewrite Hwlen by lia. lia. }
  split_and!.
  - by apply chunkText_eq.
  - apply windows_length.
  - exact Hstart.
  - exact Hend.
  - intros k Hk. cbv zeta. split_and!.
    + by apply windows_nth.
    + by apply Hwlen.
    + rewrite Hwlen by done. lia.
    + intros i. rewrite windows_nth by done. intros Hi.
      apply slice_get; [|lia|done]. lia.
  - intros p Hp. exists (Z.to_nat (p / step)).
    pose proof (Z.div_mod p step ltac:(lia)) as Hdm.
    pose proof (Z.mod_pos_bound p step Hstep) as Hm.
    assert (0 ≤ p / step) as Hq by (apply Z.div_pos; lia).
    assert ((Z.to_nat (p / step) < n)%nat) as Hk by nia.
    split; [done|]. rewrite Hwlen by done. rewrite Z2Nat.id by done.
    unfold step in *. lia.
  - intros k Hk. rewrite Hshared by done.
    specialize (Hstart (S k) Hk). unfold step in *. lia.
  - intros Hhalf k Hk. rewrite Hshared by lia.
    specialize (Hstart (k + 2)%nat Hk). unfold step in *. lia.
  - by intros text' ->.
Qed.

(** A ten-character text cut with [chunkSize = 4] and [overlap = 1]. *)
Lemma chunkText_windows_witness :
  0 < 1 < 4 ∧
  chunkText "abcdefghij" 4 1 = Some ["abcd"; "defg"; "ghij"; "j"]%string.
Proof.
  assert (0 < 1 < 4) as H by lia.
  split; [exact H|].
  rewrite (proj1 (chunkText_windows "abcdefghij" 4 1 H)). reflexivity.
Defined.

End Chunker.

(** ** Embedding store ([lib/embeddings.js]) *)

Module Embeddings.

(** An embedding: an array of numbers, that is of binary64 floats. *)
Definition vector := list float.

(** What [loadDataFiles] returns for one file. *)
Record File := { filename : string; content : string }.

(** An element of [allChunks]. *)
Record Chunk := { chunk_text : string; chunk_source : string }.

(** An element of [embeddingsCache].  [embedding] is [embeddings[index]],
    which is [undefined] ([None]) when fewer vectors came back than chunks
    were sent. *)
Record EmbeddedChunk :=
  { text : string; embedding : option vector; source : string }.

Section Store.

(** The outside world: the embedding service and the data directory.
    [embed] stands for [getOpenAIClient()], [openai.embeddings.create] and
    the [map] over [response.data]: it answers with the vectors or fails,
    and may change the world.  [loadDataFiles] reads the [.txt] files (it
    catches its own errors). *)
Context {World Error : Type}.
Variable embed : World → list string → World * (Error + list vector).
Variable loadDataFiles : World → list File.

(** The module variable [embeddingsCache] ([None] for [null]), the world,
    and a record of every call of [generateEmbeddings] with its argument. *)
Record State := {
  embeddingsCache : option (list EmbeddedChunk);
  world : World;
  requests : list (list string)
}.

(** How a call ends: it returns, it throws, or the fuel of a loop ran out. *)
Inductive outcome (A : Type) :=
| Returned (a : A)
| Thrown (e : Error)
| OutOfFuel.

Definition M (A : Type) : Type := State → outcome A * State.

Definition ret {A} (a : A) : M A := λ st, (Returned A a, st).

Definition bind {A B} (c : M A) (k : A → M B) : M B := λ st,
  match c st with
  | (Returned _ a, st) => k a st
  | (Thrown _ e, st) => (Thrown B e, st)
  | (OutOfFuel _, st) => (OutOfFuel B, st)
  end.

Definition fromFuel {A} (o : option A) : M A := λ st,
  match o with
  | Some a => (Returned A a, st)
  | None => (OutOfFuel A, st)
  end.

(** [try { c } catch (error) { handler }] *)
Definition tryCatch {A} (c : M A) (handler : Error → M A) : M A := λ st,
  match c st with
  | (Thrown _ e, st) => handler e st
  | r => r
  end.

Notation "x <- c ;; k" := (bind c (λ x, k))
  (at level 100, c at next level, right associativity).

(** [generateEmbeddings]: one request to the embedding service; its
    [catch] logs and throws the error again. *)
Definition generateEmbeddings (texts : list string) : M (list vector) := λ st,
  let '(w, response) := embed (world st) texts in
  let st := {| embeddingsCache := embeddingsCache st;
               world := w;
               requests := requests st ++ [texts] |} in
  match response with
  | inr embeddings => (Returned _ embeddings, st)
  | inl error => (Thrown _ error, st)
  end.

(** The loop over the data files: every chunk of every file, in order. *)
Fixpoint chunkFiles (dataFiles : list File) (allChunks : list Chunk)
    : option (list Chunk) :=
  match dataFiles with
  | [] => Some allChunks
  | file :: dataFiles =>
      match Chunker.chunkTextDefault (content file) with
      | Some chunks =>
          chunkFiles dataFiles
            (allChunks ++
             map (λ chunk, {| chunk_text := chunk; chunk_source := filename file |})
                 chunks)
      | None => None
      end
  end.

(** The batch loop [for (i = 0; i < allChunks.length; i += batchSize)]. *)
Fixpoint embedBatches (fuel : nat) (allChunks : list Chunk) (batchSize i : nat)
    (embeddings : list vector) : M (list vector) :=
  if (i <? length allChunks)%nat then
    match fuel with
    | O => λ st, (OutOfFuel _, st)
    | S fuel =>
        let batch := take batchSize (drop i allChunks) in
        let batchTexts := map chunk_text batch in
        batchEmbeddings <- generateEmbeddings batchTexts ;;
        embedBatches fuel allChunks batchSize (i + batchSize)
                     (embeddings ++ batchEmbeddings)
    end
  else ret embeddings.

(** [allChunks.map((chunk, index) => ...)] *)
Definition combine (allChunks : list Chunk) (embeddings : list vector)
    : list EmbeddedChunk :=
  imap (λ index chunk,
          {| text := chunk_text chunk;
             embedding := embeddings !! index;
             source := chunk_source chunk |})
       allChunks.

Definition setCache (cache : list EmbeddedChunk) : M unit := λ st,
  (Returned _ (),
   {| embeddingsCache := Some cache; world := world st; requests := requests st |}).

(** [initializeEmbeddings] with the batch size as a parameter.  An array,
    even an empty one, is truthy: only [null] passes the first test. *)
Definition initializeEmbeddingsWith (batchSize : nat) : M (list EmbeddedChunk) :=
  λ st,
  match embeddingsCache st with
  | Some cache => (Returned _ cache, st)
  | None =>
      (let dataFiles := loadDataFiles (world st) in
       allChunks <- fromFuel (chunkFiles dataFiles []) ;;
       embeddings <- embedBatches (length allChunks) allChunks batchSize 0 [] ;;
       let cache := combine allChunks embeddings in
       _ <- setCache cache ;;
       ret cache) st
  end.

(** [initializeEmbeddings]: [const batchSize = 100]. *)
Definition initializeEmbeddings : M (list EmbeddedChunk) :=
  initializeEmbeddingsWith 100.

(** [getEmbeddings]: initialise when the cache is [null], then return the
    cache. *)
Definition getEmbeddings : M (list EmbeddedChunk) := λ st,
  match embeddingsCache st with
  | Some cache => (Returned _ cache, st)
  | None =>
      (_ <- initializeEmbeddings ;;
       λ st, (Returned _ (default [] (embeddingsCache st)), st)) st
  end.

(** *** The store in terms of whole lists *)

(** Every chunk of every file, in document order: the windows of each
    file's content for [chunkSize = 800] and [overlap = 200]. *)
Definition documentChunks (dataFiles : list File) : list Chunk :=
  flat_map (λ file,
              map (λ chunk, {| chunk_text := chunk; chunk_source := filename file |})
                  (Chunker.windows (content file) 800 600
                     (Chunker.windowCount
                        (Z.of_nat (String.length (content file))) 600)))
           dataFiles.

(** The texts of [r] consecutive batches, the first one taken at offset [i]. *)
Fixpoint batchesFrom (allChunks : list Chunk) (batchSize i r : nat)
    : list (list string) :=
  match r with
  | O => []
  | S r =>
      map chunk_text (take batchSize (drop i allChunks))
      :: batchesFrom allChunks batchSize (i + batchSize) r
  end.

(** Number of batches of [batchSize] needed for [n] chunks. *)
Definition batchCount (n batchSize : nat) : nat :=
  ((n + batchSize - 1) / batchSize)%nat.

Definition batches (allChunks : list Chunk) (batchSize : nat) : list (list string) :=
  batchesFrom allChunks batchSize 0 (batchCount (length allChunks) batchSize).

(** The service answering requests one after the other until one fails:
    the world afterwards, the requests made, and the first error or all
    the responses. *)
Fixpoint embedAll (w : World) (batches : list (list string))
    : World * list (list string) * (Error + list (list vector)) :=
  match batches with
  | [] => (w, [], inr [])
  | texts :: batches =>
      let '(w, response) := embed w texts in
      match response with
      | inl error => (w, [texts], inl error)
      | inr embeddings =>
          let '(w, sent, rest) := embedAll w batches in
          (w, texts :: sent,
           match rest with
           | inl error => inl error
           | inr responses => inr (embeddings :: responses)
           end)
      end
  end.

(** The state after some requests. *)
Definition after (st : State) (cache : option (list EmbeddedChunk)) (w : World)
    (sent : list (list string)) : State :=
  {| embeddingsCache := cache; world := w; requests := requests st ++ sent |}.

(** [r] iterations of the batch loop are left at offset [i]. *)
Definition batchesLeft (n batchSize i r : nat) : Prop :=
  (n ≤ i + r * batchSize)%nat ∧
  (r = 0%nat ∨ (i + (r - 1) * batchSize < n)%nat).

End Store.

(** *** A small world for concrete runs

    Three short files; the world counts the requests served, the request
    made when the count is 1 fails, every other one returns for each text
    a vector of as many ones as the text has characters. *)

Definition demoFiles (w : nat) : list File :=
  [ {| filename := "a.txt"; content := "alpha" |};
    {| filename := "b.txt"; content := "beta" |};
    {| filename := "c.txt"; content := "gamma" |} ]%string.

Definition demoEmbed (w : nat) (texts : list string)
    : nat * (string + list vector) :=
  (S w,
   if (w =? 1)%nat then inl "503"%string
   else inr (map (λ t, repeat 1%float (String.length t)) texts)).

Definition demoState (w : nat) : State :=
  {| embeddingsCache := None; world := w; requests := [] |}.

(** *** Properties of the embedding store *)

Section StoreProperties.

Context {World Error : Type}.
Variable embed : World → list string → World * (Error + list vector).
Variable loadDataFiles : World → list File.

Lemma chunkFiles_eq dataFiles allChunks :
  chunkFiles dataFiles allChunks = Some (allChunks ++ documentChunks dataFiles).
Proof.
  revert allChunks. induction dataFiles as [|file dataFiles IH]; intros allChunks.
  - simpl. by rewrite app_nil_r.
  - cbn [chunkFiles documentChunks flat_map]. unfold Chunker.chunkTextDefault.
    rewrite Chunker.chunkText_eq by lia.
    change (800 - 200) with 600. rewrite IH. by rewrite <- app_assoc.
Qed.

Lemma after_nil (st : State (World := World)) :
  after st (embeddingsCache st) (world st) [] = st.
Proof. destruct st. unfold after; simpl. by rewrite app_nil_r. Qed.

Lemma embedBatches_runs allChunks batchSize :
  (0 < batchSize)%nat →
  ∀ r fuel i embeddings st,
    (r ≤ fuel)%nat →
    batchesLeft (length allChunks) batchSize i r →
    embedBatches embed fuel allChunks batchSize i embeddings st =
    let '(w, sent, result) :=
      embedAll embed (world st) (batchesFrom allChunks batchSize i r) in
    (match result with
     | inl error => Thrown _ error
     | inr responses => Returned _ (embeddings ++ concat responses)
     end,
     after st (embeddingsCache st) w sent).
Proof.
  intros Hb. induction r as [|r IH]; intros fuel i embeddings st Hfuel [Hend Hlast].
  - assert ((i <? length allChunks)%nat = false) as Hi by (apply Nat.ltb_ge; lia).
    destruct fuel; simpl; rewrite Hi; unfold ret;
      by rewrite after_nil, app_nil_r.
  - destruct fuel as [|fuel]; [lia|].
    destruct Hlast as [?|Hlast]; [done|].
    assert ((i <? length allChunks)%nat = true) as Hi by (apply Nat.ltb_lt; nia).
    cbn [embedBatches batchesFrom embedAll]. rewrite Hi.
    unfold bind at 1. unfold generateEmbeddings at 1.
    destruct (embed (world st) (map chunk_text (take batchSize (drop i allChunks))))
      as [w [error|batchEmbeddings]]; [done|].
    rewrite IH; [|lia|].
    + cbn [world embeddingsCache].
      destruct (embedAll embed w (batchesFrom allChunks batchSize (i + batchSize) r))
        as [[w' sent] [error|responses]]; unfold after; simpl;
        rewrite <- ?app_assoc; done.
    + split; [lia|]. destruct r as [|r]; [by left|right]. lia.
Qed.

Lemma batchCount_batchesLeft n batchSize :
  (0 < batchSize)%nat → batchesLeft n batchSize 0 (batchCount n batchSize).
Proof.
  intros Hb. unfold batchesLeft, batchCount.
  pose proof (Nat.div_mod_eq (n + batchSize - 1) batchSize) as Hdm.
  pose proof (Nat.mod_upper_bound (n + batchSize - 1) batchSize ltac:(lia)) as Hm.
  split; [nia|].
  destruct (decide ((n + batchSize - 1) / batchSize = 0)%nat) as [->|Hne];
    [by left|right]. nia.
Qed.

Lemma batchCount_le n batchSize :
  (0 < batchSize)%nat → (batchCount n batchSize ≤ n)%nat.
Proof.
  intros Hb. unfold batchCount.
  destruct (decide (n = 0%nat)) as [->|Hne].
  - rewrite Nat.div_small; lia.
  - apply Nat.Div0.div_le_upper_bound. nia.
Qed.

(** [initializeEmbeddingsWith] on an empty cache, in one equation: the
    batches of the document chunks are sent in order; the first failure is
    thrown and the cache stays [null]; when all succeed the chunks are
    combined with the concatenated responses and cached. *)
Lemma initializeEmbeddingsWith_eq batchSize st :
  (0 < batchSize)%nat →
  embeddingsCache st = None →
  initializeEmbeddingsWith embed loadDataFiles batchSize st =
  let allChunks := documentChunks (loadDataFiles (world st)) in
  let '(w, sent, result) := embedAll embed (world st) (batches allChunks batchSize) in
  match result with
  | inl error => (Thrown _ error, after st None w sent)
  | inr responses =>
      let cache := combine allChunks (concat responses) in
      (Returned _ cache, after st (Some cache) w sent)
  end.
Proof.
  intros Hb Hnull. unfold initializeEmbeddingsWith. rewrite Hnull. cbv zeta.
  unfold bind at 1. rewrite chunkFiles_eq. cbn [fromFuel app].
  unfold bind at 1.
  rewrite (embedBatches_runs _ _ Hb
             (batchCount (length (documentChunks (loadDataFiles (world st)))) batchSize));
    [|by apply batchCount_le|by apply batchCount_batchesLeft].
  fold (batches (documentChunks (loadDataFiles (world st))) batchSize).
  destruct (embedAll embed (world st)
              (batches (documentChunks (loadDataFiles (world st))) batchSize))
    as [[w sent] [error|responses]]; rewrite Hnull; [done|].
  cbn [app]. unfold bind, setCache, ret, after; simpl. done.
Qed.

Lemma initializeEmbeddingsWith_cached batchSize st cache :
  embeddingsCache st = Some cache →
  initializeEmbeddingsWith embed loadDataFiles batchSize st = (Returned _ cache, st).
Proof. intros Hc. unfold initializeEmbeddingsWith. by rewrite Hc. Qed.

Lemma batchesFrom_concat allChunks batchSize :
  ∀ r i, batchesLeft (length allChunks) batchSize i r →
    concat (batchesFrom allChunks batchSize i r) = map chunk_text (drop i allChunks).
Proof.
  induction r as [|r IH]; intros i [Hend Hlast]; cbn [batchesFrom concat].
  - rewrite drop_ge by lia. done.
  - destruct Hlast as [?|Hlast]; [done|].
    rewrite IH.
    + rewrite <- map_app, <- drop_drop, take_drop. done.
    + split; [lia|]. destruct r as [|r]; [by left|right]. lia.
Qed.

Lemma batchesFrom_length allChunks batchSize r i :
  length (batchesFrom allChunks batchSize i r) = r.
Proof. revert i. induction r as [|r IH]; intros i; simpl; [done|]. by rewrite IH. Qed.

Lemma batchesFrom_lookup allChunks batchSize :
  ∀ r i j, (j < r)%nat →
    batchesFrom allChunks batchSize i r !! j =
    Some (map chunk_text (take batchSize (drop (i + j * batchSize) allChunks))).
Proof.
  induction r as [|r IH]; intros i j Hj; [lia|].
  destruct j as [|j]; cbn [batchesFrom lookup list_lookup].
  - by rewrite Nat.add_0_r.
  - change (batchesFrom allChunks batchSize (i + batchSize) r !! j = Some
              (map chunk_text (take batchSize (drop (i + S j * batchSize) allChunks)))).
    rewrite IH by lia. do 4 f_equal. lia.
Qed.

Lemma embedAll_success w requests' w' sent responses :
  embedAll embed w requests' = (w', sent, inr responses) →
  sent = requests' ∧ length responses = length requests'.
Proof.
  revert w w' sent responses.
  induction requests' as [|texts requests' IH]; intros w w' sent responses; simpl.
  - by intros [= <- <- <-].
  - destruct (embed w texts) as [w1 [error|embeddings]]; [done|].
    destruct (embedAll embed w1 requests') as [[w2 sent2] [error|responses2]] eqn:E; [done|].
    intros [= <- <- <-]. destruct (IH _ _ _ _ E) as [-> Hlen]. simpl. by rewrite Hlen.
Qed.

Lemma embedAll_failure w requests' w' sent error :
  embedAll embed w requests' = (w', sent, inl error) →
  sent `prefix_of` requests' ∧ sent ≠ [].
Proof.
  revert w w' sent.
  induction requests' as [|texts requests' IH]; intros w w' sent; simpl; [done|].
  destruct (embed w texts) as [w1 [error1|embeddings]].
  - intros [= <- <- <-]. split; [|done]. by exists requests'.
  - destruct (embedAll embed w1 requests') as [[w2 sent2] [error2|responses2]] eqn:E; [|done].
    intros [= <- <- <-]. destruct (IH _ _ _ E) as [Hp _].
    split; [|done]. by apply prefix_cons.
Qed.

Lemma combine_lookup allChunks embeddings i :
  combine allChunks embeddings !! i =
  (λ chunk, {| text := chunk_text chunk;
               embedding := embeddings !! i;
               source := chunk_source chunk |}) <$> allChunks !! i.
Proof. unfold combine. by rewrite list_lookup_imap. Qed.

Lemma combine_length allChunks embeddings :
  length (combine allChunks embeddings) = length allChunks.
Proof. unfold combine. by rewrite length_imap. Qed.

(** In a concatenation of lists whose first [j] members all have length
    [n], element [k] of member [j] sits at position [j * n + k]. *)
Lemma concat_lookup_regular {A} (n : nat) (ls : list (list A)) :
  ∀ j l k,
    (∀ j' l', (j' < j)%nat → ls !! j' = Some l' → length l' = n) →
    ls !! j = Some l → (k < length l)%nat →
    concat ls !! (j * n + k)%nat = l !! k.
Proof.
  induction ls as [|l0 ls IH]; intros j l k Hfull Hj Hk; [done|].
  destruct j as [|j]; simpl in *.
  - injection Hj as ->. by rewrite lookup_app_l.
  - assert (length l0 = n) as Hl0 by (apply (Hfull 0%nat); [lia|done]).
    rewrite lookup_app_r by lia.
    replace (n + j * n + k - length l0)%nat with (j * n + k)%nat by lia.
    apply IH; [|done..].
    intros j' l' Hj' Hl'. apply (Hfull (S j')); [lia|done].
Qed.

(** C7. For every batch size the store built by the initialisation holds,
    at position [i], the text and source of the [i]-th document chunk
    together with the [i]-th vector of the concatenated batch responses.
    The batches are the chunk texts in order; and when every response has
    one vector per text sent, the vector paired with a chunk is the one
    returned for its own text: text [k] of request [j] gets vector [k] of
    response [j]. *)
Theorem embeddings_zip_by_position (batchSize : nat) (st : State) (w : World)
    (sent : list (list string)) (responses : list (list vector)) :
  (0 < batchSize)%nat →
  embeddingsCache st = None →
  let allChunks := documentChunks (loadDataFiles (world st)) in
  embedAll embed (world st) (batches allChunks batchSize) = (w, sent, inr responses) →
  let cache := combine allChunks (concat responses) in
  initializeEmbeddingsWith embed loadDataFiles batchSize st =
    (Returned _ cache, after st (Some cache) w (batches allChunks batchSize)) ∧
  concat (batches allChunks batchSize) = map chunk_text allChunks ∧
  length cache = length allChunks ∧
  (∀ i chunk, allChunks !! i = Some chunk →
     cache !! i = Some {| text := chunk_text chunk;
                          embedding := concat responses !! i;
                          source := chunk_source chunk |}) ∧
  (Forall2 (λ texts embeddings, length embeddings = length texts)
           (batches allChunks batchSize) responses →
   ∀ j k texts t,
     batches allChunks batchSize !! j = Some texts → texts !! k = Some t →
     ∃ chunk,
       allChunks !! (j * batchSize + k)%nat = Some chunk ∧
       chunk_text chunk = t ∧
       cache !! (j * batchSize + k)%nat =
         Some {| text := t;
                 embedding := responses !! j ≫= (λ embeddings, embeddings !! k);
                 source := chunk_source chunk |}).
Proof.
  intros Hb Hnull allChunks Hall cache.
  pose proof (batchCount_batchesLeft (length allChunks) batchSize Hb) as Hleft.
  split_and!.
  - rewrite initializeEmbeddingsWith_eq by done. cbv zeta. fold allChunks.
    rewrite Hall. by destruct (embedAll_success _ _ _ _ _ Hall) as [-> _].
  - unfold batches. rewrite batchesFrom_concat by done. by rewrite drop_0.
  - apply combine_length.
  - intros i chunk Hi. unfold cache. by rewrite combine_lookup, Hi.
  - intros Hfull j k texts t Hj Hk.
    assert (j < batchCount (length allChunks) batchSize)%nat as Hjr.
    { apply lookup_lt_Some in Hj. unfold batches in Hj.
      by rewrite batchesFrom_length in Hj. }
    unfold batches in Hj. rewrite batchesFrom_lookup in Hj by done.
    injection Hj as <-. simpl in Hk.
    rewrite list_lookup_fmap in Hk.
    destruct (take batchSize (drop (j * batchSize) allChunks) !! k)
      as [chunk|] eqn:Hchunk; [|done].
    injection Hk as <-.
    apply lookup_take_Some in Hchunk as [Hchunk Hkb].
    rewrite lookup_drop in Hchunk.
    exists chunk. split_and!; [done..|].
    unfold cache. rewrite combine_lookup, Hchunk. simpl. do 2 f_equal.
    assert (∀ j' texts', (j' ≤ j)%nat →
              batches allChunks batchSize !! j' = Some texts' →
              (j' < j → length texts' = batchSize)%nat ∧
              (j' = j → k < length texts')%nat) as Hreq.
    { intros j' texts' Hj' Hl'. unfold batches in Hl'.
      rewrite batchesFrom_lookup in Hl' by lia. injection Hl' as <-. simpl.
      rewrite length_map, length_take, length_drop.
      apply lookup_lt_Some in Hchunk. split; [nia|]. intros ->. lia. }
    destruct (Forall2_lookup_l _ _ _ j _ Hfull
                ltac:(unfold batches; by apply batchesFrom_lookup))
      as (embeddings & Hresp & Hlen).
    rewrite Hresp. simpl.
    apply concat_lookup_regular; [|done|].
    + intros j' l' Hj' Hl'.
      destruct (Forall2_lookup_r _ _ _ j' _ Hfull Hl') as (texts' & Htexts' & Hlen').
      rewrite Hlen'. by apply (Hreq j' texts'); [lia|..].
    + rewrite Hlen. simpl in Hlen.
      apply (Hreq j); [lia| |done].
      unfold batches. by apply batchesFrom_lookup.
Qed.

(** C8. A call of [initializeEmbeddings] on a populated cache returns the
    cached collection at once and changes nothing: no request is made and
    the cache is the same.  After a call that returned, the cache holds
    what was returned, so a second call returns the same collection and
    leaves the state, with its record of requests, as it is. *)
Theorem initializeEmbeddings_idempotent (st : State) :
  (∀ cache, embeddingsCache st = Some cache →
     initializeEmbeddings embed loadDataFiles st = (Returned _ cache, st)) ∧
  (∀ cache st', initializeEmbeddings embed loadDataFiles st = (Returned _ cache, st') →
     embeddingsCache st' = Some cache ∧
     initializeEmbeddings embed loadDataFiles st' = (Returned _ cache, st') ∧
     requests (initializeEmbeddings embed loadDataFiles st').2 = requests st').
Proof.
  assert (∀ cache st', initializeEmbeddings embed loadDataFiles st = (Returned _ cache, st') →
            embeddingsCache st' = Some cache) as Hpop.
  { intros cache st'. unfold initializeEmbeddings.
    destruct (embeddingsCache st) as [cached|] eqn:Hc.
    - rewrite (initializeEmbeddingsWith_cached _ _ _ Hc). by intros [= <- <-].
    - rewrite initializeEmbeddingsWith_eq by (done || lia). cbv zeta.
      destruct (embedAll embed _ _) as [[w sent] [error|responses]]; [done|].
      by intros [= <- <-]. }
  split.
  - intros cache Hc. by apply initializeEmbeddingsWith_cached.
  - intros cache st' Hcall. specialize (Hpop _ _ Hcall).
    unfold initializeEmbeddings.
    rewrite (initializeEmbeddingsWith_cached _ _ _ Hpop). done.
Qed.

(** C9. When the embedding service fails during some batch of an
    initialisation on an empty cache, [initializeEmbeddings] throws that
    error, the requests made are the batches up to the failing one, and
    the cache is still [null].  The next call starts again from the files
    and the first batch: when all its requests succeed it returns and
    caches the store built from its own responses only. *)
Theorem initialization_failure_leaves_no_cache (st : State) (w : World)
    (sent : list (list string)) (error : Error) :
  embeddingsCache st = None →
  embedAll embed (world st) (batches (documentChunks (loadDataFiles (world st))) 100)
    = (w, sent, inl error) →
  let st' := (initializeEmbeddings embed loadDataFiles st).2 in
  initializeEmbeddings embed loadDataFiles st = (Thrown _ error, st') ∧
  embeddingsCache st' = None ∧
  world st' = w ∧
  requests st' = requests st ++ sent ∧
  sent `prefix_of` batches (documentChunks (loadDataFiles (world st))) 100 ∧
  sent ≠ [] ∧
  ∀ w' sent' responses,
    let allChunks := documentChunks (loadDataFiles w) in
    embedAll embed w (batches allChunks 100) = (w', sent', inr responses) →
    initializeEmbeddings embed loadDataFiles st' =
      (Returned _ (combine allChunks (concat responses)),
       after st' (Some (combine allChunks (concat responses))) w'
             (batches allChunks 100)).
Proof.
  intros Hnull Hfail. cbv zeta. unfold initializeEmbeddings.
  rewrite initializeEmbeddingsWith_eq by (done || lia). cbv zeta.
  rewrite Hfail. cbn [fst snd after embeddingsCache world requests].
  destruct (embedAll_failure _ _ _ _ _ Hfail) as [Hprefix Hne].
  split_and!; try done.
  intros w' sent' responses Hretry.
  rewrite initializeEmbeddingsWith_eq by (done || lia). cbv zeta.
  change (world (after st None w sent)) with w. rewrite Hretry.
  by destruct (embedAll_success _ _ _ _ _ Hretry) as [-> _].
Qed.

End StoreProperties.

(** Three chunks in batches of two: the store pairs each text with the
    vector returned for it. *)
Lemma embeddings_zip_by_position_witness :
  (initializeEmbeddingsWith demoEmbed demoFiles 2 (demoState 2)).1 =
  Returned _
    [ {| text := "alpha"; embedding := Some (repeat 1%float 5); source := "a.txt" |};
      {| text := "beta"; embedding := Some (repeat 1%float 4); source := "b.txt" |};
      {| text := "gamma"; embedding := Some (repeat 1%float 5); source := "c.txt" |}
    ]%string.
Proof.
  destruct (embeddings_zip_by_position demoEmbed demoFiles 2 (demoState 2) 4%nat
              [["alpha"; "beta"]; ["gamma"]]%string
              [[repeat 1%float 5; repeat 1%float 4]; [repeat 1%float 5]])
    as (Hrun & _); [lia|reflexivity|reflexivity|].
  rewrite Hrun. reflexivity.
Defined.

(** A second call after a first one that returned. *)
Lemma initializeEmbeddings_idempotent_witness :
  let first := initializeEmbeddings demoEmbed demoFiles (demoState 2) in
  ∃ cache, first.1 = Returned _ cache ∧
    initializeEmbeddings demoEmbed demoFiles first.2 = (Returned _ cache, first.2) ∧
    requests first.2 = [["alpha"; "beta"; "gamma"]]%string.
Proof.
  cbv zeta.
  destruct (initializeEmbeddings demoEmbed demoFiles (demoState 2))
    as [result st'] eqn:Hfirst.
  assert (Hrun := Hfirst). vm_compute in Hrun.
  injection Hrun as <- <-.
  eexists. split; [reflexivity|].
  destruct (proj2 (initializeEmbeddings_idempotent demoEmbed demoFiles (demoState 2))
              _ _ Hfirst) as (_ & Hsecond & _).
  split; [exact Hsecond|reflexivity].
Defined.

(** The service fails on the first attempt and succeeds on the retry. *)
Lemma initialization_failure_leaves_no_cache_witness :
  let failed := initializeEmbeddings demoEmbed demoFiles (demoState 1) in
  failed.1 = Thrown _ "503"%string ∧
  embeddingsCache failed.2 = None ∧
  (initializeEmbeddings demoEmbed demoFiles failed.2).1 =
    Returned _
      (combine (documentChunks (demoFiles 2))
               [repeat 1%float 5; repeat 1%float 4; repeat 1%float 5]).
Proof.
  cbv zeta.
  destruct (initialization_failure_leaves_no_cache demoEmbed demoFiles
              (demoState 1) 2%nat [["alpha"; "beta"; "gamma"]]%string "503"%string)
    as (Hthrown & Hnull & _ & _ & _ & _ & Hretry); [reflexivity|reflexivity|].
  split; [by rewrite Hthrown|]. split; [exact Hnull|].
  rewrite (Hretry 3%nat [["alpha"; "beta"; "gamma"]]%string
             [[repeat 1%float 5; repeat 1%float 4; repeat 1%float 5]]);
    reflexivity.
Defined.

End Embeddings.

(** ** Binary64 arithmetic

    JavaScript numbers are IEEE 754 binary64 values, the primitive floats
    of Rocq; [Math.sqrt] is [sqrt].  The facts below are derived from the
    specification of the primitive operations on [spec_float]. *)

Module Float64.

(** A key that orders the numbers as [SFcompare] does, lexicographically. *)
Definition key (x : spec_float) : Z * Z * Z :=
  match x with
  | S754_infinity true => (-2, 0, 0)
  | S754_finite true m e => (-1, - e, - Z.pos m)
  | S754_zero _ | S754_nan => (0, 0, 0)
  | S754_finite false m e => (1, e, Z.pos m)
  | S754_infinity false => (2, 0, 0)
  end.



(** Anything but NaN. *)
Definition number (x : spec_float) : Prop := x ≠ S754_nan.

(** A float that is [+0], [-0] or NaN. *)
Definition zeroOrNaN (x : float) : Prop :=
  match Prim2SF x with
  | S754_zero _ | S754_nan => True
  | _ => False
  end.

(** *** Rounding keeps the sign *)





















(** *** The primitive floats *)

Lemma is_nan_false x : is_nan x = false ↔ number (Prim2SF x).
Proof.
  unfold is_nan, number.
  assert ((x =? x)%float = SFeqb (Prim2SF x) (Prim2SF x)) as -> by apply FloatAxioms.eqb_spec.
  destruct (Prim2SF x) as [s|s| |s m e]; unfold SFeqb; cbn [SFcompare].
  - done.
  - by destruct s.
  - done.
  - change (Pos.compare_cont Eq m m) with (Pos.compare m m).
    rewrite Z.compare_refl, Pos.compare_refl. by destruct s.
Qed.

Lemma is_nan_true x : is_nan x = true ↔ Prim2SF x = S754_nan.
Proof.
  pose proof (is_nan_false x) as H. unfold number in H.
  destruct (is_nan x); split; intros H'; try done.
  - destruct (Prim2SF x); try done; by (assert (true = false) by by apply H).
  - exfalso. by apply H.
Qed.






(** *** Zeros and NaN *)

Lemma eqb_zero x : (x =? 0)%float = true → zeroOrNaN x.
Proof.
  rewrite FloatAxioms.eqb_spec. change (Prim2SF 0) with (S754_zero false). unfold zeroOrNaN.
  by destruct (Prim2SF x) as [s|[]| |[] m e].
Qed.

Lemma zeroOrNaN_nan : zeroOrNaN nan.
Proof. exact I. Qed.

Lemma zeroOrNaN_zero : zeroOrNaN 0.
Proof. exact I. Qed.

Lemma zeroOrNaN_mul_l x y : zeroOrNaN x → zeroOrNaN (x * y).
Proof.
  unfold zeroOrNaN. rewrite FloatAxioms.mul_spec.
  by destruct (Prim2SF x), (Prim2SF y).
Qed.

Lemma zeroOrNaN_mul_r x y : zeroOrNaN y → zeroOrNaN (x * y).
Proof.
  unfold zeroOrNaN. rewrite FloatAxioms.mul_spec.
  by destruct (Prim2SF x), (Prim2SF y).
Qed.

Lemma zeroOrNaN_add x y : zeroOrNaN x → zeroOrNaN y → zeroOrNaN (x + y).
Proof.
  unfold zeroOrNaN. rewrite FloatAxioms.add_spec.
  by destruct (Prim2SF x) as [[]| | |], (Prim2SF y) as [[]| | |].
Qed.

Lemma zeroOrNaN_sqrt x : zeroOrNaN x → zeroOrNaN (sqrt x).
Proof. unfold zeroOrNaN. rewrite FloatAxioms.sqrt_spec. by destruct (Prim2SF x). Qed.

Lemma zeroOrNaN_div x y : zeroOrNaN x → zeroOrNaN y → is_nan (x / y) = true.
Proof.
  unfold zeroOrNaN. rewrite is_nan_true, FloatAxioms.div_spec.
  by destruct (Prim2SF x), (Prim2SF y).
Qed.

End Float64.

(** ** Retriever ([lib/retriever.js]) *)

Module Retriever.

Import Embeddings.

(** *** [Array.prototype.sort]

    The language asks for a stable sort and leaves the algorithm to the
    engine; a comparator result that is NaN counts as [+0].  The model
    inserts the elements one by one, from left to right, each in front of
    the first element that the comparator puts it before.  For a
    comparator that orders the elements consistently every stable sort
    returns this same array ([sort_unique] below). *)
Section Sort.

Context {A : Type}.
Variable compareFn : A → A → float.

(** [x] has to come before [y]: the comparator's result is negative. *)
Definition precedes (x y : A) : bool := (compareFn x y <? 0)%float.

Fixpoint insertSorted (x : A) (sorted : list A) : list A :=
  match sorted with
  | [] => [x]
  | y :: sorted' =>
      if precedes x y then x :: sorted else y :: insertSorted x sorted'
  end.

Definition sort (l : list A) : list A :=
  foldl (λ sorted x, insertSorted x sorted) [] l.

(** What a stable sort promises for two elements of its result, [x] to
    the left of [y]: the comparator does not put [y] before [x], and when
    it does not put [x] before [y] either, [x] was to the left of [y] in
    the input ([position] says where an element was). *)
Variable position : A → nat.

Definition ranksBefore (x y : A) : Prop :=
  precedes y x = false ∧ (precedes x y = false → (position x < position y)%nat).

End Sort.

(** [Array.prototype.slice(0, topK)] for an integer [topK]: a negative
    [topK] counts from the end. *)
Definition sliceTo {A} (l : list A) (topK : Z) : list A :=
  let len := Z.of_nat (length l) in
  let to := if topK <? 0 then Z.max (len + topK) 0 else Z.min topK len in
  take (Z.to_nat to) l.

(** The body of the loop of [cosineSimilarity], from the current index on:
    [b] is what is left of the second array, and an element read past its
    end is [undefined], which arithmetic turns into NaN. *)
Fixpoint cosineLoop (a b : vector) (dotProduct normA normB : float)
    : float * float * float :=
  match a with
  | [] => (dotProduct, normA, normB)
  | ai :: a =>
      let bi := hd nan b in
      cosineLoop a (tl b)
                 (dotProduct + ai * bi) (normA + ai * ai) (normB + bi * bi)
  end.

Definition cosineSimilarity (a b : vector) : float :=
  let '(dotProduct, normA, normB) := cosineLoop a b 0 0 0 in
  (dotProduct / (sqrt normA * sqrt normB))%float.

(** An element of [similarities]. *)
Record Scored := {
  index : nat;
  similarity : float;
  text : string;
  source : string
}.

(** [cosineSimilarity(queryEmbedding, item.embedding)] as the engine runs
    it: reading [length] of an [undefined] first argument throws, and so
    does reading an element of an [undefined] second argument, which
    happens when the loop runs at least once. *)
Definition similarityOf (queryEmbedding : option vector) (item : EmbeddedChunk)
    : option float :=
  match queryEmbedding with
  | None => None
  | Some a =>
      match embedding item with
      | Some b => Some (cosineSimilarity a b)
      | None =>
          match a with
          | [] => Some (cosineSimilarity [] [])
          | _ :: _ => None
          end
      end
  end.

(** [embeddings.map((item, index) => ...)], from position [index] on;
    [None] when a call of [cosineSimilarity] throws. *)
Fixpoint scoreFrom (index : nat) (queryEmbedding : option vector)
    (embeddings : list EmbeddedChunk) : option (list Scored) :=
  match embeddings with
  | [] => Some []
  | item :: embeddings =>
      match similarityOf queryEmbedding item with
      | None => None
      | Some s =>
          match scoreFrom (S index) queryEmbedding embeddings with
          | None => None
          | Some similarities =>
              Some ({| index := index;
                       similarity := s;
                       text := Embeddings.text item;
                       source := Embeddings.source item |} :: similarities)
          end
      end
  end.

(** The comparator [(a, b) => b.similarity - a.similarity]. *)
Definition compareFn (a b : Scored) : float :=
  (similarity b - similarity a)%float.

Definition newline : string := String "010"%char EmptyString.

(** The template [`[Source: ${result.source}]\n${result.text}`]. *)
Definition formatResult (result : Scored) : string :=
  ("[Source: " +:+ source result +:+ "]" +:+ newline +:+ text result)%string.

(** The separator ['\n\n---\n\n']. *)
Definition separator : string :=
  (newline +:+ newline +:+ "---" +:+ newline +:+ newline)%string.

(** The part of [retrieveContext] after the two [await]s. *)
Definition topResults (similarities : list Scored) (topK : Z) : list Scored :=
  sliceTo (sort compareFn similarities) topK.

Definition context (topResults : list Scored) : string :=
  String.concat separator (map formatResult topResults).

Section Retrieve.

Context {World Error : Type}.
Variable embed : World → list string → World * (Error + list vector).
Variable loadDataFiles : World → list File.

(** The [TypeError] of a property read on [undefined]. *)
Variable typeError : Error.

Notation "x <- c ;; k" := (bind c (λ x, k))
  (at level 100, c at next level, right associativity).

Definition orThrow {A} (error : Error) (o : option A)
    : M (World := World) (Error := Error) A := λ st,
  match o with
  | Some a => (Returned _ a, st)
  | None => (Thrown _ error, st)
  end.

(** [retrieveContext]: everything is inside the [try]; the [catch] logs
    the error and returns the empty string. *)
Definition retrieveContext (query : string) (topK : Z)
    : M (World := World) (Error := Error) string :=
  tryCatch
    (queryEmbeddings <- generateEmbeddings embed [query] ;;
     let queryEmbedding := queryEmbeddings !! 0%nat in
     embeddings <- getEmbeddings embed loadDataFiles ;;
     similarities <- orThrow typeError (scoreFrom 0 queryEmbedding embeddings) ;;
     ret (context (topResults similarities topK)))
    (λ error, ret ""%string).

(** The default [topK = 3]. *)
Definition retrieveContextDefault (query : string)
    : M (World := World) (Error := Error) string :=
  retrieveContext query 3.

End Retrieve.

(** *** The retrieval in terms of whole lists *)



(** A vector of zero magnitude: every component is [+0] or [-0]. *)
Definition zeroMagnitude (v : vector) : Prop :=
  Forall (λ x, (x =? 0)%float = true) v.


(** The fallback as the specification words it: with a vector of zero
    magnitude the similarity is a number, not the NaN of [0 / 0]. *)
Definition fallback_on_zero_magnitude : Prop :=
  ∀ a b : vector,
    zeroMagnitude a ∨ zeroMagnitude b →
    is_nan (cosineSimilarity a b) = false.

(** *** A concrete retrieval

    The service answers every text with the vector [[1, 0]]; the store
    holds four chunks, two of them equally similar to the query. *)

Definition demoQueryEmbed (w : nat) (texts : list string)
    : nat * (string + list vector) :=
  (S w, inr (map (λ _, [1; 0]%float) texts)).

Definition demoStore : list EmbeddedChunk :=
  [ {| Embeddings.text := "near"; embedding := Some [1; 1]%float;
       Embeddings.source := "a.txt" |};
    {| Embeddings.text := "same"; embedding := Some [1; 0]%float;
       Embeddings.source := "b.txt" |};
    {| Embeddings.text := "twice"; embedding := Some [2; 0]%float;
       Embeddings.source := "c.txt" |};
    {| Embeddings.text := "away"; embedding := Some [0; 1]%float;
       Embeddings.source := "d.txt" |} ]%string.

Definition demoState : State :=
  {| embeddingsCache := Some demoStore; world := 0%nat; requests := [] |}.

(** *** Properties of the sort *)

Section SortProperties.

Context {A : Type}.
Variable compareFn : A → A → float.
Variable position : A → nat.

(** The elements on which the comparator is consistent. *)
Variable consistent : A → Prop.

Hypothesis precedes_asym : ∀ x y,
  consistent x → consistent y →
  precedes compareFn x y = true → precedes compareFn y x = false.

Hypothesis precedes_negtrans : ∀ x y z,
  consistent x → consistent y → consistent z →
  precedes compareFn x y = true →
  precedes compareFn x z = true ∨ precedes compareFn z y = true.

Lemma insertSorted_perm x sorted :
  insertSorted compareFn x sorted ≡ₚ x :: sorted.
Proof.
  induction sorted as [|y sorted IH]; simpl; [done|].
  destruct (precedes compareFn x y); [done|].
  rewrite IH. apply Permutation_swap.
Qed.

Lemma sort_from_perm l sorted :
  foldl (λ sorted x, insertSorted compareFn x sorted) sorted l ≡ₚ sorted ++ l.
Proof.
  revert sorted. induction l as [|x l IH]; intros sorted; simpl.
  - by rewrite app_nil_r.
  - rewrite IH, insertSorted_perm. apply Permutation_middle.
Qed.

Lemma sort_perm l : sort compareFn l ≡ₚ l.
Proof. unfold sort. by rewrite sort_from_perm. Qed.

Lemma insertSorted_sorted x sorted :
  consistent x → Forall consistent sorted →
  Forall (λ y, (position y < position x)%nat) sorted →
  StronglySorted (ranksBefore compareFn position) sorted →
  StronglySorted (ranksBefore compareFn position) (insertSorted compareFn x sorted).
Proof.
  intros Hx Hok Hpos Hsorted.
  induction Hsorted as [|y sorted Hsorted IH Hy]; simpl.
  - repeat constructor.
  - apply Forall_cons in Hok as [Hoky Hok].
    apply Forall_cons in Hpos as [Hposy Hpos].
    destruct (precedes compareFn x y) eqn:Hxy.
    + constructor; [by constructor|].
      constructor.
      * split; [by apply precedes_asym|]. intros; congruence.
      * rewrite Forall_forall in Hy, Hok. apply Forall_forall. intros z Hz.
        destruct (Hy z Hz) as [Hzy _].
        destruct (precedes_negtrans x y z Hx Hoky (Hok z Hz) Hxy) as [Hxz|?];
          [|congruence].
        split; [by apply precedes_asym; auto|]. intros; congruence.
    + constructor; [by apply IH|].
      rewrite (insertSorted_perm x sorted). constructor; [|done].
      split; [done|]. intros _. done.
Qed.

Lemma sort_from_sorted l sorted :
  Forall consistent sorted → Forall consistent l →
  StronglySorted (ranksBefore compareFn position) sorted →
  StronglySorted (λ x y, (position x < position y)%nat) l →
  (∀ y x, y ∈ sorted → x ∈ l → (position y < position x)%nat) →
  StronglySorted (ranksBefore compareFn position)
    (foldl (λ sorted x, insertSorted compareFn x sorted) sorted l).
Proof.
  revert sorted. induction l as [|x l IH]; intros sorted Hok Hl Hs Hpos Hlt;
    simpl; [done|].
  apply Forall_cons in Hl as [Hx Hl].
  apply IH.
  - rewrite (insertSorted_perm x sorted). by constructor.
  - done.
  - apply insertSorted_sorted; [done..| |done].
    apply Forall_forall. intros y Hy. apply Hlt; [done|by left].
  - by apply StronglySorted_cons in Hpos as [_ Hpos].
  - apply StronglySorted_cons in Hpos as [Hxl Hpl].
    intros y z Hy Hz. rewrite (insertSorted_perm x sorted) in Hy.
    apply elem_of_cons in Hy as [->|Hy].
    + rewrite Forall_forall in Hxl. by apply Hxl.
    + apply Hlt; [done|by right].
Qed.

Lemma sort_sorted l :
  Forall consistent l →
  StronglySorted (λ x y, (position x < position y)%nat) l →
  StronglySorted (ranksBefore compareFn position) (sort compareFn l).
Proof.
  intros Hok Hpos. apply sort_from_sorted; try done.
  - constructor.
  - intros y x Hy. by apply elem_of_nil in Hy.
Qed.

(** Any stable sort returns the array that [sort] returns. *)
Lemma sort_unique l l' :
  Forall consistent l →
  StronglySorted (λ x y, (position x < position y)%nat) l →
  l' ≡ₚ l →
  StronglySorted (ranksBefore compareFn position) l' →
  l' = sort compareFn l.
Proof.
  intros Hok Hpos Hperm Hsorted.
  apply (StronglySorted_unique_strong (ranksBefore compareFn position));
    [|done|by apply sort_sorted|by rewrite sort_perm].
  intros x y _ _ [Hyx Hlt] [Hxy Hgt].
  specialize (Hlt Hxy). specialize (Hgt Hyx). lia.
Qed.

End SortProperties.



(** *** Properties of the scores *)











(** *** Properties of [cosineSimilarity] *)

Lemma zeroMagnitude_hd b : zeroMagnitude b → Float64.zeroOrNaN (hd nan b).
Proof.
  destruct 1 as [|x b Hx _]; simpl.
  - apply Float64.zeroOrNaN_nan.
  - by apply Float64.eqb_zero.
Qed.

Lemma zeroMagnitude_tl b : zeroMagnitude b → zeroMagnitude (tl b).
Proof. destruct 1; simpl; [constructor|done]. Qed.

Lemma cosineLoop_zero_a a : ∀ b dotProduct normA normB,
  zeroMagnitude a →
  Float64.zeroOrNaN dotProduct → Float64.zeroOrNaN normA →
  Float64.zeroOrNaN (cosineLoop a b dotProduct normA normB).1.1 ∧
  Float64.zeroOrNaN (cosineLoop a b dotProduct normA normB).1.2.
Proof.
  induction a as [|ai a IH]; intros b dotProduct normA normB Ha Hd Hn; [done|].
  apply Forall_cons in Ha as [Hai%Float64.eqb_zero Ha].
  cbn [cosineLoop]. apply IH; [done|..];
    apply Float64.zeroOrNaN_add; try done; by apply Float64.zeroOrNaN_mul_l.
Qed.

Lemma cosineLoop_zero_b a : ∀ b dotProduct normA normB,
  zeroMagnitude b →
  Float64.zeroOrNaN dotProduct → Float64.zeroOrNaN normB →
  Float64.zeroOrNaN (cosineLoop a b dotProduct normA normB).1.1 ∧
  Float64.zeroOrNaN (cosineLoop a b dotProduct normA normB).2.
Proof.
  induction a as [|ai a IH]; intros b dotProduct normA normB Hb Hd Hn; [done|].
  pose proof (zeroMagnitude_hd b Hb) as Hbi.
  cbn [cosineLoop]. apply IH; [by apply zeroMagnitude_tl|..];
    apply Float64.zeroOrNaN_add; try done; by apply Float64.zeroOrNaN_mul_r.
Qed.

(** C6, the fallback as worded.  The similarity of [[0, 0]] and [[1, 2]]
    is [0 / (0 * sqrt 5)], the NaN of an unguarded [0 / 0]. *)
Lemma cosineSimilarity_fallback_counterexample : ¬ fallback_on_zero_magnitude.
Proof.
  intros H. specialize (H [0; 0]%float [1; 2]%float).
  assert (zeroMagnitude [0; 0]%float) as Hzero by (by repeat constructor).
  specialize (H (or_introl Hzero)). vm_compute in H. discriminate H.
Qed.

(** C6, amended.  [cosineSimilarity] has no guard: whenever one of the two
    vectors has zero magnitude the result is NaN, the quotient [0 / 0],
    and never a fallback number.  Nothing guards the call in
    [retrieveContext] either: the score of a stored item whose vector has
    zero magnitude is that NaN. *)
Theorem cosineSimilarity_zero_magnitude_nan (a b : vector) :
  zeroMagnitude a ∨ zeroMagnitude b →
  is_nan (cosineSimilarity a b) = true ∧
  ∀ item, embedding item = Some b →
    ∃ s, similarityOf (Some a) item = Some s ∧ is_nan s = true.
Proof.
  intros Hzero.
  assert (is_nan (cosineSimilarity a b) = true) as Hnan.
  { unfold cosineSimilarity.
    destruct (cosineLoop a b 0 0 0) as [[dotProduct normA] normB] eqn:Hloop.
    destruct Hzero as [Ha|Hb].
    - destruct (cosineLoop_zero_a a b 0 0 0 Ha
                  Float64.zeroOrNaN_zero Float64.zeroOrNaN_zero) as [Hd Hn].
      rewrite Hloop in Hd, Hn. cbn [fst snd] in Hd, Hn.
      apply Float64.zeroOrNaN_div; [done|].
      by apply Float64.zeroOrNaN_mul_l, Float64.zeroOrNaN_sqrt.
    - destruct (cosineLoop_zero_b a b 0 0 0 Hb
                  Float64.zeroOrNaN_zero Float64.zeroOrNaN_zero) as [Hd Hn].
      rewrite Hloop in Hd, Hn. cbn [fst snd] in Hd, Hn.
      apply Float64.zeroOrNaN_div; [done|].
      by apply Float64.zeroOrNaN_mul_r, Float64.zeroOrNaN_sqrt. }
  split; [done|].
  intros item Hb. exists (cosineSimilarity a b).
  unfold similarityOf. by rewrite Hb.
Qed.

(** A zero vector with both signs of zero against [[3, 4]]. *)
Lemma cosineSimilarity_zero_magnitude_nan_witness :
  zeroMagnitude [0; -0]%float ∧
  is_nan (cosineSimilarity [0; -0]%float [3; 4]%float) = true.
Proof.
  assert (zeroMagnitude [0; -0]%float) as Hzero by (by repeat constructor).
  split; [exact Hzero|].
  exact (proj1 (cosineSimilarity_zero_magnitude_nan [0; -0]%float [3; 4]%float
                  (or_introl Hzero))).
Defined.

(** *** Properties of [retrieveContext] *)


Section RetrieveProperties.

Context {World Error : Type}.
Variable embed : World → list string → World * (Error + list vector).
Variable loadDataFiles : World → list File.
Variable typeError : Error.



End RetrieveProperties.


End Retriever.

(** ** Session memory: clearing and counting ([lib/memory.js]) *)

Module Sessions.

Import Memory.

(** Every exported operation of the module, on any session identifier. *)
Inductive op :=
| Add (sessionId role content : string)
| Read (sessionId : string)
| Clear (sessionId : string)
| Count.

Definition apply (sessions : gmap string (list Turn)) (o : op)
    : gmap string (list Turn) :=
  match o with
  | Add sessionId role content => addMessage sessionId role content sessions
  | Read sessionId => (getSessionHistory sessionId sessions).2
  | Clear sessionId => clearSession sessionId sessions
  | Count => sessions
  end.

(** The module starts with an empty [Map]. *)
Definition runOps (ops : list op) : gmap string (list Turn) :=
  foldl apply ∅ ops.

(** What one operation does to the turns appended to a session since it
    was last cleared. *)
Definition record (sessionId : string) (turns : list Turn) (o : op) : list Turn :=
  match o with
  | Add sid role content =>
      if decide (sid = sessionId)
      then turns ++ [{| role := role; content := content |}] else turns
  | Clear sid => if decide (sid = sessionId) then [] else turns
  | Read _ | Count => turns
  end.

(** The turns appended to a session since it was last cleared. *)
Definition sinceClear (sessionId : string) (ops : list op) : list Turn :=
  foldl (record sessionId) [] ops.

(** What one operation does to the set of sessions that exist. *)
Definition touch (live : gset string) (o : op) : gset string :=
  match o with
  | Add sid _ _ | Read sid => {[sid]} ∪ live
  | Clear sid => live ∖ {[sid]}
  | Count => live
  end.

(** The sessions read or written since they were last cleared. *)
Definition liveSessions (ops : list op) : gset string :=
  foldl touch ∅ ops.

(** *** Properties *)

Lemma clearSession_history_eq sessionId sessions :
  history (clearSession sessionId sessions) sessionId = [].
Proof. unfold history, clearSession. by rewrite lookup_delete_eq. Qed.

Lemma clearSession_history_ne sessionId sid sessions :
  sessionId ≠ sid →
  history (clearSession sessionId sessions) sid = history sessions sid.
Proof. intros Hne. unfold history, clearSession. by rewrite lookup_delete_ne. Qed.

Lemma runOps_history ops sessionId :
  history (runOps ops) sessionId =
  lastn MAX_MESSAGES_PER_SESSION (sinceClear sessionId ops).
Proof.
  unfold runOps, sinceClear.
  induction ops as [|o ops IH] using rev_ind; [done|].
  rewrite !foldl_app. cbn [foldl]. destruct o as [sid r c|sid|sid|]; cbn [apply record].
  - destruct (decide (sid = sessionId)) as [->|Hne].
    + rewrite addMessage_history_eq, IH. apply pushShift_lastn.
    + by rewrite addMessage_history_ne.
  - by rewrite getSessionHistory_history.
  - destruct (decide (sid = sessionId)) as [->|Hne].
    + by rewrite clearSession_history_eq.
    + by rewrite clearSession_history_ne.
  - done.
Qed.

Lemma getSessionHistory_dom sessionId (sessions : gmap string (list Turn)) :
  dom (getSessionHistory sessionId sessions).2 = {[sessionId]} ∪ dom sessions.
Proof.
  unfold getSessionHistory; cbn [snd].
  destruct (sessions !! sessionId) as [h|] eqn:E.
  - apply elem_of_dom_2 in E. set_solver.
  - by rewrite dom_insert_L.
Qed.

Lemma addMessage_dom sessionId role content (sessions : gmap string (list Turn)) :
  dom (addMessage sessionId role content sessions) = {[sessionId]} ∪ dom sessions.
Proof.
  unfold addMessage.
  pose proof (getSessionHistory_dom sessionId sessions) as Hd.
  destruct (getSessionHistory sessionId sessions) as [h s']; cbn [snd] in Hd.
  rewrite dom_insert_L, Hd. set_solver.
Qed.

Lemma runOps_dom ops : dom (runOps ops) = liveSessions ops.
Proof.
  unfold runOps, liveSessions.
  induction ops as [|o ops IH] using rev_ind; [apply dom_empty_L|].
  rewrite !foldl_app. cbn [foldl]. destruct o as [sid r c|sid|sid|]; cbn [apply touch].
  - by rewrite addMessage_dom, IH.
  - by rewrite getSessionHistory_dom, IH.
  - unfold clearSession. by rewrite dom_delete_L, IH.
  - done.
Qed.

(** X1. After any sequence of appends, reads, clears and counts on any
    sessions, the history of a session is the last (at most 20) turns
    appended to it since it was last cleared: a clear empties the session,
    and leaves every other session as it is. *)
Theorem history_since_last_clear (ops : list op) (sessionId : string) :
  let h := (getSessionHistory sessionId (runOps ops)).1 in
  h = lastn MAX_MESSAGES_PER_SESSION (sinceClear sessionId ops) ∧
  (length h ≤ MAX_MESSAGES_PER_SESSION)%nat ∧
  (getSessionHistory sessionId (runOps (ops ++ [Clear sessionId]))).1 = [] ∧
  ∀ other, other ≠ sessionId →
    (getSessionHistory sessionId (runOps (ops ++ [Clear other]))).1 = h.
Proof.
  cbv zeta. rewrite !getSessionHistory_fst, runOps_history. split_and!.
  - done.
  - rewrite lastn_length. lia.
  - rewrite runOps_history. unfold sinceClear. rewrite foldl_app. cbn [foldl record].
    by rewrite decide_True.
  - intros other Hne. rewrite getSessionHistory_fst, runOps_history.
    unfold sinceClear. rewrite foldl_app. cbn [foldl record].
    by rewrite decide_False.
Qed.

(** X2. [getSessionCount] counts the sessions that were read or written
    since they were last cleared: reading the history of an unseen session
    creates it and raises the count by one, reading or writing a session
    that exists leaves the count as it is, clearing an existing session
    lowers it by one and clearing an unseen one changes nothing. *)
Theorem session_count_is_live_sessions (ops : list op) (sessionId : string) :
  let sessions := runOps ops in
  getSessionCount sessions = size (liveSessions ops) ∧
  getSessionCount (getSessionHistory sessionId sessions).2 =
    (if decide (sessionId ∈ liveSessions ops)
     then getSessionCount sessions else S (getSessionCount sessions)) ∧
  (∀ role content,
     getSessionCount (addMessage sessionId role content sessions) =
     getSessionCount (getSessionHistory sessionId sessions).2) ∧
  getSessionCount (clearSession sessionId sessions) =
    (if decide (sessionId ∈ liveSessions ops)
     then pred (getSessionCount sessions) else getSessionCount sessions).
Proof.
  cbv zeta. unfold getSessionCount.
  assert (size (getSessionHistory sessionId (runOps ops)).2 =
          size ({[sessionId]} ∪ liveSessions ops)) as Hread
    by (by rewrite <- size_dom, getSessionHistory_dom, runOps_dom).
  split_and!.
  - by rewrite <- size_dom, runOps_dom.
  - rewrite Hread, <- (size_dom (runOps ops)), runOps_dom.
    destruct (decide (sessionId ∈ liveSessions ops)) as [Hin|Hout].
    + f_equal. set_solver.
    + rewrite size_union by set_solver. by rewrite size_singleton.
  - intros role content. by rewrite Hread, <- size_dom, addMessage_dom, runOps_dom.
  - unfold clearSession.
    rewrite <- size_dom, dom_delete_L, <- (size_dom (runOps ops)), runOps_dom.
    destruct (decide (sessionId ∈ liveSessions ops)) as [Hin|Hout].
    + rewrite size_difference by set_solver. by rewrite size_singleton, Nat.sub_1_r.
    + f_equal. set_solver.
Qed.

End Sessions.

(** ** Rate limiter: what a run accepts ([lib/rateLimit.js]) *)

Module RateWindow.

Import RateLimit.

(** The clock value at which something happens. *)
Definition time (e : event) : Z :=
  match e with
  | Request _ now => now
  | Sweep now => now
  end.

(** The clock does not go backwards during a run. *)
Definition monotone (events : list event) : Prop :=
  StronglySorted Z.le (map time events).

(** The timestamp that an event adds to the accepted requests of a key,
    in the state in which it happens. *)
Definition granted (ip : string) (requestCounts : gmap string (list Z))
    (e : event) : list Z :=
  match e with
  | Request ip' now =>
      if decide (ip' = ip)
      then if (isRateLimited ip' now requestCounts).1 then [] else [now]
      else []
  | Sweep _ => []
  end.

(** The timestamps of the requests of a key that a run accepted, in order. *)
Definition accepted (ip : string) (events : list event) : list Z :=
  (foldl (λ acc e, (step acc.1 e, acc.2 ++ granted ip acc.1 e)) (∅, []) events).2.

(** [timestamp] lies in the 60 seconds that end at [t]. *)
Definition inLast60 (t timestamp : Z) : bool :=
  (t - timestamp <? RATE_LIMIT_WINDOW) && (timestamp <=? t).

(** The events that matter for a key: its own requests and the sweeps. *)
Definition concerns (ip : string) (e : event) : bool :=
  match e with
  | Request ip' _ => bool_decide (ip' = ip)
  | Sweep _ => true
  end.

(** The decision on a request as a limiter that never forgets an accepted
    timestamp would take it: [acc] holds every timestamp accepted for the
    key so far. *)
Definition grantedBy (ip : string) (acc : list Z) (e : event) : list Z :=
  match e with
  | Request ip' now =>
      if decide (ip' = ip)
      then if (MAX_REQUESTS_PER_WINDOW <=?
                 length (List.filter (inWindow now) acc))%nat
           then [] else [now]
      else []
  | Sweep _ => []
  end.

(** The timestamps accepted for a key by the limiter that never forgets. *)
Definition replay (ip : string) (events : list event) : list Z :=
  foldl (λ acc e, acc ++ grantedBy ip acc e) [] events.

(** A request of the key [ip]. *)
Definition requestOf (ip : string) (e : event) : bool :=
  match e with
  | Request ip' _ => bool_decide (ip' = ip)
  | Sweep _ => false
  end.

(** *** Properties *)

Lemma accepted_fold ip events :
  foldl (λ acc e, (step acc.1 e, acc.2 ++ granted ip acc.1 e)) (∅, []) events =
  (run events, accepted ip events).
Proof.
  unfold accepted, run.
  induction events as [|e events IH] using rev_ind; [done|].
  rewrite !foldl_app. cbn [foldl]. by rewrite IH.
Qed.

Lemma accepted_snoc ip events e :
  accepted ip (events ++ [e]) = accepted ip events ++ granted ip (run events) e.
Proof.
  unfold accepted at 1. rewrite foldl_app. cbn [foldl].
  by rewrite accepted_fold.
Qed.

Lemma accepted_times ip events a :
  a ∈ accepted ip events → ∃ e, e ∈ events ∧ time e = a.
Proof.
  induction events as [|e events IH] using rev_ind.
  - unfold accepted; simpl. by intros ?%elem_of_nil.
  - rewrite accepted_snoc. intros [Ha|Ha]%elem_of_app.
    + destruct (IH Ha) as (e' & He' & <-). exists e'. split; [|done].
      apply elem_of_app. by left.
    + exists e. split; [apply elem_of_app; right; by left|].
      destruct e as [ip' now|now]; cbn [granted] in Ha.
      * destruct (decide (ip' = ip)); [|by apply elem_of_nil in Ha].
        destruct (isRateLimited ip' now (run events)).1;
          [by apply elem_of_nil in Ha|].
        by apply list_elem_of_singleton in Ha as ->.
      * by apply elem_of_nil in Ha.
Qed.

Lemma monotone_snoc events e :
  monotone (events ++ [e]) →
  monotone events ∧ ∀ e', e' ∈ events → time e' ≤ time e.
Proof.
  unfold monotone. rewrite map_app. intros H.
  apply StronglySorted_app in H as (Hcross & Hs & _). split; [done|].
  intros e' He'. apply Hcross.
  - apply list_elem_of_fmap. by exists e'.
  - simpl. by left.
Qed.

Lemma filter_filter_later (now later : Z) (l : list Z) :
  now ≤ later →
  List.filter (inWindow later) (List.filter (inWindow now) l) =
  List.filter (inWindow later) l.
Proof.
  intros Hle. induction l as [|a l IH]; [done|]. simpl.
  destruct (inWindow now a) eqn:Hn; simpl; rewrite IH; [done|].
  unfold inWindow in *. apply Z.ltb_ge in Hn.
  destruct (Z.ltb_spec (later - a) RATE_LIMIT_WINDOW); [lia|done].
Qed.

Lemma filter_app' {A} (f : A → bool) (l k : list A) :
  List.filter f (l ++ k) = List.filter f l ++ List.filter f k.
Proof. induction l as [|x l IH]; simpl; [done|]. destruct (f x); simpl; by rewrite IH. Qed.

Lemma filter_length_mono {A} (f g : A → bool) (l : list A) :
  Forall (λ x, f x = true → g x = true) l →
  (length (List.filter f l) ≤ length (List.filter g l))%nat.
Proof.
  induction 1 as [|x l Hx _ IH]; simpl; [done|].
  destruct (f x) eqn:Hf.
  - rewrite (Hx eq_refl). simpl. lia.
  - destruct (g x); simpl; lia.
Qed.

Lemma cleanup_stored now requestCounts ip :
  stored (cleanupRateLimitData now requestCounts) ip =
  List.filter (inWindow now) (stored requestCounts ip).
Proof.
  unfold stored, cleanupRateLimitData. rewrite lookup_omap.
  destruct (requestCounts !! ip) as [requests|]; simpl; [|done].
  destruct (List.filter (inWindow now) requests) as [|a l] eqn:E; simpl; done.
Qed.

Lemma cleanup_lookup now requestCounts ip :
  cleanupRateLimitData now requestCounts !! ip =
  match List.filter (inWindow now) (stored requestCounts ip) with
  | [] => None
  | requests => Some requests
  end.
Proof.
  unfold stored, cleanupRateLimitData. rewrite lookup_omap.
  destruct (requestCounts !! ip) as [requests|]; simpl; [|done].
  by destruct (List.filter (inWindow now) requests).
Qed.

Lemma isRateLimited_stored_eq ip now requestCounts :
  stored (isRateLimited ip now requestCounts).2 ip =
  if (isRateLimited ip now requestCounts).1
  then stored requestCounts ip
  else List.filter (inWindow now) (stored requestCounts ip) ++ [now].
Proof.
  rewrite isRateLimited_eq; cbv zeta.
  destruct (MAX_REQUESTS_PER_WINDOW <=? _)%nat; simpl; [done|].
  unfold stored at 1. by rewrite lookup_insert_eq.
Qed.

Lemma isRateLimited_stored_ne ip ip' now requestCounts :
  ip ≠ ip' →
  stored (isRateLimited ip now requestCounts).2 ip' = stored requestCounts ip'.
Proof.
  intros Hne. rewrite isRateLimited_eq; cbv zeta.
  destruct (MAX_REQUESTS_PER_WINDOW <=? _)%nat; simpl; [done|].
  unfold stored. by rewrite lookup_insert_ne.
Qed.

Lemma isRateLimited_answer ip now requestCounts :
  (isRateLimited ip now requestCounts).1 =
  (MAX_REQUESTS_PER_WINDOW <=?
     length (List.filter (inWindow now) (stored requestCounts ip)))%nat.
Proof.
  rewrite isRateLimited_eq; cbv zeta.
  by destruct (MAX_REQUESTS_PER_WINDOW <=? _)%nat.
Qed.

(** What is stored for a key is what was accepted for it, up to entries
    that have left the window of every present or future clock value. *)
Lemma stored_accepted ip events :
  monotone events →
  ∀ T, (∀ e, e ∈ events → time e ≤ T) →
    List.filter (inWindow T) (stored (run events) ip) =
    List.filter (inWindow T) (accepted ip events).
Proof.
  induction events as [|e events IH] using rev_ind; intros Hmono T HT; [done|].
  apply monotone_snoc in Hmono as [Hmono Hbefore].
  assert (time e ≤ T) as HeT by (apply HT, elem_of_app; right; by left).
  assert (∀ e', e' ∈ events → time e' ≤ T) as HT'
    by (intros e' He'; apply HT, elem_of_app; by left).
  rewrite run_request_or_sweep, accepted_snoc, filter_app'.
  destruct e as [ip' now|now]; cbn [step granted time] in *.
  - destruct (decide (ip' = ip)) as [->|Hne].
    + rewrite isRateLimited_stored_eq.
      destruct (isRateLimited ip now (run events)).1.
      * simpl. rewrite app_nil_r. by apply IH.
      * rewrite filter_app', filter_filter_later by done. f_equal. by apply IH.
    + rewrite isRateLimited_stored_ne by done. simpl. rewrite app_nil_r. by apply IH.
  - rewrite cleanup_stored, filter_filter_later by done. simpl.
    rewrite app_nil_r. by apply IH.
Qed.

(** Of the requests that a run accepted for a key, at most
    [MAX_REQUESTS_PER_WINDOW] lie in any 60 seconds. *)
Lemma accepted_window_bound (events : list event) (ip : string) (t : Z) :
  monotone events →
  (length (List.filter (inLast60 t) (accepted ip events))
     ≤ MAX_REQUESTS_PER_WINDOW)%nat.
Proof.
  revert t. induction events as [|e events IH] using rev_ind; intros t Hmono.
  - unfold accepted; simpl. lia.
  - pose proof (stored_accepted ip events) as Hst.
    apply monotone_snoc in Hmono as [Hmono Hbefore].
    specialize (IH t Hmono). rewrite accepted_snoc, filter_app', length_app.
    destruct e as [ip' now|now]; cbn [granted time] in *; [|simpl; lia].
    destruct (decide (ip' = ip)) as [->|Hne]; [|simpl; lia].
    destruct (isRateLimited ip now (run events)).1 eqn:Hans; [simpl; lia|].
    rewrite isRateLimited_answer, (Hst Hmono now Hbefore) in Hans.
    apply Nat.leb_gt in Hans.
    cbn [List.filter]. unfold inLast60 at 2.
    destruct (Z.leb_spec now t) as [Hle|Hgt];
      [|rewrite andb_false_r; simpl; lia].
    assert (length (List.filter (inLast60 t) (accepted ip events))
            ≤ length (List.filter (inWindow now) (accepted ip events)))%nat as Hmon.
    { apply filter_length_mono, Forall_forall. intros a Ha.
      unfold inLast60, inWindow. intros [H1 _]%andb_true_iff.
      apply Z.ltb_lt in H1. apply Z.ltb_lt. lia. }
    destruct (_ && true); simpl; lia.
Qed.

(** X3. When the clock does not go backwards, the requests of a key that
    a run accepts number at most 60 in any 60 seconds, whatever the other
    keys do and whenever the sweep runs. *)
Theorem at_most_60_accepted_per_window (events : list event) (ip : string) (t : Z) :
  monotone events →
  (length (List.filter (inLast60 t) (accepted ip events))
     ≤ MAX_REQUESTS_PER_WINDOW)%nat.
Proof. apply accepted_window_bound. Qed.

(** A burst of 61 requests in one second, then a sweep and a request a
    minute later: 60 of the burst are accepted. *)
Lemma at_most_60_accepted_per_window_witness :
  let events :=
    map (λ k, Request "203.0.113.7" (1000 + Z.of_nat k)) (seq 0 61)
    ++ [Sweep 30000; Request "203.0.113.7" 61000] in
  monotone events ∧
  length (accepted "203.0.113.7" events) = 61%nat ∧
  (length (List.filter (inLast60 2000) (accepted "203.0.113.7" events)) ≤ 60)%nat.
Proof.
  cbv zeta.
  set (events := map (λ k, Request "203.0.113.7" (1000 + Z.of_nat k)) (seq 0 61)
                 ++ [Sweep 30000; Request "203.0.113.7" 61000]).
  assert (monotone events) as Hmono.
  { unfold monotone. apply Sorted.Sorted_StronglySorted; [intros x y z; lia|].
    vm_compute. repeat constructor; discriminate. }
  split; [exact Hmono|]. split; [by vm_compute|].
  exact (at_most_60_accepted_per_window events "203.0.113.7" 2000 Hmono).
Defined.

Lemma granted_by_accepted ip events e :
  monotone (events ++ [e]) →
  granted ip (run events) e = grantedBy ip (accepted ip events) e.
Proof.
  intros [Hmono Hbefore]%monotone_snoc.
  destruct e as [ip' now|now]; cbn [granted grantedBy time] in *; [|done].
  destruct (decide (ip' = ip)) as [->|]; [|done].
  by rewrite isRateLimited_answer, (stored_accepted ip events Hmono now Hbefore).
Qed.

Lemma monotone_filter (f : event → bool) events :
  monotone events → monotone (List.filter f events).
Proof.
  unfold monotone. induction events as [|e events IH]; simpl; [done|].
  intros [Hall Hs]%StronglySorted_cons. destruct (f e); simpl; [|by apply IH].
  apply StronglySorted_cons. split; [|by apply IH].
  rewrite Forall_forall in Hall. apply Forall_forall.
  intros t (e' & -> & He')%list_elem_of_fmap. apply Hall.
  apply list_elem_of_fmap. exists e'. split; [done|].
  apply list_elem_of_In. apply list_elem_of_In in He'.
  by apply filter_In in He' as [? _].
Qed.

Lemma accepted_replay ip events :
  monotone events → accepted ip events = replay ip events.
Proof.
  unfold replay.
  induction events as [|e events IH] using rev_ind; intros Hmono; [done|].
  rewrite accepted_snoc, foldl_app. cbn [foldl].
  rewrite (granted_by_accepted _ _ _ Hmono).
  apply monotone_snoc in Hmono as [Hmono _]. by rewrite IH.
Qed.

Lemma replay_own ip events :
  replay ip events = replay ip (List.filter (requestOf ip) events).
Proof.
  unfold replay.
  induction events as [|e events IH] using rev_ind; [done|].
  rewrite filter_app', !foldl_app. cbn [foldl List.filter].
  destruct e as [ip' now|now]; cbn [requestOf].
  - destruct (decide (ip' = ip)) as [->|Hne].
    + rewrite bool_decide_eq_true_2 by done. cbn [foldl]. by rewrite IH.
    + rewrite bool_decide_eq_false_2 by done. cbn [foldl grantedBy].
      rewrite decide_False by done. by rewrite app_nil_r.
  - cbn [foldl grantedBy]. by rewrite app_nil_r.
Qed.

(** X4. When the clock does not go backwards, a request is rejected
    exactly when at least 60 earlier requests of the same key were
    accepted less than 60 seconds before it. *)
Theorem rejected_iff_60_accepted_in_window (events : list event) (ip : string)
    (now : Z) :
  monotone (events ++ [Request ip now]) →
  (isRateLimited ip now (run events)).1 = true ↔
  (MAX_REQUESTS_PER_WINDOW
     ≤ length (List.filter (inLast60 now) (accepted ip events)))%nat.
Proof.
  intros [Hmono Hbefore]%monotone_snoc. cbn [time] in Hbefore.
  rewrite isRateLimited_answer, (stored_accepted ip events Hmono now Hbefore).
  assert (List.filter (inLast60 now) (accepted ip events) =
          List.filter (inWindow now) (accepted ip events)) as ->.
  { apply filter_ext_in. intros a Ha. unfold inLast60.
    apply list_elem_of_In, accepted_times in Ha as (e & He & <-).
    specialize (Hbefore e He). destruct (Z.leb_spec (time e) now); [|lia].
    by rewrite andb_true_r. }
  apply Nat.leb_le.
Qed.

(** Sixty requests in one minute: the next one, half a second later, is
    rejected. *)
Lemma rejected_iff_60_accepted_in_window_witness :
  let events := map (λ k, Request "203.0.113.7" (1000 * Z.of_nat k)) (seq 1 60) in
  monotone (events ++ [Request "203.0.113.7" 60500]) ∧
  (isRateLimited "203.0.113.7" 60500 (run events)).1 = true.
Proof.
  cbv zeta.
  set (events := map (λ k, Request "203.0.113.7" (1000 * Z.of_nat k)) (seq 1 60)).
  assert (monotone (events ++ [Request "203.0.113.7" 60500])) as Hmono.
  { unfold monotone. apply Sorted.Sorted_StronglySorted; [intros x y z; lia|].
    vm_compute. repeat constructor; discriminate. }
  split; [exact Hmono|].
  apply (rejected_iff_60_accepted_in_window events "203.0.113.7" 60500 Hmono).
  apply Nat.leb_le. vm_compute. reflexivity.
Defined.

(** X5. When the clock does not go backwards, the limiter accepts exactly
    the requests that a limiter keeping every accepted timestamp for ever
    would accept: dropping expired timestamps, in a check or in the
    periodic sweep, changes no decision; and the decisions for a key are
    those of a run made of that key's requests alone. *)
Theorem pruning_changes_no_decision (events : list event) (ip : string) :
  monotone events →
  accepted ip events = replay ip events ∧
  accepted ip events = accepted ip (List.filter (requestOf ip) events).
Proof.
  intros Hmono. split; [by apply accepted_replay|].
  rewrite !accepted_replay by (done || by apply monotone_filter).
  apply replay_own.
Qed.

(** Two clients and a sweep between their requests. *)
Lemma pruning_changes_no_decision_witness :
  let events :=
    [Request "a" 0; Request "b" 10; Sweep 70000; Request "a" 70001;
     Request "b" 70002] in
  monotone events ∧
  accepted "a" events = accepted "a" [Request "a" 0; Request "a" 70001].
Proof.
  cbv zeta.
  assert (monotone [Request "a" 0; Request "b" 10; Sweep 70000;
                    Request "a" 70001; Request "b" 70002]) as Hmono.
  { unfold monotone. apply Sorted.Sorted_StronglySorted; [intros x y z; lia|].
    vm_compute. repeat constructor; discriminate. }
  split; [exact Hmono|].
  exact (proj2 (pruning_changes_no_decision _ "a" Hmono)).
Defined.

(** X6. Whatever the clock does, what is stored for a key, and so every
    decision on it, depends only on that key's requests and on the sweeps:
    the requests of other keys can be left out of the run. *)
Theorem keys_are_independent (events : list event) (ip : string) :
  stored (run events) ip = stored (run (List.filter (concerns ip) events)) ip ∧
  ∀ now, (isRateLimited ip now (run events)).1 =
         (isRateLimited ip now (run (List.filter (concerns ip) events))).1.
Proof.
  assert (stored (run events) ip =
          stored (run (List.filter (concerns ip) events)) ip) as Hst.
  { induction events as [|e events IH] using rev_ind; [done|].
    rewrite filter_app', run_request_or_sweep. cbn [List.filter].
    destruct e as [ip' now|now]; cbn [concerns step].
    - destruct (decide (ip' = ip)) as [->|Hne].
      + rewrite bool_decide_eq_true_2 by done.
        rewrite run_request_or_sweep. cbn [step].
        by rewrite !isRateLimited_stored_eq, !isRateLimited_answer, IH.
      + rewrite bool_decide_eq_false_2 by done.
        by rewrite app_nil_r, isRateLimited_stored_ne.
    - rewrite run_request_or_sweep. cbn [step]. by rewrite !cleanup_stored, IH. }
  split; [done|]. intros now. by rewrite !isRateLimited_answer, Hst.
Qed.

(** X7. The sweep keeps, for every key, exactly the timestamps that are
    still in the window: it never drops one that is, it leaves no key with
    an empty list, and sweeping twice at the same time is sweeping once. *)
Theorem sweep_keeps_the_window (now : Z) (requestCounts : gmap string (list Z)) :
  (∀ ip, stored (cleanupRateLimitData now requestCounts) ip =
         List.filter (inWindow now) (stored requestCounts ip)) ∧
  (∀ ip timestamp, timestamp ∈ stored requestCounts ip →
     inWindow now timestamp = true →
     timestamp ∈ stored (cleanupRateLimitData now requestCounts) ip) ∧
  (∀ ip requests, cleanupRateLimitData now requestCounts !! ip = Some requests →
     requests ≠ [] ∧ Forall (λ timestamp, inWindow now timestamp = true) requests) ∧
  cleanupRateLimitData now (cleanupRateLimitData now requestCounts) =
    cleanupRateLimitData now requestCounts.
Proof.
  split_and!.
  - intros ip. apply cleanup_stored.
  - intros ip a Ha Hin. rewrite cleanup_stored.
    apply list_elem_of_In, filter_In. split; [by apply list_elem_of_In|done].
  - intros ip requests. rewrite cleanup_lookup.
    destruct (List.filter (inWindow now) (stored requestCounts ip))
      as [|a l] eqn:E; [done|].
    intros [= <-]. split; [done|]. rewrite <- E.
    apply Forall_forall. intros x Hx.
    by apply list_elem_of_In, filter_In in Hx as [_ ?].
  - apply map_eq. intros ip.
    by rewrite !cleanup_lookup, cleanup_stored, filter_filter_later.
Qed.

End RateWindow.

(** ** Chunker: edge cases and reassembly ([chunkText]) *)

Module ChunkerEdge.

Import Chunker.

(** The text that the chunks give back when the overlap is dropped: the
    first [step] characters of every chunk, joined. *)
Definition reassemble (step : Z) (chunks : list string) : string :=
  String.concat "" (map (substring 0 (Z.to_nat step)) chunks).

(** *** Properties *)

Lemma chars_substring n m (s : string) :
  list_ascii_of_string (substring n m s) =
  take m (drop n (list_ascii_of_string s)).
Proof.
  revert n m. induction s as [|c s IH]; intros n m.
  - destruct n, m; simpl; by rewrite ?take_nil.
  - destruct n as [|n]; [destruct m as [|m]|]; simpl; [done| |apply IH].
    f_equal. apply (IH 0%nat).
Qed.

Lemma chars_app (s1 s2 : string) :
  list_ascii_of_string (s1 +:+ s2) =
  list_ascii_of_string s1 ++ list_ascii_of_string s2.
Proof. induction s1 as [|c s1 IH]; simpl; [done|]. by rewrite IH. Qed.

Lemma chars_length (s : string) :
  length (list_ascii_of_string s) = String.length s.
Proof. induction s as [|c s IH]; simpl; [done|]. by rewrite IH. Qed.

Lemma chars_inj (s1 s2 : string) :
  list_ascii_of_string s1 = list_ascii_of_string s2 → s1 = s2.
Proof.
  intros H. rewrite <- (string_of_list_ascii_of_string s1),
              <- (string_of_list_ascii_of_string s2). by rewrite H.
Qed.

Lemma chars_concat_empty (l : list string) :
  list_ascii_of_string (String.concat "" l) =
  concat (map list_ascii_of_string l).
Proof.
  induction l as [|x l IH]; [done|].
  destruct l as [|y l].
  - simpl. by rewrite app_nil_r.
  - change (String.concat "" (x :: y :: l))
      with (x +:+ String.concat "" (y :: l))%string.
    by rewrite chars_app, IH.
Qed.

Lemma slice_chars text start m :
  0 ≤ start → 0 ≤ m →
  list_ascii_of_string (slice text start (start + m)) =
  take (Z.to_nat m) (drop (Z.to_nat start) (list_ascii_of_string text)).
Proof.
  intros Hs Hm. unfold slice; cbv zeta. rewrite chars_substring.
  pose proof (chars_length text) as Hlen.
  set (l := list_ascii_of_string text) in *.
  destruct (Z.ltb_spec start 0); [lia|].
  destruct (Z.ltb_spec (start + m) 0); [lia|].
  destruct (Z.le_gt_cases start (Z.of_nat (String.length text))) as [Hle|Hgt].
  - rewrite (Z.min_l start) by done.
    destruct (Z.le_gt_cases (start + m) (Z.of_nat (String.length text))).
    + rewrite Z.min_l by done. do 2 f_equal. lia.
    + rewrite Z.min_r by lia.
      rewrite !take_ge; [done|rewrite length_drop; lia|rewrite length_drop; lia].
  - rewrite !Z.min_r by lia. rewrite !drop_ge by lia. by rewrite !take_nil.
Qed.

(** Consecutive pieces of [step] characters make up the list. *)
Lemma pieces_concat {A} (l : list A) (step : nat) :
  (0 < step)%nat →
  ∀ n, concat (map (λ k, take step (drop (k * step) l)) (seq 0 n)) =
       take (n * step) l.
Proof.
  intros Hstep. induction n as [|n IH]; [done|].
  rewrite seq_S, map_app, concat_app, IH. simpl. rewrite app_nil_r.
  rewrite take_take_drop. f_equal. lia.
Qed.

Lemma windowCount_one len step :
  0 < len ≤ step → windowCount len step = 1%nat.
Proof.
  intros H. unfold windowCount.
  assert ((len + step - 1) / step = 1) as ->; [|done].
  symmetry. apply Z.div_unique with (len - 1); lia.
Qed.

(** X8. Edge cases of [chunkText]: an empty text gives no chunk, whatever
    the sizes; a text no longer than both the chunk size and the step
    [chunkSize - overlap] gives one chunk, the text itself; and when the
    overlap is not smaller than the chunk size the loop, on a text that is
    not empty, never ends (no amount of fuel reaches its exit). *)
Theorem chunkText_edge_cases (text : string) (chunkSize overlap : Z) :
  let len := Z.of_nat (String.length text) in
  (text = ""%string → chunkText text chunkSize overlap = Some []) ∧
  (0 < len → len ≤ chunkSize → len ≤ chunkSize - overlap →
     chunkText text chunkSize overlap = Some [text]) ∧
  (0 < len → chunkSize ≤ overlap →
     chunkText text chunkSize overlap = None ∧
     ∀ fuel, chunkLoop fuel text chunkSize overlap 0 [] = None).
Proof.
  cbv zeta. split_and!.
  - by intros ->.
  - intros Hpos Hsize Hstep. rewrite chunkText_eq by lia.
    rewrite windowCount_one by lia. unfold windows. cbn [seq map].
    do 2 f_equal. apply chars_inj.
    rewrite (slice_chars text (Z.of_nat 0 * (chunkSize - overlap)) chunkSize) by lia.
    change (Z.to_nat (Z.of_nat 0 * (chunkSize - overlap))) with 0%nat.
    rewrite drop_0, take_ge; [done|]. rewrite chars_length. lia.
  - intros Hpos Hstep. split; [|intros fuel]; apply chunkLoop_stuck; lia.
Qed.

(** A short text; and a text cut with an overlap equal to the chunk size. *)
Lemma chunkText_edge_cases_witness :
  chunkText "hello" 800 200 = Some ["hello"%string] ∧
  chunkText "hello" 3 3 = None.
Proof.
  destruct (chunkText_edge_cases "hello" 800 200) as (_ & Hone & _).
  destruct (chunkText_edge_cases "hello" 3 3) as (_ & _ & Hnone).
  split.
  - apply Hone; simpl; lia.
  - apply Hnone; simpl; lia.
Defined.

(** X9. For [0 <= overlap < chunkSize] nothing of the text is lost and
    nothing is added: the first [chunkSize - overlap] characters of every
    chunk, joined in order, are the text. *)
Theorem chunks_reassemble_to_text (text : string) (chunkSize overlap : Z)
    (chunks : list string) :
  0 ≤ overlap < chunkSize →
  chunkText text chunkSize overlap = Some chunks →
  reassemble (chunkSize - overlap) chunks = text.
Proof.
  intros Hov. rewrite chunkText_eq by lia. intros [= <-].
  set (step := chunkSize - overlap).
  set (n := windowCount (Z.of_nat (String.length text)) step).
  assert (0 < step) as Hstep by (unfold step; lia).
  apply chars_inj. unfold reassemble, windows.
  rewrite chars_concat_empty, !map_map.
  rewrite (map_ext _ (λ k, take (Z.to_nat step)
                             (drop (k * Z.to_nat step) (list_ascii_of_string text)))).
  - rewrite pieces_concat by lia. apply take_ge. rewrite chars_length.
    destruct (windowCount_itersLeft (Z.of_nat (String.length text)) step
                ltac:(lia) Hstep) as [Hend _].
    fold n in Hend. nia.
  - intros k. rewrite chars_substring, drop_0.
    rewrite (slice_chars text (Z.of_nat k * step) chunkSize) by lia.
    rewrite take_take. f_equal; [unfold step; lia|]. f_equal. nia.
Qed.

(** A text of ten characters cut with [chunkSize = 4] and [overlap = 1]. *)
Lemma chunks_reassemble_to_text_witness :
  0 ≤ 1 < 4 ∧
  chunkText "abcdefghij" 4 1 = Some ["abcd"; "defg"; "ghij"; "j"]%string ∧
  reassemble (4 - 1) ["abcd"; "defg"; "ghij"; "j"]%string = "abcdefghij"%string.
Proof.
  assert (0 ≤ 1 < 4) as H by lia.
  split; [exact H|]. split; [reflexivity|].
  exact (chunks_reassemble_to_text "abcdefghij" 4 1 _ H eq_refl).
Defined.

End ChunkerEdge.

(** ** The embedding store: requests, entries, empty corpus
    ([initializeEmbeddings], [getEmbeddings]) *)

Module EmbeddingStore.

Import Embeddings.

(** The state with another world: what is on disk or at the service has
    changed, the module variables have not. *)
Definition withWorld {World : Type} (st : State (World := World)) (w : World)
    : State (World := World) :=
  {| embeddingsCache := embeddingsCache st; world := w; requests := requests st |}.

(** *** Properties *)

Lemma slice_substring text start m :
  0 ≤ start → 0 ≤ m →
  Chunker.slice text start (start + m) =
  substring (Z.to_nat start) (Z.to_nat m) text.
Proof.
  intros Hs Hm. apply ChunkerEdge.chars_inj.
  by rewrite ChunkerEdge.slice_chars, ChunkerEdge.chars_substring.
Qed.

(** Every document chunk is a window of 800 characters of one of the
    files, taken at a multiple of 600 inside the content. *)
Lemma documentChunks_elem (dataFiles : list File) (chunk : Chunk) :
  chunk ∈ documentChunks dataFiles →
  ∃ file k,
    file ∈ dataFiles ∧
    chunk_source chunk = filename file ∧
    (600 * k < String.length (content file))%nat ∧
    chunk_text chunk = substring (600 * k) 800 (content file).
Proof.
  unfold documentChunks. rewrite list_elem_of_In, in_flat_map.
  intros (file & Hfile & Hin). apply list_elem_of_In in Hfile.
  apply list_elem_of_In, list_elem_of_fmap in Hin as (t & -> & Ht).
  unfold Chunker.windows in Ht.
  apply list_elem_of_fmap in Ht as (k & -> & Hk).
  apply elem_of_seq in Hk as [_ Hk]. simpl in Hk.
  exists file, k. split_and!; [done..| |].
  - destruct (Chunker.windowCount_itersLeft
                (Z.of_nat (String.length (content file))) 600
                ltac:(lia) ltac:(lia)) as [_ [Hz|Hlast]]; lia.
  - cbn [chunk_text]. rewrite slice_substring by lia. f_equal; lia.
Qed.

Lemma documentChunks_empty (dataFiles : list File) :
  Forall (λ file, content file = ""%string) dataFiles →
  documentChunks dataFiles = [].
Proof.
  unfold documentChunks. induction 1 as [|file dataFiles Hfile _ IH]; [done|].
  cbn [flat_map]. rewrite IH, Hfile. done.
Qed.

Lemma batches_lookup_length (allChunks : list Chunk) (batchSize j : nat)
    (texts : list string) :
  (0 < batchSize)%nat →
  batches allChunks batchSize !! j = Some texts →
  (0 < length texts ≤ batchSize)%nat ∧
  ((S j < length (batches allChunks batchSize))%nat → length texts = batchSize) ∧
  ∀ t, t ∈ texts → ∃ chunk, chunk ∈ allChunks ∧ chunk_text chunk = t.
Proof.
  intros Hb Hj. unfold batches in *.
  assert (j < batchCount (length allChunks) batchSize)%nat as Hjr.
  { apply lookup_lt_Some in Hj. by rewrite batchesFrom_length in Hj. }
  rewrite batchesFrom_lookup in Hj by done. injection Hj as <-. simpl.
  rewrite batchesFrom_length, length_map, length_take, length_drop.
  destruct (batchCount_batchesLeft (length allChunks) batchSize Hb)
    as [Hend [Hz|Hlast]]; [lia|].
  split_and!; [nia|nia|nia|].
  intros t (chunk & -> & Hin)%list_elem_of_fmap. exists chunk. split; [|done].
  apply list_elem_of_lookup in Hin as [i Hi].
  apply lookup_take_Some in Hi as [Hi _]. rewrite lookup_drop in Hi.
  apply list_elem_of_lookup. by eexists.
Qed.

Section StoreInvariants.

Context {World Error : Type}.
Variable embed : World → list string → World * (Error + list vector).
Variable loadDataFiles : World → list File.

(** What a call of [initializeEmbeddings] sends: nothing on a populated
    cache, a prefix of the batches otherwise. *)
Lemma initializeEmbeddings_requests (st : State (World := World)) :
  ∃ sent,
    requests (initializeEmbeddings embed loadDataFiles st).2 = requests st ++ sent ∧
    sent `prefix_of` batches (documentChunks (loadDataFiles (world st))) 100 ∧
    (is_Some (embeddingsCache st) → sent = []).
Proof.
  unfold initializeEmbeddings.
  destruct (embeddingsCache st) as [cache|] eqn:Hc.
  - exists []. rewrite (initializeEmbeddingsWith_cached _ _ _ _ _ Hc). simpl.
    rewrite app_nil_r. split_and!; [done|apply prefix_nil|done].
  - rewrite initializeEmbeddingsWith_eq by (done || lia). cbv zeta.
    destruct (embedAll embed _ _) as [[w sent] [error|responses]] eqn:Hall;
      exists sent; simpl; (split_and!; [done| |by intros [? ?]]).
    + by destruct (embedAll_failure _ _ _ _ _ _ Hall).
    + by destruct (embedAll_success _ _ _ _ _ _ Hall) as [-> _].
Qed.

(** How a call of [initializeEmbeddings] ends: it returns what it leaves
    in the cache, or it throws and the cache, which was empty, stays so. *)
Lemma initializeEmbeddings_outcome (st : State (World := World)) :
  match initializeEmbeddings embed loadDataFiles st with
  | (Returned _ cache, st') =>
      embeddingsCache st' = Some cache ∧
      (∀ c, embeddingsCache st = Some c → c = cache)
  | (Thrown _ _, st') => embeddingsCache st = None ∧ embeddingsCache st' = None
  | (OutOfFuel _, _) => False
  end.
Proof.
  unfold initializeEmbeddings.
  destruct (embeddingsCache st) as [cache|] eqn:Hc.
  - rewrite (initializeEmbeddingsWith_cached _ _ _ _ _ Hc).
    split; [done|]. by intros c [= ->].
  - rewrite initializeEmbeddingsWith_eq by (done || lia). cbv zeta.
    by destruct (embedAll embed _ _) as [[w sent] [error|responses]].
Qed.

(** X10. [getEmbeddings] and [initializeEmbeddings] are the same
    operation in every state: the same result or the same error, the same
    requests, the same cache afterwards.  What they return is the cache
    they leave, never [null]. *)
Theorem getEmbeddings_is_initializeEmbeddings (st : State (World := World)) :
  getEmbeddings embed loadDataFiles st = initializeEmbeddings embed loadDataFiles st ∧
  ∀ cache st',
    getEmbeddings embed loadDataFiles st = (Returned _ cache, st') →
    embeddingsCache st' = Some cache.
Proof.
  assert (getEmbeddings embed loadDataFiles st
          = initializeEmbeddings embed loadDataFiles st) as Heq.
  { unfold getEmbeddings, initializeEmbeddings.
    destruct (embeddingsCache st) as [cache|] eqn:Hc.
    - by rewrite (initializeEmbeddingsWith_cached _ _ _ _ _ Hc).
    - unfold bind. rewrite initializeEmbeddingsWith_eq by (done || lia). cbv zeta.
      by destruct (embedAll embed _ _) as [[w sent] [error|responses]]. }
  split; [done|]. rewrite Heq. intros cache st' Hcall.
  unfold initializeEmbeddings in Hcall.
  destruct (embeddingsCache st) as [cached|] eqn:Hc.
  - rewrite (initializeEmbeddingsWith_cached _ _ _ _ _ Hc) in Hcall.
    by injection Hcall as <- <-.
  - rewrite initializeEmbeddingsWith_eq in Hcall by (done || lia). cbv zeta in Hcall.
    destruct (embedAll embed _ _) as [[w sent] [error|responses]]; [done|].
    by injection Hcall as <- <-.
Qed.

(** X11. Every request that [initializeEmbeddings] makes carries between
    1 and 100 texts, each of them a document chunk of 1 to 800 characters;
    the requests are the first batches of the chunks, in order, and there
    are at most [ceil(chunks / 100)] of them.  On a populated cache, and
    when the files give no chunk, no request is made. *)
Theorem requests_carry_1_to_100_chunks (st : State (World := World)) :
  let allChunks := documentChunks (loadDataFiles (world st)) in
  ∃ sent,
    requests (initializeEmbeddings embed loadDataFiles st).2 = requests st ++ sent ∧
    sent `prefix_of` batches allChunks 100 ∧
    (length sent ≤ batchCount (length allChunks) 100)%nat ∧
    Forall (λ texts,
              (0 < length texts ≤ 100)%nat ∧
              Forall (λ t, (0 < String.length t ≤ 800)%nat) texts) sent ∧
    (is_Some (embeddingsCache st) → sent = []) ∧
    (allChunks = [] → sent = []).
Proof.
  cbv zeta. destruct (initializeEmbeddings_requests st) as (sent & Hreq & Hpre & Hcached).
  exists sent. split_and!; [done..| | |done|].
  - apply prefix_length in Hpre. unfold batches in Hpre.
    by rewrite batchesFrom_length in Hpre.
  - apply Forall_lookup. intros j texts Hj.
    assert (batches (documentChunks (loadDataFiles (world st))) 100 !! j = Some texts)
      as Hb by (by apply (prefix_lookup_Some sent)).
    destruct (batches_lookup_length _ 100 j texts ltac:(lia) Hb) as (Hlen & _ & Hfrom).
    split; [done|]. apply Forall_forall. intros t Ht.
    destruct (Hfrom t Ht) as (chunk & Hchunk & <-).
    destruct (documentChunks_elem _ _ Hchunk) as (file & k & _ & _ & Hk & ->).
    rewrite Chunker.length_substring. lia.
  - intros Hnil. rewrite Hnil in Hpre. by apply prefix_nil_inv in Hpre.
Qed.

(** X12. Every entry of a store that [initializeEmbeddings] has built is
    a window of one of the files loaded: its source is the file's name and
    its text the 800 characters of the content from a multiple of 600 on
    (fewer at the end of the content), never the empty text. *)
Theorem stored_entries_are_file_windows (st st' : State (World := World))
    (cache : list EmbeddedChunk) :
  embeddingsCache st = None →
  initializeEmbeddings embed loadDataFiles st = (Returned _ cache, st') →
  Forall (λ item,
            ∃ file k,
              file ∈ loadDataFiles (world st) ∧
              source item = filename file ∧
              (600 * k < String.length (content file))%nat ∧
              text item = substring (600 * k) 800 (content file) ∧
              (0 < String.length (text item) ≤ 800)%nat)
         cache.
Proof.
  intros Hnull. unfold initializeEmbeddings.
  rewrite initializeEmbeddingsWith_eq by (done || lia). cbv zeta.
  destruct (embedAll embed _ _) as [[w sent] [error|responses]]; [done|].
  intros [= <- <-]. apply Forall_lookup. intros i item Hi.
  rewrite combine_lookup in Hi.
  destruct (documentChunks (loadDataFiles (world st)) !! i) as [chunk|] eqn:Hchunk;
    [|done].
  injection Hi as <-. cbn [text source].
  destruct (documentChunks_elem (loadDataFiles (world st)) chunk)
    as (file & k & Hfile & Hsrc & Hk & Htext).
  { apply list_elem_of_lookup. by eexists. }
  exists file, k. split_and!; [done..| |]; rewrite Htext, Chunker.length_substring; lia.
Qed.

(** X13. When the files give no chunk (no file, or files that are all
    empty) [initializeEmbeddings] makes no request and caches the empty
    store; being an array, the empty store counts as initialised, so every
    later call returns it without reading the files again, whatever they
    hold by then. *)
Theorem empty_corpus_is_cached_for_good (st : State (World := World)) :
  embeddingsCache st = None →
  Forall (λ file, content file = ""%string) (loadDataFiles (world st)) →
  let st' := (initializeEmbeddings embed loadDataFiles st).2 in
  initializeEmbeddings embed loadDataFiles st = (Returned _ [], st') ∧
  embeddingsCache st' = Some [] ∧
  requests st' = requests st ∧
  ∀ w, initializeEmbeddings embed loadDataFiles (withWorld st' w)
       = (Returned _ [], withWorld st' w).
Proof.
  intros Hnull Hempty. cbv zeta. unfold initializeEmbeddings.
  rewrite initializeEmbeddingsWith_eq by (done || lia). cbv zeta.
  rewrite (documentChunks_empty _ Hempty).
  change (batches [] 100) with (@nil (list string)). cbn [embedAll].
  cbn [snd after embeddingsCache requests]. rewrite app_nil_r.
  split_and!; [done..|]. intros w.
  by apply initializeEmbeddingsWith_cached.
Qed.

End StoreInvariants.

(** An empty cache and a data directory whose files are empty. *)
Lemma empty_corpus_is_cached_for_good_witness :
  initializeEmbeddings demoEmbed (λ _, [ {| filename := "a.txt"; content := "" |} ])
                       (demoState 0)
  = (Returned _ [],
     {| embeddingsCache := Some []; world := 0%nat; requests := [] |}).
Proof.
  destruct (empty_corpus_is_cached_for_good demoEmbed
              (λ _, [ {| filename := "a.txt"%string; content := ""%string |} ])
              (demoState 0) eq_refl) as (Hcall & _).
  - by repeat constructor.
  - exact Hcall.
Defined.

(** The demonstration files: three chunks, each a whole file. *)
Lemma stored_entries_are_file_windows_witness :
  Forall (λ item,
            ∃ file k,
              file ∈ demoFiles 0 ∧
              source item = filename file ∧
              (600 * k < String.length (content file))%nat ∧
              text item = substring (600 * k) 800 (content file) ∧
              (0 < String.length (text item) ≤ 800)%nat)
         (combine (documentChunks (demoFiles 0))
                  [repeat 1%float 5; repeat 1%float 4; repeat 1%float 5]).
Proof.
  apply (stored_entries_are_file_windows demoEmbed demoFiles (demoState 0)
           (initializeEmbeddings demoEmbed demoFiles (demoState 0)).2).
  - reflexivity.
  - vm_compute. reflexivity.
Defined.

End EmbeddingStore.

(** ** Reading the data directory ([loadDataFiles]) *)

Module DataFiles.

Import Embeddings.

(** The data directory as [fs] shows it: [readdirSync] lists the entries
    or throws, [readFileSync] gives the content of an entry or throws
    ([None] for a call that throws). *)
Record Directory := {
  readdirSync : option (list string);
  readFileSync : string → option string
}.

(** [String.prototype.endsWith] *)
Definition endsWith (s searchString : string) : bool :=
  let n := String.length s in
  let m := String.length searchString in
  (m <=? n)%nat && String.eqb (substring (n - m) m s) searchString.

(** The [for ... of] loop over the names, inside the [try]: [files] is
    the array pushed to, and the first call that throws ends the loop with
    what was pushed until then. *)
Fixpoint readFiles (dir : Directory) (fileNames : list string) (files : list File)
    : list File :=
  match fileNames with
  | [] => files
  | fileName :: fileNames =>
      if endsWith fileName ".txt" then
        match readFileSync dir fileName with
        | Some content =>
            readFiles dir fileNames
                      (files ++ [{| filename := fileName; content := content |}])
        | None => files
        end
      else readFiles dir fileNames files
  end.

(** [loadDataFiles]: the [catch] logs the error, and [files] is returned
    as it is then. *)
Definition loadDataFiles (dir : Directory) : list File :=
  match readdirSync dir with
  | Some fileNames => readFiles dir fileNames []
  | None => []
  end.

(** The entries that the loop looks at: those whose name ends in [.txt],
    in directory order. *)
Definition txtNames (fileNames : list string) : list string :=
  List.filter (λ fileName, endsWith fileName ".txt") fileNames.

(** A directory for concrete runs: four entries, the third one cannot be
    read. *)
Definition demoDirectory : Directory :=
  {| readdirSync := Some ["faq.txt"; "notes.md"; "broken.txt"; "pricing.txt"]%string;
     readFileSync := λ fileName,
       if String.eqb fileName "faq.txt" then Some "What is it?"%string
       else if String.eqb fileName "pricing.txt" then Some "Free."%string
       else None |}.

(** *** Properties *)

Lemma readFiles_app dir fileNames files :
  readFiles dir fileNames files = files ++ readFiles dir fileNames [].
Proof.
  revert files. induction fileNames as [|fileName fileNames IH]; intros files; simpl.
  - by rewrite app_nil_r.
  - destruct (endsWith fileName ".txt"); [|apply IH].
    destruct (readFileSync dir fileName) as [content|]; [|by rewrite app_nil_r].
    rewrite IH, (IH [_]). by rewrite <- app_assoc.
Qed.

Lemma readFiles_prefix dir fileNames :
  ∃ rest,
    txtNames fileNames = map filename (readFiles dir fileNames []) ++ rest ∧
    Forall (λ file, readFileSync dir (filename file) = Some (content file))
           (readFiles dir fileNames []) ∧
    match rest with
    | [] => True
    | fileName :: _ => readFileSync dir fileName = None
    end.
Proof.
  induction fileNames as [|fileName fileNames (rest & Hnames & Hread & Hrest)];
    simpl.
  - by exists [].
  - destruct (endsWith fileName ".txt") eqn:Htxt; [|by exists rest].
    destruct (readFileSync dir fileName) as [content|] eqn:Hfile.
    + exists rest. rewrite readFiles_app. simpl. rewrite Hnames.
      split_and!; [done| |done]. by constructor.
    + by exists (fileName :: txtNames fileNames).
Qed.

(** X14. [loadDataFiles] never throws.  When the directory cannot be
    listed it returns no file.  Otherwise it returns, in directory order,
    the entries whose name ends in [.txt] with the content read, up to the
    first one that cannot be read: that entry and every one after it are
    left out, readable or not; when all can be read, all are returned. *)
Theorem loadDataFiles_stops_at_first_unreadable (dir : Directory) :
  (readdirSync dir = None → loadDataFiles dir = []) ∧
  ∀ fileNames, readdirSync dir = Some fileNames →
    ∃ rest,
      txtNames fileNames = map filename (loadDataFiles dir) ++ rest ∧
      Forall (λ file, endsWith (filename file) ".txt" = true ∧
                      readFileSync dir (filename file) = Some (content file))
             (loadDataFiles dir) ∧
      match rest with
      | [] => True
      | fileName :: _ => readFileSync dir fileName = None
      end ∧
      (Forall (λ fileName, is_Some (readFileSync dir fileName)) (txtNames fileNames) →
       rest = []).
Proof.
  unfold loadDataFiles. split; [by intros ->|]. intros fileNames ->.
  destruct (readFiles_prefix dir fileNames) as (rest & Hnames & Hread & Hrest).
  exists rest. split_and!; [done| |done|].
  - apply Forall_forall. intros file Hfile. split.
    + assert (filename file ∈ txtNames fileNames) as Hin.
      { rewrite Hnames. apply elem_of_app. left. by apply list_elem_of_fmap_2. }
      unfold txtNames in Hin. apply list_elem_of_In, filter_In in Hin. tauto.
    + rewrite Forall_forall in Hread. by apply Hread.
  - intros Hall. destruct rest as [|fileName rest]; [done|].
    rewrite Forall_forall in Hall. destruct (Hall fileName) as [content Hc].
    + rewrite Hnames. apply elem_of_app. right. by left.
    + congruence.
Qed.

(** The demonstration directory: [faq.txt] is returned, [broken.txt]
    stops the loop, [pricing.txt] is never read. *)
Lemma loadDataFiles_stops_at_first_unreadable_witness :
  loadDataFiles demoDirectory
    = [ {| filename := "faq.txt"; content := "What is it?" |} ]%string ∧
  ∃ rest,
    txtNames ["faq.txt"; "notes.md"; "broken.txt"; "pricing.txt"]%string
      = map filename (loadDataFiles demoDirectory) ++ rest ∧
    rest = ["broken.txt"; "pricing.txt"]%string.
Proof.
  split; [reflexivity|].
  destruct (loadDataFiles_stops_at_first_unreadable demoDirectory) as [_ H].
  destruct (H _ eq_refl) as (rest & Hnames & _).
  exists rest. split; [exact Hnames|].
  vm_compute in Hnames. by injection Hnames as <-.
Defined.

End DataFiles.

(** ** Retrieval: failures, cold store, vectors of different lengths
    ([retrieveContext], [cosineSimilarity]) *)

Module Retrieval.

Import Embeddings Retriever.

(** What [retrieveContext] makes of the array of scores, when the map
    over the store threw ([None]) and when it did not. *)
Definition contextOf (similarities : option (list Scored)) (topK : Z) : string :=
  match similarities with
  | Some similarities => context (topResults similarities topK)
  | None => ""%string
  end.

(** *** Arithmetic of binary64 *)

Lemma SFmul_comm x y : SFmul prec emax x y = SFmul prec emax y x.
Proof.
  destruct x as [sx|sx| |sx mx ex], y as [sy|sy| |sy my ey]; simpl;
    rewrite ?(xorb_comm sx sy), ?(Pos.mul_comm mx my), ?(Z.add_comm ex ey);
    reflexivity.
Qed.

Lemma mul_comm (x y : float) : (x * y = y * x)%float.
Proof. apply Prim2SF_inj. rewrite !mul_spec. apply SFmul_comm. Qed.

Lemma nan_mul_r (x y : float) : is_nan y = true → is_nan (x * y) = true.
Proof.
  rewrite !Float64.is_nan_true, mul_spec. intros ->.
  unfold SF64mul. by destruct (Prim2SF x).
Qed.

Lemma nan_add_l (x y : float) : is_nan x = true → is_nan (x + y) = true.
Proof.
  rewrite !Float64.is_nan_true, add_spec. by intros ->.
Qed.

Lemma nan_add_r (x y : float) : is_nan y = true → is_nan (x + y) = true.
Proof.
  rewrite !Float64.is_nan_true, add_spec. intros ->.
  unfold SF64add. by destruct (Prim2SF x).
Qed.

Lemma nan_div_l (x y : float) : is_nan x = true → is_nan (x / y) = true.
Proof.
  rewrite !Float64.is_nan_true, div_spec. by intros ->.
Qed.

(** *** Properties of [cosineSimilarity] *)

Lemma cosineLoop_swap (a : vector) : ∀ (b : vector) dotProduct normA normB,
  length a = length b →
  cosineLoop b a dotProduct normB normA =
  let '(d, na, nb) := cosineLoop a b dotProduct normA normB in (d, nb, na).
Proof.
  induction a as [|ai a IH]; intros [|bi b] dotProduct normA normB Hlen;
    try done.
  cbn [cosineLoop hd tl]. rewrite (mul_comm bi ai). apply IH.
  simpl in Hlen. lia.
Qed.

Lemma cosineLoop_take (a : vector) : ∀ (b : vector) dotProduct normA normB,
  cosineLoop a (take (length a) b) dotProduct normA normB =
  cosineLoop a b dotProduct normA normB.
Proof.
  induction a as [|ai a IH]; intros b dotProduct normA normB; [done|].
  destruct b as [|bi b]; cbn [cosineLoop hd tl length take].
  - rewrite <- (IH []). by rewrite take_nil.
  - apply IH.
Qed.

Lemma cosineLoop_nan (a : vector) : ∀ (b : vector) dotProduct normA normB,
  is_nan dotProduct = true →
  is_nan (cosineLoop a b dotProduct normA normB).1.1 = true.
Proof.
  induction a as [|ai a IH]; intros b dotProduct normA normB Hnan; [done|].
  cbn [cosineLoop]. apply IH. by apply nan_add_l.
Qed.

Lemma cosineLoop_short (a : vector) : ∀ (b : vector) dotProduct normA normB,
  (length b < length a)%nat →
  is_nan (cosineLoop a b dotProduct normA normB).1.1 = true.
Proof.
  induction a as [|ai a IH]; intros b dotProduct normA normB Hlen;
    [simpl in Hlen; lia|].
  destruct b as [|bi b]; cbn [cosineLoop hd tl].
  - apply cosineLoop_nan, nan_add_r, nan_mul_r. reflexivity.
  - apply IH. simpl in Hlen. lia.
Qed.

(** X15. For two vectors of the same length the similarity does not
    depend on which one is the query: [cosineSimilarity a b] and
    [cosineSimilarity b a] are the same binary64 value. *)
Theorem cosineSimilarity_symmetric (a b : vector) :
  length a = length b → cosineSimilarity a b = cosineSimilarity b a.
Proof.
  intros Hlen. unfold cosineSimilarity.
  rewrite (cosineLoop_swap a b) by done.
  destruct (cosineLoop a b 0 0 0) as [[d na] nb].
  by rewrite (mul_comm (sqrt nb) (sqrt na)).
Qed.

Lemma cosineSimilarity_symmetric_witness :
  cosineSimilarity [1; 2; 3]%float [3; 0; -1]%float
  = cosineSimilarity [3; 0; -1]%float [1; 2; 3]%float.
Proof. apply cosineSimilarity_symmetric. reflexivity. Defined.

(** X16. Vectors of different lengths are not rejected.  The loop runs
    over the first vector: when the second one is shorter the missing
    components are [undefined] and the similarity is NaN; when it is
    longer its extra components are never read. *)
Theorem cosineSimilarity_length_mismatch (a b : vector) :
  ((length b < length a)%nat → is_nan (cosineSimilarity a b) = true) ∧
  cosineSimilarity a b = cosineSimilarity a (take (length a) b).
Proof.
  unfold cosineSimilarity. split.
  - intros Hlen. pose proof (cosineLoop_short a b 0 0 0 Hlen) as Hnan.
    destruct (cosineLoop a b 0 0 0) as [[d na] nb]. by apply nan_div_l.
  - by rewrite cosineLoop_take.
Qed.

Lemma cosineSimilarity_length_mismatch_witness :
  is_nan (cosineSimilarity [1; 2; 3]%float [1; 2]%float) = true.
Proof.
  apply (cosineSimilarity_length_mismatch [1; 2; 3]%float [1; 2]%float).
  simpl. lia.
Defined.

(** *** Properties of the selection and of the context *)

Lemma length_append (s1 s2 : string) :
  String.length (s1 +:+ s2) = (String.length s1 + String.length s2)%nat.
Proof. induction s1 as [|c s1 IH]; simpl; [done|]. by rewrite IH. Qed.

Lemma context_cons_length (result : Scored) (results : list Scored) :
  (String.length (formatResult result) ≤
   String.length (context (result :: results)))%nat.
Proof.
  unfold context. destruct results as [|r results]; [done|].
  cbn [map String.concat]. rewrite length_append. lia.
Qed.

Lemma formatResult_length (result : Scored) :
  (10 ≤ String.length (formatResult result))%nat.
Proof.
  unfold formatResult.
  change ("[Source: " +:+ source result +:+ "]" +:+ newline +:+ text result)%string
    with ("[Source: " +:+ (source result +:+ "]" +:+ newline +:+ text result))%string.
  rewrite length_append. simpl String.length at 1.
  rewrite length_append. rewrite (length_append "]"). simpl. lia.
Qed.

(** X17. How many passages are selected, for every integer [topK]: the
    first [min(topK, n)] of the [n] sorted scores when [topK >= 0], all
    but the last [-topK] when [topK < 0].  The context is the empty string
    exactly when no passage is selected, which is the case for
    [topK = 0], for an empty store and for [topK <= -n]. *)
Theorem selection_size_and_empty_context (similarities : list Scored) (topK : Z) :
  let n := Z.of_nat (length similarities) in
  let ranked := topResults similarities topK in
  ranked `prefix_of` sort compareFn similarities ∧
  Z.of_nat (length ranked) =
    (if topK <? 0 then Z.max 0 (n + topK) else Z.min topK n) ∧
  (context ranked = ""%string ↔ ranked = []) ∧
  (ranked = [] ↔ topK = 0 ∨ similarities = [] ∨ topK ≤ - n).
Proof.
  cbv zeta. unfold topResults, sliceTo; cbv zeta.
  pose proof (Permutation_length (sort_perm compareFn similarities)) as Hlen.
  rewrite Hlen.
  set (sorted := sort compareFn similarities) in *.
  set (n := Z.of_nat (length similarities)) in *.
  set (to := if topK <? 0 then Z.max (n + topK) 0 else Z.min topK n).
  assert (0 ≤ to ≤ n) as Hto
    by (unfold to; destruct (Z.ltb_spec topK 0); lia).
  assert (Z.of_nat (length (take (Z.to_nat to) sorted)) = to) as Htake
    by (rewrite length_take; lia).
  split_and!.
  - apply prefix_take.
  - rewrite Htake. unfold to. destruct (Z.ltb_spec topK 0); lia.
  - split; [|by intros ->].
    destruct (take (Z.to_nat to) sorted) as [|r ranked]; [done|].
    intros Hempty.
    pose proof (context_cons_length r ranked) as H1.
    pose proof (formatResult_length r) as H2.
    rewrite Hempty in H1. simpl in H1. lia.
  - assert (similarities = [] ↔ n = 0) as Hnil.
    { unfold n. destruct similarities; simpl; split; (done || lia). }
    rewrite Hnil.
    assert (take (Z.to_nat to) sorted = [] ↔ to = 0) as ->.
    { split; [intros H; rewrite H in Htake; simpl in Htake; lia|].
      intros ->. done. }
    unfold to. destruct (Z.ltb_spec topK 0); lia.
Qed.

Section ColdStore.

Context {World Error : Type}.
Variable embed : World → list string → World * (Error + list vector).
Variable loadDataFiles : World → list File.
Variable typeError : Error.

(** The store that an initialisation builds in world [w], when it can. *)
Lemma getEmbeddings_eq (st : State (World := World)) :
  getEmbeddings embed loadDataFiles st =
  match embeddingsCache st with
  | Some cache => (Returned _ cache, st)
  | None =>
      let allChunks := documentChunks (loadDataFiles (world st)) in
      let '(w, sent, result) := embedAll embed (world st) (batches allChunks 100) in
      match result with
      | inl error => (Thrown _ error, after st None w sent)
      | inr responses =>
          let cache := combine allChunks (concat responses) in
          (Returned _ cache, after st (Some cache) w sent)
      end
  end.
Proof.
  unfold getEmbeddings. destruct (embeddingsCache st) as [cache|] eqn:Hc; [done|].
  unfold bind, initializeEmbeddings.
  rewrite initializeEmbeddingsWith_eq by (done || lia). cbv zeta.
  by destruct (embedAll embed _ _) as [[w sent] [error|responses]].
Qed.

(** [retrieveContext] in one equation, for every state. *)
Lemma retrieveContext_cases query topK (st : State (World := World)) :
  retrieveContext embed loadDataFiles typeError query topK st =
  let '(w1, response) := embed (world st) [query] in
  let st1 := after st (embeddingsCache st) w1 [[query]] in
  match response with
  | inl error => (Returned _ ""%string, st1)
  | inr queryEmbeddings =>
      match getEmbeddings embed loadDataFiles st1 with
      | (Returned _ embeddings, st2) =>
          (Returned _ (contextOf (scoreFrom 0 (queryEmbeddings !! 0%nat) embeddings)
                                 topK), st2)
      | (_, st2) => (Returned _ ""%string, st2)
      end
  end.
Proof.
  unfold retrieveContext, tryCatch. unfold bind at 1. unfold generateEmbeddings.
  destruct (embed (world st) [query]) as [w1 [error|queryEmbeddings]]; [done|].
  unfold bind at 1. fold (after st (embeddingsCache st) w1 [[query]]).
  rewrite getEmbeddings_eq.
  set (st1 := after st (embeddingsCache st) w1 [[query]]).
  destruct (embeddingsCache st1) as [cache|].
  - unfold bind, orThrow, ret.
    by destruct (scoreFrom 0 (queryEmbeddings !! 0%nat) cache).
  - cbv zeta.
    destruct (embedAll embed _ _) as [[w sent] [error|responses]]; [done|].
    unfold bind, orThrow, ret.
    by destruct (scoreFrom 0 (queryEmbeddings !! 0%nat) _).
Qed.

Lemma retrieveContext_returns query topK (st : State (World := World)) :
  ∃ result st',
    retrieveContext embed loadDataFiles typeError query topK st
      = (Returned _ result, st') ∧
    (∀ cache, embeddingsCache st = Some cache → embeddingsCache st' = Some cache).
Proof.
  rewrite retrieveContext_cases.
  destruct (embed (world st) [query]) as [w1 [error|queryEmbeddings]].
  - by eexists _, _.
  - cbv zeta. rewrite getEmbeddings_eq. cbn [after embeddingsCache world requests].
    destruct (embeddingsCache st) as [cache|] eqn:Hc; [by eexists _, _|].
    cbv zeta.
    destruct (embedAll embed w1 _) as [[w sent] [error|responses]];
      by eexists _, _.
Qed.

(** X18. [retrieveContext] never throws: in every state and for every
    behaviour of the embedding service it returns a string.  Its first
    request is the query alone.  When that request fails the result is the
    empty string and nothing else is done.  When the service answers the
    query with no vector the result is the empty string as well.  On a
    populated cache the query is the only request and the cache is left as
    it is. *)
Theorem retrieveContext_never_throws (query : string) (topK : Z)
    (st : State (World := World)) :
  let call := retrieveContext embed loadDataFiles typeError query topK st in
  ∃ result sent,
    call.1 = Returned _ result ∧
    requests call.2 = requests st ++ [query] :: sent ∧
    (∀ w error, embed (world st) [query] = (w, inl error) →
       result = ""%string ∧ call.2 = after st (embeddingsCache st) w [[query]]) ∧
    (∀ w, embed (world st) [query] = (w, inr []) → result = ""%string) ∧
    (is_Some (embeddingsCache st) →
       sent = [] ∧ embeddingsCache call.2 = embeddingsCache st).
Proof.
  cbv zeta. rewrite retrieveContext_cases.
  destruct (embed (world st) [query]) as [w1 [error|queryEmbeddings]].
  - exists ""%string, []. cbn [fst snd after requests embeddingsCache].
    split_and!; [done..| |done| ].
    + by intros w error' [= <- <-].
    + done.
  - cbv zeta. rewrite getEmbeddings_eq.
    cbn [after embeddingsCache world requests].
    destruct (embeddingsCache st) as [cache|] eqn:Hc.
    + eexists _, []. cbn [fst snd after requests embeddingsCache].
      split_and!; [done..| | |done].
      * by intros w error [=].
      * intros w [= _ ->]. cbn [lookup list_lookup].
        destruct cache as [|item cache]; [|done].
        unfold contextOf, topResults, sliceTo.
        cbn [scoreFrom sort foldl length]. by rewrite take_nil.
    + cbv zeta.
      destruct (embedAll embed w1 _) as [[w sent] [error|responses]].
      * exists ""%string, sent. cbn [fst snd after requests].
        rewrite <- app_assoc. split_and!; [done..| | |by intros [? ?]].
        -- by intros ? ? [=].
        -- done.
      * eexists _, sent. cbn [fst snd after requests].
        rewrite <- app_assoc. split_and!; [done..| | |by intros [? ?]].
        -- by intros ? ? [=].
        -- intros w' [= _ ->]. cbn [lookup list_lookup].
           destruct (combine _ _) as [|item cache]; [|done].
           unfold contextOf, topResults, sliceTo.
        cbn [scoreFrom sort foldl length]. by rewrite take_nil.
Qed.


End ColdStore.


End Retrieval.

(** ** The request handler ([api/chat.js])

    One request is handled from its first line to its last, with no other
    request in between.  Of the response, the status, the CORS headers
    and what is written to the body are kept. *)

Module Chat.

(** The value of [req.body.message]: a string, [undefined], or any other
    value, of which only the truthiness matters. *)
Inductive Value :=
| Undefined
| Str (s : string)
| Other (truthy : bool).

(** A request: [headers] is [req.headers], with [None] for [undefined];
    [body] is [None] when [req.body] is [undefined] or [null], and
    otherwise the value of its property [message]. *)
Record Request := {
  method : string;
  headers : string → option string;
  body : option Value
}.

(** [a || b] on header values: [undefined] and the empty string are falsy. *)
Definition orElse (a b : option string) : option string :=
  match a with
  | Some s => if String.eqb s "" then b else a
  | None => b
  end.

(** [s.split(',')[0]]: the characters before the first comma. *)
Fixpoint firstField (s : string) : string :=
  match s with
  | EmptyString => EmptyString
  | String c s => if Ascii.eqb c "," then EmptyString else String c (firstField s)
  end.

(** [getClientIP] *)
Definition getClientIP (req : Request) : string :=
  match orElse (firstField <$> headers req "x-forwarded-for")
               (headers req "x-real-ip") with
  | Some ip => if String.eqb ip "" then "unknown" else ip
  | None => "unknown"
  end.

(** [String.prototype.startsWith] *)
Definition startsWith (s searchString : string) : bool :=
  String.prefix searchString s.

Definition allowedOrigins : list string :=
  ["http://localhost:5173"; "https://www.convosol.com"].

(** The loop of [setCorsHeaders] over the allowed origins, with its
    [break]; ['*'] when none matches. *)
Fixpoint allowedOrigin (requestOrigin : string) (origins : list string) : string :=
  match origins with
  | [] => "*"
  | origin :: origins =>
      if startsWith requestOrigin origin then requestOrigin
      else allowedOrigin requestOrigin origins
  end.

(** [setCorsHeaders]: the headers set, in order. *)
Definition setCorsHeaders (req : Request) : list (string * string) :=
  let requestOrigin :=
    default "" (orElse (orElse (headers req "origin") (headers req "referer"))
                       (Some "")) in
  [ ("Access-Control-Allow-Origin", allowedOrigin requestOrigin allowedOrigins);
    ("Access-Control-Allow-Methods", "POST, OPTIONS");
    ("Access-Control-Allow-Headers",
     "Content-Type, x-api-key, x-session-id, ngrok-skip-browser-warning");
    ("Access-Control-Max-Age", "86400");
    ("Access-Control-Allow-Credentials", "true") ]%string.

(** The object that [validateApiKey] returns. *)
Record ApiKeyValidation := { valid : bool; error : option string }.

(** [validateApiKey]; [CHAT_API_KEY] is [process.env.CHAT_API_KEY]. *)
Definition validateApiKey (CHAT_API_KEY : option string) (req : Request)
    : ApiKeyValidation :=
  match orElse CHAT_API_KEY None with
  | None => {| valid := false; error := Some "Server configuration error" |}
  | Some expectedKey =>
      match orElse (headers req "x-api-key") None with
      | None => {| valid := false; error := Some "Missing API key" |}
      | Some apiKey =>
          if String.eqb apiKey expectedKey
          then {| valid := true; error := None |}
          else {| valid := false; error := Some "Invalid API key" |}
      end
  end%string.

(** What is written to the body of an event stream. *)
Inductive Event :=
| Content (content : string)
| Done
| Failure (message : string).

(** How the response ends: [res.status(code).end()],
    [res.status(code).json({error, message})], or the events written
    before [res.end()]. *)
Inductive Reply :=
| End (statusCode : Z)
| Json (statusCode : Z) (error : string) (message : option string)
| EventStream (events : list Event).

Record Response := {
  corsHeaders : list (string * string);
  reply : Reply
}.

Definition quote : string := String (ascii_of_nat 34) EmptyString.

(** The template of the system prompt around [context]. *)
Definition systemPrompt (context : string) : string :=
  ("You are a helpful, conversational assistant for ConvoSol. You provide precise and accurate information based on the knowledge base provided."
   +:+ Retriever.newline +:+ Retriever.newline
   +:+ "IMPORTANT RULES:" +:+ Retriever.newline
   +:+ "- Only answer questions using the context provided below" +:+ Retriever.newline
   +:+ "- If the answer is not in the context, clearly state: " +:+ quote
   +:+ "I don't have that information in my knowledge base." +:+ quote
   +:+ Retriever.newline
   +:+ "- Be conversational, helpful, and friendly" +:+ Retriever.newline
   +:+ "- Do not make up or hallucinate information" +:+ Retriever.newline
   +:+ "- Keep responses concise but complete" +:+ Retriever.newline
   +:+ Retriever.newline
   +:+ "CONTEXT:" +:+ Retriever.newline
   +:+ context)%string.

(** The loop over the stream: [content] is
    [chunk.choices[0]?.delta?.content || ''] of the next chunk; an empty
    one is skipped. *)
Fixpoint streamLoop (contents : list string) (fullResponse : string)
    (written : list Event) : string * list Event :=
  match contents with
  | [] => (fullResponse, written)
  | content :: contents =>
      if String.eqb content ""
      then streamLoop contents fullResponse written
      else streamLoop contents (fullResponse +:+ content)
                      (written ++ [Content content])
  end.

(** What happens to the process: a request comes in, or the timer set by
    [setInterval] calls [cleanupRateLimitData]. *)
Inductive input :=
| Incoming (now : Z) (req : Request)
| Cleanup (now : Z).

Section Handler.

(** The outside world: the embedding service and the data directory as
    for the store; [complete] stands for [getOpenAIClient()] and
    [openai.chat.completions.create]: it throws, or gives a stream, which
    is the contents of its chunks and the error that ends it, if one does.
    [errorMessage] is [error.message]. *)
Context {World Error : Type}.
Variable embed : World → list string → World * (Error + list Embeddings.vector).
Variable loadDataFiles : World → list Embeddings.File.
Variable typeError : Error.
Variable complete :
  World → list Memory.Turn → World * (Error + list string * option Error).
Variable errorMessage : Error → string.
Variable CHAT_API_KEY : option string.

(** The module variables of the process: the two [Map]s, the flag of
    [chat.js], and the embedding store with the world. *)
Record Server := {
  sessions : gmap string (list Memory.Turn);
  requestCounts : gmap string (list Z);
  embeddingsInitialized : bool;
  embeddings : Embeddings.State (World := World)
}.

Definition setSessions (srv : Server) (sessions : gmap string (list Memory.Turn))
    : Server :=
  {| sessions := sessions;
     requestCounts := requestCounts srv;
     embeddingsInitialized := embeddingsInitialized srv;
     embeddings := embeddings srv |}.

Definition setRequestCounts (srv : Server) (requestCounts : gmap string (list Z))
    : Server :=
  {| sessions := sessions srv;
     requestCounts := requestCounts;
     embeddingsInitialized := embeddingsInitialized srv;
     embeddings := embeddings srv |}.

Definition setEmbeddings (srv : Server) (initialized : bool)
    (st : Embeddings.State (World := World)) : Server :=
  {| sessions := sessions srv;
     requestCounts := requestCounts srv;
     embeddingsInitialized := initialized;
     embeddings := st |}.

Definition setWorld (srv : Server) (w : World) : Server :=
  setEmbeddings srv (embeddingsInitialized srv)
    {| Embeddings.embeddingsCache := Embeddings.embeddingsCache (embeddings srv);
       Embeddings.world := w;
       Embeddings.requests := Embeddings.requests (embeddings srv) |}.

(** [ensureEmbeddingsInitialized]: the flag is set when
    [initializeEmbeddings] has returned. *)
Definition ensureEmbeddingsInitialized (srv : Server)
    : Embeddings.outcome (Error := Error) unit * Server :=
  if embeddingsInitialized srv then (Embeddings.Returned _ (), srv)
  else
    match Embeddings.initializeEmbeddings embed loadDataFiles (embeddings srv) with
    | (Embeddings.Returned _ _, st) => (Embeddings.Returned _ (), setEmbeddings srv true st)
    | (Embeddings.Thrown _ e, st) => (Embeddings.Thrown _ e, setEmbeddings srv false st)
    | (Embeddings.OutOfFuel _, st) => (Embeddings.OutOfFuel _, setEmbeddings srv false st)
    end.

(** The [catch] of the handler when nothing has been written yet. *)
Definition internalServerError (error : Error) : Reply :=
  Json 500 "Internal server error" (Some (errorMessage error)).

(** The [catch] of the handler: [res.headersSent] holds once something
    has been written. *)
Definition caught (written : list Event) (error : Error) : Reply :=
  match written with
  | [] => internalServerError error
  | _ :: _ => EventStream (written ++ [Failure (errorMessage error)])
  end.

(** The handler from [await ensureEmbeddingsInitialized()] on, for a
    session identifier and a message that have passed the checks.
    [None] when a loop has run out of fuel. *)
Definition respond (sessionId message : string) (srv : Server)
    : option (Reply * Server) :=
  match ensureEmbeddingsInitialized srv with
  | (Embeddings.OutOfFuel _, _) => None
  | (Embeddings.Thrown _ error, srv) => Some (internalServerError error, srv)
  | (Embeddings.Returned _ _, srv) =>
      match Retriever.retrieveContextDefault embed loadDataFiles typeError message
                                             (embeddings srv) with
      | (Embeddings.OutOfFuel _, _) => None
      | (Embeddings.Thrown _ error, st) =>
          Some (internalServerError error,
                setEmbeddings srv (embeddingsInitialized srv) st)
      | (Embeddings.Returned _ context, st) =>
          let srv := setEmbeddings srv (embeddingsInitialized srv) st in
          let '(history, touched) :=
            Memory.getSessionHistory sessionId (sessions srv) in
          let messages :=
            {| Memory.role := "system"; Memory.content := systemPrompt context |}
            :: history ++ [{| Memory.role := "user"; Memory.content := message |}] in
          let srv :=
            setSessions srv (Memory.addMessage sessionId "user" message touched) in
          let '(w, completion) := complete (Embeddings.world (embeddings srv)) messages in
          let srv := setWorld srv w in
          match completion with
          | inl error => Some (internalServerError error, srv)
          | inr (contents, failure) =>
              let '(fullResponse, written) := streamLoop contents "" [] in
              match failure with
              | Some error => Some (caught written error, srv)
              | None =>
                  Some (EventStream (written ++ [Done]),
                        setSessions srv
                          (Memory.addMessage sessionId "assistant" fullResponse
                                             (sessions srv)))
              end
          end
      end
  end.

(** The handler, at clock value [now]. *)
Definition handler (now : Z) (req : Request) (srv : Server)
    : option (Response * Server) :=
  let send (result : option (Reply * Server)) :=
    (λ '(reply, srv), ({| corsHeaders := setCorsHeaders req; reply := reply |}, srv))
      <$> result in
  if String.eqb (method req) "OPTIONS" then send (Some (End 200, srv))
  else if negb (String.eqb (method req) "POST")
  then send (Some (Json 405 "Method not allowed" None, srv))
  else
    let apiKeyValidation := validateApiKey CHAT_API_KEY req in
    if negb (valid apiKeyValidation)
    then send (Some (Json 403 (default "" (error apiKeyValidation)) None, srv))
    else
      match orElse (headers req "x-session-id") None with
      | None => send (Some (Json 403 "Missing session ID" None, srv))
      | Some sessionId =>
          let clientIP := getClientIP req in
          let '(limited, requestCounts) :=
            RateLimit.isRateLimited clientIP now (requestCounts srv) in
          let srv := setRequestCounts srv requestCounts in
          if limited
          then send (Some (Json 429 "Rate limit exceeded. Try again later." None, srv))
          else
            match body req with
            | None => send (Some (internalServerError typeError, srv))
            | Some (Str message) =>
                if String.eqb message ""
                then send (Some (Json 400 "Invalid message format" None, srv))
                else send (respond sessionId message srv)
            | Some _ => send (Some (Json 400 "Invalid message format" None, srv))
            end
      end.

(** The process: requests are handled one after the other, each at its
    clock value, and the timer of the rate limiter runs its clean-up in
    between.  The responses are returned in order; [None] when some
    request ran out of fuel. *)
Fixpoint serve (inputs : list input) (srv : Server)
    : option (list Response * Server) :=
  match inputs with
  | [] => Some ([], srv)
  | Incoming now req :: inputs =>
      match handler now req srv with
      | None => None
      | Some (response, srv) =>
          (λ '(responses, srv), (response :: responses, srv))
            <$> serve inputs srv
      end
  | Cleanup now :: inputs =>
      serve inputs
            (setRequestCounts srv
               (RateLimit.cleanupRateLimitData now (requestCounts srv)))
  end.

End Handler.

(** The text streamed by the events written: the contents, joined. *)
Definition streamed (written : list Event) : string :=
  foldl (λ fullResponse event,
           match event with
           | Content content => (fullResponse +:+ content)%string
           | _ => fullResponse
           end) ""%string written.

(** The status of a reply; an event stream is sent with the default 200. *)
Definition statusCode (reply : Reply) : Z :=
  match reply with
  | End statusCode | Json statusCode _ _ => statusCode
  | EventStream _ => 200
  end.

(** The flag of [chat.js] is set only over a populated cache. *)
Definition initialised {World : Type} (srv : Server (World := World)) : Prop :=
  embeddingsInitialized srv = true →
  is_Some (Embeddings.embeddingsCache (embeddings srv)).

(** The clock value of an input. *)
Definition clock (i : input) : Z :=
  match i with
  | Incoming now _ | Cleanup now => now
  end.

(** The requests among the inputs, with their clock values. *)
Definition arrivals (inputs : list input) : list (Z * Request) :=
  flat_map (λ i, match i with
                 | Incoming now req => [(now, req)]
                 | Cleanup _ => []
                 end) inputs.

(** The checks of the handler that come before the rate limiter. *)
Definition authorised (CHAT_API_KEY : option string) (req : Request) : bool :=
  String.eqb (method req) "POST" &&
  valid (validateApiKey CHAT_API_KEY req) &&
  bool_decide (is_Some (orElse (headers req "x-session-id") None)).

(** What the inputs are for the rate limiter: a check for every request
    that reaches it, a sweep for every run of the timer. *)
Definition eventsOf (CHAT_API_KEY : option string) (inputs : list input)
    : list RateLimit.event :=
  flat_map (λ i, match i with
                 | Incoming now req =>
                     if authorised CHAT_API_KEY req
                     then [RateLimit.Request (getClientIP req) now]
                     else []
                 | Cleanup now => [RateLimit.Sweep now]
                 end) inputs.

(** A reply that is given only behind the rate limiter: 400, 500 or an
    event stream. *)
Definition behindLimiter (reply : Reply) : bool :=
  match reply with
  | End _ => false
  | Json status _ _ => (status =? 400) || (status =? 500)
  | EventStream _ => true
  end.

(** The clock values of the requests of one client address that got a
    reply from behind the rate limiter. *)
Definition passed (ip : string) (log : list (Z * Request * Response)) : list Z :=
  flat_map (λ entry,
              if String.eqb (getClientIP entry.1.2) ip
                 && behindLimiter (reply entry.2)
              then [entry.1.1] else []) log.

(** *** A process for concrete runs

    The completion service streams ["Hel"], an empty content and ["lo"];
    the embedding service is the one of the retrieval example. *)

Definition demoComplete (w : nat) (messages : list Memory.Turn)
    : nat * (string + list string * option string) :=
  (S w, inr (["Hel"; ""; "lo"]%string, None)).

Definition demoServer : Server (World := nat) :=
  {| sessions := ∅;
     requestCounts := ∅;
     embeddingsInitialized := false;
     embeddings := Embeddings.demoState 0 |}.

Definition demoHeaders (key forwarded : string) (name : string) : option string :=
  if String.eqb name "x-api-key" then Some key
  else if String.eqb name "x-session-id" then Some "s1"%string
  else if String.eqb name "x-forwarded-for" then Some forwarded
  else if String.eqb name "origin" then Some "https://www.convosol.com.example.org"%string
  else None.

Definition demoRequest (key forwarded : string) (message : Value) : Request :=
  {| method := "POST";
     headers := demoHeaders key forwarded;
     body := Some message |}.

Definition demoHandler :=
  handler Retriever.demoQueryEmbed Embeddings.demoFiles "TypeError"%string
          demoComplete id (Some "secret"%string).

Definition demoServe :=
  serve Retriever.demoQueryEmbed Embeddings.demoFiles "TypeError"%string
        demoComplete id (Some "secret"%string).

(** *** Properties of the helpers *)

Lemma orElse_Some a b s : orElse a b = Some s → a = Some s ∨ b = Some s.
Proof.
  unfold orElse. destruct a as [a|]; [|by right].
  destruct (String.eqb a ""); [by right|by left].
Qed.

Lemma orElse_None_Some a s : orElse a None = Some s ↔ a = Some s ∧ s ≠ ""%string.
Proof.
  unfold orElse. destruct a as [a|]; [|split; [done|by intros [? ?]]].
  destruct (String.eqb_spec a ""); split; try done.
  - intros [[= ->] ?]. done.
  - intros [= ->]. done.
  - by intros [[= ->] _].
Qed.

Lemma firstField_no_comma (s : string) :
  Forall (λ c, c ≠ ","%char) (list_ascii_of_string (firstField s)).
Proof.
  induction s as [|c s IH]; simpl; [constructor|].
  destruct (Ascii.eqb_spec c ","); simpl; [constructor|by constructor].
Qed.

Lemma firstField_prefix (ip rest : string) :
  Forall (λ c, c ≠ ","%char) (list_ascii_of_string ip) →
  firstField (ip +:+ "," +:+ rest) = ip ∧ firstField ip = ip.
Proof.
  induction ip as [|c ip IH]; simpl; [done|].
  intros [Hc Hip]%Forall_cons. destruct (Ascii.eqb_spec c ","); [done|].
  destruct (IH Hip) as [-> ->]. done.
Qed.

Lemma prefix_append (s rest : string) : String.prefix s (s +:+ rest) = true.
Proof.
  induction s as [|c s IH]; simpl; [by destruct rest|].
  destruct (ascii_dec c c); [done|congruence].
Qed.

Lemma prefix_inv (s1 s2 : string) :
  String.prefix s1 s2 = true → ∃ rest, s2 = (s1 +:+ rest)%string.
Proof.
  revert s2. induction s1 as [|c s1 IH]; intros s2; simpl.
  - intros _. by exists s2.
  - destruct s2 as [|c2 s2]; simpl; [done|].
    destruct (ascii_dec c c2) as [->|]; [|done].
    intros [rest ->]%IH. by exists rest.
Qed.

Lemma allowedOrigin_spec (requestOrigin : string) (origins : list string) :
  (allowedOrigin requestOrigin origins = requestOrigin ∧
   ∃ origin rest, origin ∈ origins ∧ requestOrigin = (origin +:+ rest)%string) ∨
  (allowedOrigin requestOrigin origins = "*"%string ∧
   ∀ origin rest, origin ∈ origins → requestOrigin ≠ (origin +:+ rest)%string).
Proof.
  induction origins as [|origin origins IH]; simpl.
  - right. split; [done|]. intros origin rest Hin. by apply elem_of_nil in Hin.
  - unfold startsWith. destruct (String.prefix origin requestOrigin) eqn:Hp.
    + left. split; [done|]. apply prefix_inv in Hp as [rest ->].
      exists origin, rest. split; [by left|done].
    + destruct IH as [[Heq (o & rest & Hin & Hr)]|[Heq Hnone]].
      * left. split; [done|]. exists o, rest. split; [by right|done].
      * right. split; [done|]. intros o rest [->|Hin]%elem_of_cons.
        -- intros ->. by rewrite prefix_append in Hp.
        -- by apply Hnone.
Qed.

Lemma streamed_snoc (written : list Event) (content : string) :
  streamed (written ++ [Content content]) = (streamed written +:+ content)%string.
Proof. unfold streamed. by rewrite foldl_app. Qed.

Lemma streamLoop_streamed (contents : list string) :
  ∀ fullResponse written,
    fullResponse = streamed written →
    (streamLoop contents fullResponse written).1
      = streamed (streamLoop contents fullResponse written).2 ∧
    ∃ more, (streamLoop contents fullResponse written).2 = written ++ more ∧
            (more = [] ↔ Forall (λ content, content = ""%string) contents).
Proof.
  induction contents as [|content contents IH]; intros fullResponse written Hfull;
    simpl.
  - split; [done|]. exists []. by rewrite app_nil_r.
  - destruct (String.eqb_spec content "") as [->|Hne].
    + destruct (IH _ _ Hfull) as (Heq & more & Hmore & Hiff).
      split; [done|]. exists more. split; [done|]. rewrite Hiff.
      split; [by constructor|by intros [_ ?]%Forall_cons].
    + destruct (IH (fullResponse +:+ content)%string (written ++ [Content content]))
        as (Heq & more & Hmore & Hiff); [by rewrite streamed_snoc, Hfull|].
      split; [done|]. exists (Content content :: more).
      rewrite Hmore, <- app_assoc. split; [done|].
      split; [done|]. by intros [? _]%Forall_cons.
Qed.

(** X20. The client address that the rate limiter counts by is read
    from headers that the client sends.  It is never the empty string.
    When [x-forwarded-for] starts with a non-empty item, that item is the
    address, whatever follows the first comma and whatever [x-real-ip]
    says.  Without such an item it is [x-real-ip] when that is present and
    not empty, and ["unknown"] otherwise, one address for all such
    clients. *)
Theorem getClientIP_reads_first_forwarded_item (req : Request) :
  getClientIP req ≠ ""%string ∧
  (∀ ip rest,
     ip ≠ ""%string → Forall (λ c, c ≠ ","%char) (list_ascii_of_string ip) →
     headers req "x-forwarded-for" = Some ip ∨
     headers req "x-forwarded-for" = Some (ip +:+ "," +:+ rest)%string →
     getClientIP req = ip) ∧
  (∀ forwarded, headers req "x-forwarded-for" = Some forwarded →
     firstField forwarded ≠ ""%string →
     getClientIP req = firstField forwarded ∧
     Forall (λ c, c ≠ ","%char) (list_ascii_of_string (getClientIP req))) ∧
  (headers req "x-forwarded-for" = None ∨
   (∃ rest, headers req "x-forwarded-for" = Some ("," +:+ rest)%string) ∨
   headers req "x-forwarded-for" = Some ""%string →
   getClientIP req =
     match headers req "x-real-ip" with
     | Some ip => if String.eqb ip "" then "unknown"%string else ip
     | None => "unknown"%string
     end).
Proof.
  assert (∀ forwarded, headers req "x-forwarded-for" = Some forwarded →
            firstField forwarded ≠ ""%string →
            getClientIP req = firstField forwarded) as Hfirst.
  { intros forwarded Hf Hne. unfold getClientIP, orElse. rewrite Hf.
    cbn [fmap option_fmap option_map].
    destruct (String.eqb_spec (firstField forwarded) "") as [Hempty|_];
      [by destruct Hne|].
    by destruct (String.eqb_spec (firstField forwarded) ""). }
  split_and!.
  - unfold getClientIP.
    destruct (orElse _ _) as [ip|]; [|done].
    by destruct (String.eqb_spec ip "").
  - intros ip rest Hne Hip [Hf|Hf]; rewrite (Hfirst _ Hf);
      destruct (firstField_prefix ip rest Hip) as [H1 H2]; congruence.
  - intros forwarded Hf Hne. rewrite (Hfirst _ Hf Hne).
    split; [done|]. apply firstField_no_comma.
  - unfold getClientIP, orElse.
    intros [->|[[rest ->]| ->]]; simpl;
      destruct (headers req "x-real-ip") as [ip|]; try done;
      by destruct (String.eqb_spec ip "").
Qed.

(** X21. [setCorsHeaders] compares origins by prefix.  The value of
    [Access-Control-Allow-Origin] is the request origin (the [origin]
    header, or [referer] when there is none) when that starts with one of
    the allowed origins, and ["*"] otherwise: any origin that extends an
    allowed one is echoed.  [Access-Control-Allow-Credentials] is set to
    ["true"] in both cases. *)
Theorem cors_echoes_extensions_of_allowed_origins (req : Request) :
  let requestOrigin :=
    match orElse (headers req "origin") (headers req "referer") with
    | Some origin => origin
    | None => ""%string
    end in
  ∃ value,
    setCorsHeaders req !! 0%nat = Some ("Access-Control-Allow-Origin"%string, value) ∧
    setCorsHeaders req !! 4%nat
      = Some ("Access-Control-Allow-Credentials", "true")%string ∧
    ((value = requestOrigin ∧
      ∃ origin rest, origin ∈ allowedOrigins ∧ requestOrigin = (origin +:+ rest)%string) ∨
     (value = "*"%string ∧
      ∀ origin rest, origin ∈ allowedOrigins → requestOrigin ≠ (origin +:+ rest)%string)) ∧
    (∀ origin rest,
       origin ∈ allowedOrigins → requestOrigin = (origin +:+ rest)%string →
       value = requestOrigin).
Proof.
  cbv zeta. unfold setCorsHeaders. cbv zeta.
  set (requestOrigin := default ""%string _).
  assert (match orElse (headers req "origin") (headers req "referer") with
          | Some origin => origin
          | None => ""%string
          end = requestOrigin) as ->.
  { unfold requestOrigin.
    destruct (orElse (headers req "origin") (headers req "referer")) as [o|] eqn:Ho;
      [|done].
    unfold orElse at 1.
    destruct (String.eqb_spec o "") as [->|Hne]; [done|]. done. }
  exists (allowedOrigin requestOrigin allowedOrigins).
  split_and!; [done..| |].
  - apply allowedOrigin_spec.
  - intros origin rest Hin Heq.
    destruct (allowedOrigin_spec requestOrigin allowedOrigins)
      as [[Hv _]|[_ Hno]]; [done|].
    by destruct (Hno origin rest Hin).
Qed.

Section HandlerProperties.

Context {World Error : Type}.
Variable embed : World → list string → World * (Error + list Embeddings.vector).
Variable loadDataFiles : World → list Embeddings.File.
Variable typeError : Error.
Variable complete :
  World → list Memory.Turn → World * (Error + list string * option Error).
Variable errorMessage : Error → string.
Variable CHAT_API_KEY : option string.

Local Abbreviation cache srv := (Embeddings.embeddingsCache (embeddings srv)).

Lemma ensureEmbeddingsInitialized_spec (srv : Server (World := World)) :
  ∃ result srv',
    ensureEmbeddingsInitialized embed loadDataFiles srv = (result, srv') ∧
    sessions srv' = sessions srv ∧
    requestCounts srv' = requestCounts srv ∧
    (∀ c, cache srv = Some c → cache srv' = Some c) ∧
    match result with
    | Embeddings.Returned _ _ =>
        embeddingsInitialized srv' = true ∧ (initialised srv → is_Some (cache srv'))
    | Embeddings.Thrown _ _ =>
        embeddingsInitialized srv' = false
    | Embeddings.OutOfFuel _ => False
    end.
Proof.
  unfold ensureEmbeddingsInitialized, initialised.
  destruct (embeddingsInitialized srv) eqn:Hflag.
  - eexists _, _. split_and!; eauto. simpl. split; [done|]. intros H. by apply H.
  - pose proof (EmbeddingStore.initializeEmbeddings_outcome
                  embed loadDataFiles (embeddings srv)) as Hout.
    destruct (Embeddings.initializeEmbeddings embed loadDataFiles (embeddings srv))
      as [[stored|error|] st]; [| |done].
    + destruct Hout as [Hst Hsame]. eexists _, _.
      split_and!; try done; cbn [embeddings setEmbeddings Embeddings.embeddingsCache].
      intros c Hc. by rewrite Hst, (Hsame c Hc).
    + destruct Hout as [Hnone Hst]. eexists _, _.
      split_and!; try done; cbn [embeddings setEmbeddings Embeddings.embeddingsCache].
      intros c Hc. congruence.
Qed.

(** The second part of the handler, in every state. *)
Lemma respond_spec (sessionId message : string) (srv : Server (World := World)) :
  ∃ reply srv',
    respond embed loadDataFiles typeError complete errorMessage sessionId message srv
      = Some (reply, srv') ∧
    requestCounts srv' = requestCounts srv ∧
    (initialised srv → initialised srv') ∧
    (∀ c, cache srv = Some c → cache srv' = Some c) ∧
    (∀ other, other ≠ sessionId →
       Memory.history (sessions srv') other = Memory.history (sessions srv) other) ∧
    let h := Memory.history (sessions srv) sessionId in
    let user := {| Memory.role := "user"; Memory.content := message |} in
    ((∃ written,
        reply = EventStream (written ++ [Done]) ∧
        Memory.history (sessions srv') sessionId =
          Memory.pushShift (Memory.pushShift h user)
            {| Memory.role := "assistant"; Memory.content := streamed written |}) ∨
     (∃ written error,
        written ≠ [] ∧
        reply = EventStream (written ++ [Failure (errorMessage error)]) ∧
        Memory.history (sessions srv') sessionId = Memory.pushShift h user) ∨
     (∃ error,
        reply = Json 500 "Internal server error" (Some (errorMessage error)) ∧
        (Memory.history (sessions srv') sessionId = h ∨
         Memory.history (sessions srv') sessionId = Memory.pushShift h user))).
Proof.
  unfold respond.
  destruct (ensureEmbeddingsInitialized_spec srv)
    as (result & srv1 & -> & Hs1 & Hr1 & Hc1 & Hres).
  destruct result as [[]|error|]; [| |done].
  - destruct Hres as [Hflag1 Hinit1].
    unfold Retriever.retrieveContextDefault.
    destruct (Retrieval.retrieveContext_returns embed loadDataFiles typeError
                message 3 (embeddings srv1)) as (context & st2 & -> & Hc2).
    cbv zeta.
    set (srv2 := setEmbeddings srv1 (embeddingsInitialized srv1) st2).
    pose proof (Memory.getSessionHistory_fst sessionId (sessions srv2)) as Hfst.
    pose proof (Memory.getSessionHistory_history sessionId) as Hget.
    destruct (Memory.getSessionHistory sessionId (sessions srv2))
      as [history touched] eqn:Hhist.
    simpl in Hfst. subst history.
    assert (∀ sid, Memory.history touched sid = Memory.history (sessions srv) sid)
      as Htouched.
    { intros sid. specialize (Hget sid (sessions srv2)). rewrite Hhist in Hget.
      simpl in Hget. rewrite Hget. unfold srv2. simpl. by rewrite Hs1. }
    assert (Memory.history (sessions srv2) sessionId
            = Memory.history (sessions srv) sessionId) as Hh
      by (unfold srv2; simpl; by rewrite Hs1).
    rewrite Hs1.
    set (h := Memory.history (sessions srv) sessionId).
    set (user := {| Memory.role := "user"; Memory.content := message |}).
    set (srv3 := setSessions srv2 (Memory.addMessage sessionId "user" message touched)).
    assert (Memory.history (sessions srv3) sessionId = Memory.pushShift h user)
      as Huser.
    { unfold srv3. cbn [sessions setSessions].
      by rewrite Memory.addMessage_history_eq, Htouched. }
    assert (∀ other, other ≠ sessionId →
              Memory.history (sessions srv3) other = Memory.history (sessions srv) other)
      as Hother.
    { intros other Hne. unfold srv3. cbn [sessions setSessions].
      by rewrite Memory.addMessage_history_ne, Htouched. }
    assert (initialised srv → is_Some (cache srv3)) as Hinit3.
    { intros Hinit. destruct (Hinit1 Hinit) as [c Hc].
      exists c. unfold srv3, srv2. cbn. by apply Hc2. }
    assert (∀ c, cache srv = Some c → cache srv3 = Some c) as Hc3.
    { intros c Hc. unfold srv3, srv2. cbn. by apply Hc2, Hc1. }
    destruct (complete (Embeddings.world (embeddings srv3)) _)
      as [w [error|[contents failure]]].
    + eexists _, _. split_and!; [done|done| | | |].
      * intros Hinit _. by apply Hinit3.
      * exact Hc3.
      * exact Hother.
      * right; right. exists error. split; [done|]. by right.
    + destruct (streamLoop_streamed contents ""%string [] eq_refl)
        as (Hfull & more & Hmore & Hiff).
      destruct (streamLoop contents "" []) as [fullResponse written].
      simpl in Hfull, Hmore. subst fullResponse written.
      destruct failure as [error|].
      * eexists _, _. split_and!; [done|done| | | |].
        -- intros Hinit _. by apply Hinit3.
        -- exact Hc3.
        -- exact Hother.
        -- unfold caught. destruct more as [|event more].
           ++ right; right. exists error. split; [done|]. by right.
           ++ right; left. by exists (event :: more), error.
      * eexists _, _. split_and!; [done|done| | | |].
        -- intros Hinit _. by apply Hinit3.
        -- exact Hc3.
        -- intros other Hne. cbn [sessions setSessions setWorld setEmbeddings].
           rewrite Memory.addMessage_history_ne by done. by apply Hother.
        -- left. exists more. split; [done|].
           cbn [sessions setSessions setWorld setEmbeddings].
           by rewrite Memory.addMessage_history_eq, Huser.
  - eexists _, _. split_and!; [done|done| | | |].
    + intros _ Hflag. congruence.
    + exact Hc1.
    + intros other _. by rewrite Hs1.
    + right; right. exists error. split; [done|]. left. by rewrite Hs1.
Qed.

Lemma validateApiKey_valid (req : Request) :
  valid (validateApiKey CHAT_API_KEY req) = true ↔
  ∃ key, key ≠ ""%string ∧ CHAT_API_KEY = Some key ∧
         headers req "x-api-key" = Some key.
Proof.
  unfold validateApiKey.
  destruct (orElse CHAT_API_KEY None) as [expectedKey|] eqn:He.
  - apply orElse_None_Some in He as [-> Hne].
    destruct (orElse (headers req "x-api-key") None) as [apiKey|] eqn:Ha.
    + apply orElse_None_Some in Ha as [Ha Hne'].
      destruct (String.eqb_spec apiKey expectedKey) as [->|Hdiff]; simpl.
      * split; [|done]. intros _. by exists expectedKey.
      * split; [done|]. intros (key & _ & [= <-] & Hk). congruence.
    + simpl. split; [done|]. intros (key & Hk & [= <-] & Hh).
      assert (orElse (headers req "x-api-key") None = Some expectedKey) as Hs
        by (by apply orElse_None_Some).
      congruence.
  - simpl. split; [done|]. intros (key & Hk & -> & _).
    assert (orElse (Some key) None = Some key) as Hs by (by apply orElse_None_Some).
    congruence.
Qed.

(** The handler, check by check. *)
Lemma handler_spec (now : Z) (req : Request) (srv : Server (World := World)) :
  ∃ reply srv',
    handler embed loadDataFiles typeError complete errorMessage CHAT_API_KEY
            now req srv
      = Some ({| corsHeaders := setCorsHeaders req; reply := reply |}, srv') ∧
    ((srv' = srv ∧
      ((method req = "OPTIONS"%string ∧ reply = End 200) ∨
       (method req ≠ "OPTIONS"%string ∧ method req ≠ "POST"%string ∧
        reply = Json 405 "Method not allowed" None) ∨
       (method req = "POST"%string ∧
        ∃ error, reply = Json 403 error None ∧
          (valid (validateApiKey CHAT_API_KEY req) = false ∨
           orElse (headers req "x-session-id") None = None)))) ∨
     (method req = "POST"%string ∧
      valid (validateApiKey CHAT_API_KEY req) = true ∧
      ∃ sessionId,
        orElse (headers req "x-session-id") None = Some sessionId ∧
        let checked :=
          RateLimit.isRateLimited (getClientIP req) now (requestCounts srv) in
        let srv1 := setRequestCounts srv checked.2 in
        ((checked.1 = true ∧ srv' = srv1 ∧
          reply = Json 429 "Rate limit exceeded. Try again later." None) ∨
         (checked.1 = false ∧ srv' = srv1 ∧
          ((body req = None ∧ reply = internalServerError errorMessage typeError) ∨
           (reply = Json 400 "Invalid message format" None ∧
            ∀ message, body req = Some (Str message) → message = ""%string))) ∨
         (checked.1 = false ∧
          ∃ message, body req = Some (Str message) ∧ message ≠ ""%string ∧
            respond embed loadDataFiles typeError complete errorMessage
                    sessionId message srv1 = Some (reply, srv'))))).
Proof.
  unfold handler. cbv zeta.
  destruct (String.eqb_spec (method req) "OPTIONS") as [Hopt|Hopt].
  { eexists _, _. split; [done|]. left. split; [done|]. by left. }
  destruct (String.eqb_spec (method req) "POST") as [Hpost|Hpost]; simpl.
  2: { eexists _, _. split; [done|]. left. split; [done|]. right; left. done. }
  destruct (valid (validateApiKey CHAT_API_KEY req)) eqn:Hvalid; simpl.
  2: { eexists _, _. split; [done|]. left. split; [done|]. right; right.
       split; [done|]. eexists. split; [done|]. by left. }
  destruct (orElse (headers req "x-session-id") None) as [sessionId|] eqn:Hsid.
  2: { eexists _, _. split; [done|]. left. split; [done|]. right; right.
       split; [done|]. eexists. split; [done|]. by right. }
  destruct (RateLimit.isRateLimited (getClientIP req) now (requestCounts srv))
    as [limited counts] eqn:Hlimit.
  cbn [fst snd].
  destruct limited.
  { eexists _, _. split; [done|]. right. split_and!; [done..|].
    exists sessionId. split; [done|]. by left. }
  destruct (body req) as [[|message|truthy]|] eqn:Hbody.
  - eexists _, _. split; [done|]. right. split_and!; [done..|].
    exists sessionId. split; [done|]. right; left. split_and!; [done..|].
    right. by split.
  - destruct (String.eqb_spec message "") as [->|Hne].
    + eexists _, _. split; [done|]. right. split_and!; [done..|].
      exists sessionId. split; [done|]. right; left. split_and!; [done..|].
      right. split; [done|]. by intros ? [= <-].
    + destruct (respond_spec sessionId message (setRequestCounts srv counts))
        as (reply & srv' & Hrespond & _).
      rewrite Hrespond. eexists _, _. split; [done|]. right. split_and!; [done..|].
      exists sessionId. split; [done|]. right; right. split; [done|].
      by exists message.
  - eexists _, _. split; [done|]. right. split_and!; [done..|].
    exists sessionId. split; [done|]. right; left. split_and!; [done..|].
    right. by split.
  - eexists _, _. split; [done|]. right. split_and!; [done..|].
    exists sessionId. split; [done|]. right; left. split_and!; [done..|].
    left. by split.
Qed.

(** What every reply of the second part looks like. *)
Lemma respond_status (sessionId message : string) (srv : Server (World := World))
    (reply : Reply) (srv' : Server (World := World)) :
  respond embed loadDataFiles typeError complete errorMessage sessionId message srv
    = Some (reply, srv') →
  (statusCode reply = 200 ∨ statusCode reply = 500) ∧ reply ≠ End 200 ∧
  requestCounts srv' = requestCounts srv.
Proof.
  intros Hrespond.
  destruct (respond_spec sessionId message srv)
    as (reply0 & srv0 & Heq & Hcounts & _ & _ & _ & Hreply).
  rewrite Heq in Hrespond. injection Hrespond as <- <-.
  split_and!; [|intros ->|done].
  - destruct Hreply as [(written & -> & _)|[(written & error & _ & -> & _)|(error & -> & _)]];
      simpl; auto.
  - destruct Hreply as [(written & ? & _)|[(written & error & _ & ? & _)|(error & ? & _)]];
      done.
Qed.

(** X22. The checks of the handler come in a fixed order, and only the
    later ones cost quota.  A preflight is answered 200 whatever else the
    request holds.  A request answered 405 or 403 (wrong method, missing or
    wrong API key, missing session identifier) changes nothing: it is not
    counted by the rate limiter.  Every other request has the configured,
    non-empty API key and a non-empty session identifier, and is checked
    against the window of its client address: answered 429, it leaves the
    stored timestamps, the sessions and the store as they are; answered
    anything else, 400 for a bad message included, it is counted. *)
Theorem checks_come_before_the_quota (now : Z) (req : Request)
    (srv srv' : Server (World := World)) (response : Response) :
  handler embed loadDataFiles typeError complete errorMessage CHAT_API_KEY
          now req srv = Some (response, srv') →
  let ip := getClientIP req in
  let before := RateLimit.stored (requestCounts srv) ip in
  let inside := List.filter (RateLimit.inWindow now) before in
  let status := statusCode (reply response) in
  corsHeaders response = setCorsHeaders req ∧
  (method req = "OPTIONS"%string → reply response = End 200) ∧
  (method req = "OPTIONS"%string ∨ status = 405 ∨ status = 403 → srv' = srv) ∧
  (method req ≠ "OPTIONS"%string → status ≠ 405 → status ≠ 403 →
   (∃ key sessionId,
      key ≠ ""%string ∧ sessionId ≠ ""%string ∧ method req = "POST"%string ∧
      CHAT_API_KEY = Some key ∧ headers req "x-api-key" = Some key ∧
      headers req "x-session-id" = Some sessionId) ∧
   if decide (status = 429)
   then (RateLimit.MAX_REQUESTS_PER_WINDOW ≤ length inside)%nat ∧
        RateLimit.stored (requestCounts srv') ip = before ∧
        sessions srv' = sessions srv ∧ embeddings srv' = embeddings srv ∧
        embeddingsInitialized srv' = embeddingsInitialized srv
   else (length inside < RateLimit.MAX_REQUESTS_PER_WINDOW)%nat ∧
        RateLimit.stored (requestCounts srv') ip = inside ++ [now] ∧
        (status = 400 →
         sessions srv' = sessions srv ∧ embeddings srv' = embeddings srv ∧
         embeddingsInitialized srv' = embeddingsInitialized srv)).
Proof.
  intros Hcall. cbv zeta.
  destruct (handler_spec now req srv) as (reply0 & srv0 & Heq & Hcases).
  rewrite Heq in Hcall. injection Hcall as <- <-. cbn [corsHeaders reply].
  split; [done|].
  destruct Hcases as [[-> Hearly]|(Hpost & Hvalid & sessionId & Hsid & Hlate)].
  - destruct Hearly as [[Hopt ->]|[(Hopt & Hpost & ->)|(Hpost & error & -> & _)]];
      simpl; (split_and!; [done || (intros; congruence)|done|intros; congruence]).
  - assert (method req ≠ "OPTIONS"%string) as Hopt by (rewrite Hpost; done).
    apply validateApiKey_valid in Hvalid as (key & Hkey & Henv & Hheader).
    apply orElse_None_Some in Hsid as [Hsid Hsidne].
    cbv zeta in Hlate.
    pose proof (RateWindow.isRateLimited_answer (getClientIP req) now
                  (requestCounts srv)) as Hanswer.
    pose proof (RateWindow.isRateLimited_stored_eq (getClientIP req) now
                  (requestCounts srv)) as Hstored.
    assert (∀ status, status ≠ 405 → status ≠ 403 → status ≠ 429 →
              statusCode reply0 = status →
              (RateLimit.isRateLimited (getClientIP req) now (requestCounts srv)).1
                = false →
              requestCounts srv0
                = (RateLimit.isRateLimited (getClientIP req) now (requestCounts srv)).2 →
              (status = 400 →
               sessions srv0 = sessions srv ∧ embeddings srv0 = embeddings srv ∧
               embeddingsInitialized srv0 = embeddingsInitialized srv) →
              (method req = "OPTIONS"%string → reply0 = End 200) ∧
              (method req = "OPTIONS"%string ∨ statusCode reply0 = 405 ∨
               statusCode reply0 = 403 → srv0 = srv) ∧
              (method req ≠ "OPTIONS"%string → statusCode reply0 ≠ 405 →
               statusCode reply0 ≠ 403 →
               (∃ key sessionId,
                  key ≠ ""%string ∧ sessionId ≠ ""%string ∧
                  method req = "POST"%string ∧
                  CHAT_API_KEY = Some key ∧ headers req "x-api-key" = Some key ∧
                  headers req "x-session-id" = Some sessionId) ∧
               if decide (statusCode reply0 = 429)
               then (RateLimit.MAX_REQUESTS_PER_WINDOW ≤
                       length (List.filter (RateLimit.inWindow now)
                                 (RateLimit.stored (requestCounts srv) (getClientIP req))))%nat ∧
                    RateLimit.stored (requestCounts srv0) (getClientIP req)
                      = RateLimit.stored (requestCounts srv) (getClientIP req) ∧
                    sessions srv0 = sessions srv ∧ embeddings srv0 = embeddings srv ∧
                    embeddingsInitialized srv0 = embeddingsInitialized srv
               else (length (List.filter (RateLimit.inWindow now)
                               (RateLimit.stored (requestCounts srv) (getClientIP req)))
                       < RateLimit.MAX_REQUESTS_PER_WINDOW)%nat ∧
                    RateLimit.stored (requestCounts srv0) (getClientIP req)
                      = List.filter (RateLimit.inWindow now)
                          (RateLimit.stored (requestCounts srv) (getClientIP req))
                        ++ [now] ∧
                    (statusCode reply0 = 400 →
                     sessions srv0 = sessions srv ∧ embeddings srv0 = embeddings srv ∧
                     embeddingsInitialized srv0 = embeddingsInitialized srv)))
      as Hcounted.
    { intros status H405 H403 H429 Hstatus Hfree Hcounts Hsame.
      split_and!; [done|intros [?|[?|?]]; congruence|].
      intros _ _ _. split; [by exists key, sessionId|].
      rewrite Hstatus. destruct (decide (status = 429)); [done|].
      rewrite Hfree in Hanswer, Hstored. symmetry in Hanswer.
      apply Nat.leb_gt in Hanswer. rewrite Hcounts, Hstored.
      split_and!; [done..|]. intros ->. by apply Hsame. }
    destruct Hlate as [(Hlimited & -> & ->)|[(Hfree & -> & Hreply)|
                       (Hfree & message & Hbody & Hne & Hrespond)]].
    + simpl. split_and!; [done|intros [?|[?|?]]; congruence|].
      intros _ _ _. split; [by exists key, sessionId|].
      rewrite Hlimited in Hanswer, Hstored. symmetry in Hanswer.
      apply Nat.leb_le in Hanswer. destruct (decide (429 = 429)); [|done].
      cbn [requestCounts sessions embeddings embeddingsInitialized setRequestCounts].
      by rewrite Hstored.
    + destruct Hreply as [[_ ->]|[-> _]].
      * by apply (Hcounted 500).
      * by apply (Hcounted 400).
    + destruct (respond_status _ _ _ _ _ Hrespond) as ([H200|H500] & Hend & Hcounts).
      * apply (Hcounted 200); try done.
      * apply (Hcounted 500); try done.
Qed.


(** The store part of a request: the flag stays over a populated cache,
    and a populated cache is kept. *)
Lemma handler_store (now : Z) (req : Request) (srv : Server (World := World)) :
  ∃ response srv',
    handler embed loadDataFiles typeError complete errorMessage CHAT_API_KEY
            now req srv = Some (response, srv') ∧
    (initialised srv → initialised srv') ∧
    (∀ c, cache srv = Some c → cache srv' = Some c) ∧
    (∀ ip, ip ≠ getClientIP req →
       RateLimit.stored (requestCounts srv') ip = RateLimit.stored (requestCounts srv) ip) ∧
    (RateLimit.stored (requestCounts srv) (getClientIP req) = [] →
     statusCode (reply response) ≠ 429).
Proof.
  destruct (handler_spec now req srv) as (reply0 & srv0 & Heq & Hcases).
  eexists _, _. split; [exact Heq|]. cbn [reply].
  destruct Hcases as [[-> Hearly]|(Hpost & Hvalid & sid & Hsid & Hlate)].
  - split_and!; [done..|]. intros _.
    by destruct Hearly as [[_ ->]|[(_ & _ & ->)|(_ & error & -> & _)]].
  - cbv zeta in Hlate.
    pose proof (RateWindow.isRateLimited_answer (getClientIP req) now
                  (requestCounts srv)) as Hanswer.
    assert (∀ ip, ip ≠ getClientIP req →
              RateLimit.stored
                (RateLimit.isRateLimited (getClientIP req) now (requestCounts srv)).2 ip
              = RateLimit.stored (requestCounts srv) ip) as Hne.
    { intros ip Hip. by apply RateWindow.isRateLimited_stored_ne. }
    destruct Hlate as [(Hlimited & -> & ->)|[(_ & -> & Hreply)|
                       (_ & message & Hbody & Hmsg & Hrespond)]].
    + split_and!; [done..|]. intros Hnone. rewrite Hnone, Hlimited in Hanswer.
      done.
    + split_and!; [done..|]. intros _.
      by destruct Hreply as [[_ ->]|[-> _]].
    + destruct (respond_spec sid message
                  (setRequestCounts srv
                     (RateLimit.isRateLimited (getClientIP req) now (requestCounts srv)).2))
        as (reply1 & srv1 & Heq1 & Hcounts & Hinit & Hcache & _).
      destruct (respond_status _ _ _ _ _ Hrespond) as (Hstatus & _ & _).
      rewrite Heq1 in Hrespond. injection Hrespond as <- <-.
      split_and!.
      * done.
      * done.
      * intros ip Hip. rewrite Hcounts. by apply Hne.
      * intros _. destruct Hstatus as [-> | ->]; done.
Qed.

(** One step of the process, for the store and for the rate limiter. *)
Lemma cleanup_store (now : Z) (srv : Server (World := World)) :
  let srv' :=
    setRequestCounts srv (RateLimit.cleanupRateLimitData now (requestCounts srv)) in
  (initialised srv → initialised srv') ∧
  (∀ c, cache srv = Some c → cache srv' = Some c) ∧
  (∀ ip, RateLimit.stored (requestCounts srv) ip = [] →
         RateLimit.stored (requestCounts srv') ip = []).
Proof.
  cbv zeta. split_and!; [done..|]. intros ip Hnone.
  cbn [requestCounts setRequestCounts]. by rewrite RateWindow.cleanup_stored, Hnone.
Qed.


(** X25. The rate limiter counts per client address, and the address is
    what [getClientIP] reads from the request: a request whose address has
    no stored timestamp and differs from the addresses of all the requests
    served before it is never answered 429, however many those were. *)
Theorem fresh_address_is_never_limited (inputs : list input)
    (srv srv' : Server (World := World)) (responses : list Response)
    (now : Z) (req : Request) :
  serve embed loadDataFiles typeError complete errorMessage CHAT_API_KEY
        inputs srv = Some (responses, srv') →
  RateLimit.stored (requestCounts srv) (getClientIP req) = [] →
  Forall (λ earlier, getClientIP earlier.2 ≠ getClientIP req) (arrivals inputs) →
  ∃ response srv'',
    handler embed loadDataFiles typeError complete errorMessage CHAT_API_KEY
            now req srv' = Some (response, srv'') ∧
    statusCode (reply response) ≠ 429.
Proof.
  intros Hserve Hnone Hfresh.
  assert (RateLimit.stored (requestCounts srv') (getClientIP req) = []) as Hnone'.
  { revert srv responses Hserve Hnone Hfresh.
    induction inputs as [|[t earlier|t] inputs IH]; intros srv responses.
    - by intros [= _ <-].
    - cbn [serve arrivals flat_map app].
      destruct (handler_store t earlier srv)
        as (response & srv1 & Hcall & _ & _ & Hother & _).
      rewrite Hcall.
      destruct (serve _ _ _ _ _ _ inputs srv1) as [[responses1 srv2]|] eqn:Hrest;
        [|done].
      simpl. intros [= _ <-] Hnone [Hne Hfresh]%Forall_cons.
      apply (IH srv1 responses1 Hrest); [|done].
      rewrite Hother; [done|]. simpl in Hne. congruence.
    - cbn [serve arrivals flat_map app]. intros Hrest Hnone Hfresh.
      apply (IH _ responses Hrest); [|done].
      by apply cleanup_store. }
  destruct (handler_store now req srv')
    as (response & srv'' & Hcall & _ & _ & _ & Hstatus).
  exists response, srv''. split; [done|]. by apply Hstatus.
Qed.

(** What a request is for the rate limiter. *)
Lemma handler_throttle (now : Z) (req : Request)
    (srv srv' : Server (World := World)) (response : Response) :
  handler embed loadDataFiles typeError complete errorMessage CHAT_API_KEY
          now req srv = Some (response, srv') →
  if authorised CHAT_API_KEY req
  then requestCounts srv'
         = (RateLimit.isRateLimited (getClientIP req) now (requestCounts srv)).2 ∧
       behindLimiter (reply response)
         = negb (RateLimit.isRateLimited (getClientIP req) now (requestCounts srv)).1
  else requestCounts srv' = requestCounts srv ∧
       behindLimiter (reply response) = false.
Proof.
  intros Hcall.
  destruct (handler_spec now req srv) as (reply0 & srv0 & Heq & Hcases).
  rewrite Heq in Hcall. injection Hcall as <- <-. cbn [reply].
  unfold authorised.
  destruct Hcases as [[-> Hearly]|(Hpost & Hvalid & sid & Hsid & Hlate)].
  - destruct Hearly as [[Hopt ->]|[(Hopt & Hpost & ->)|(Hpost & error & -> & Hwhy)]].
    + rewrite Hopt. done.
    + destruct (String.eqb_spec (method req) "POST"); done.
    + destruct Hwhy as [-> | ->]; [by rewrite andb_false_r|].
      rewrite bool_decide_eq_false_2; [by rewrite andb_false_r|by intros [? ?]].
  - rewrite Hpost, Hvalid, Hsid. rewrite bool_decide_eq_true_2 by done.
    change (("POST" =? "POST")%string) with true. cbn [andb]. cbv zeta in Hlate.
    destruct Hlate as [(Hlimited & -> & ->)|[(Hfree & -> & Hreply)|
                       (Hfree & message & Hbody & Hne & Hrespond)]].
    + by rewrite Hlimited.
    + rewrite Hfree. by destruct Hreply as [[_ ->]|[-> _]].
    + rewrite Hfree.
      destruct (respond_spec sid message
                  (setRequestCounts srv
                     (RateLimit.isRateLimited (getClientIP req) now (requestCounts srv)).2))
        as (reply1 & srv1 & Heq1 & Hcounts & _ & _ & _ & Hreply).
      rewrite Heq1 in Hrespond. injection Hrespond as <- <-.
      split; [done|].
      by destruct Hreply as [(written & -> & _)|[(written & error & _ & -> & _)|
                             (error & -> & _)]].
Qed.

(** The rate limiter inside the process is the rate limiter run on the
    events that the inputs are for it. *)
Lemma serve_throttle (ip : string) (inputs : list input) :
  ∀ (srv srv' : Server (World := World)) (responses : list Response)
    (events : list RateLimit.event),
    requestCounts srv = RateLimit.run events →
    serve embed loadDataFiles typeError complete errorMessage CHAT_API_KEY
          inputs srv = Some (responses, srv') →
    requestCounts srv' = RateLimit.run (events ++ eventsOf CHAT_API_KEY inputs) ∧
    RateWindow.accepted ip (events ++ eventsOf CHAT_API_KEY inputs)
      = RateWindow.accepted ip events
        ++ passed ip (zip (arrivals inputs) responses).
Proof.
  induction inputs as [|[now req|now] inputs IH];
    intros srv srv' responses events Hrun.
  - intros [= <- <-]. simpl. by rewrite !app_nil_r.
  - cbn [serve]. destruct (handler _ _ _ _ _ _ now req srv)
      as [[response srv1]|] eqn:Hcall; [|done].
    destruct (serve _ _ _ _ _ _ inputs srv1) as [[responses1 srv2]|] eqn:Hrest;
      [|done].
    simpl. intros [= <- <-].
    pose proof (handler_throttle _ _ _ _ _ Hcall) as Hstep.
    cbn [eventsOf arrivals flat_map app zip zip_with passed fst snd].
    fold (eventsOf CHAT_API_KEY inputs). fold (arrivals inputs).
    fold (passed ip (zip (arrivals inputs) responses1)).
    destruct (authorised CHAT_API_KEY req).
    + destruct Hstep as [Hcounts Hreply].
      destruct (IH srv1 srv2 responses1
                  (events ++ [RateLimit.Request (getClientIP req) now])) as [H1 H2].
      { rewrite RateLimit.run_request_or_sweep. cbn [RateLimit.step].
        by rewrite <- Hrun. }
      { done. }
      rewrite <- !app_assoc in H1, H2. cbn [app] in *.
      split; [done|]. rewrite H2, RateWindow.accepted_snoc, <- app_assoc.
      f_equal. f_equal. cbn [RateWindow.granted]. rewrite Hreply, <- Hrun.
      destruct (String.eqb_spec (getClientIP req) ip) as [Hip|Hip].
      * rewrite decide_True by done.
        by destruct (RateLimit.isRateLimited _ _ _).1.
      * by rewrite decide_False by done.
    + destruct Hstep as [Hcounts Hreply]. rewrite Hreply, andb_false_r.
      cbn [app]. apply (IH srv1 srv2 responses1 events); [congruence|done].
  - cbn [serve eventsOf arrivals flat_map app].
    fold (eventsOf CHAT_API_KEY inputs). fold (arrivals inputs).
    intros Hrest.
    destruct (IH (setRequestCounts srv
                    (RateLimit.cleanupRateLimitData now (requestCounts srv)))
                 srv' responses (events ++ [RateLimit.Sweep now])) as [H1 H2].
    { rewrite RateLimit.run_request_or_sweep. cbn [RateLimit.step requestCounts
        setRequestCounts]. by rewrite Hrun. }
    { done. }
    rewrite <- !app_assoc in H1, H2. cbn [app] in *.
    split; [done|]. rewrite H2, RateWindow.accepted_snoc. cbn [RateWindow.granted].
    by rewrite app_nil_r.
Qed.

Lemma eventsOf_bound (inputs : list input) (t : Z) :
  Forall (Z.le t) (map clock inputs) →
  Forall (Z.le t) (map RateWindow.time (eventsOf CHAT_API_KEY inputs)).
Proof.
  induction inputs as [|[now req|now] inputs IH]; simpl; [done|..];
    intros [Ht Hrest]%Forall_cons.
  - destruct (authorised CHAT_API_KEY req); simpl; [constructor|]; auto.
  - constructor; auto.
Qed.

Lemma eventsOf_monotone (inputs : list input) :
  StronglySorted Z.le (map clock inputs) →
  RateWindow.monotone (eventsOf CHAT_API_KEY inputs).
Proof.
  unfold RateWindow.monotone.
  induction inputs as [|i inputs IH]; [constructor|].
  cbn [map]. intros [Hfirst Hrest]%StronglySorted_cons.
  specialize (IH Hrest). apply eventsOf_bound in Hfirst.
  destruct i as [now req|now]; cbn [eventsOf flat_map clock] in *;
    fold (eventsOf CHAT_API_KEY inputs) in *.
  - destruct (authorised CHAT_API_KEY req); cbn [app map]; [|done].
    by apply StronglySorted_cons.
  - cbn [app map]. by apply StronglySorted_cons.
Qed.

(** X26. The throttle, end to end.  In a process that starts with an
    empty rate limiter and whose clock does not go backwards, the requests
    of one client address that get a reply from behind the rate limiter
    (400, 500 or a stream, as opposed to 405, 403, 429 and the preflight's
    200) number at most 60 in any 60 seconds, whenever the timer runs its
    clean-up and whatever the other clients do.  They are the requests
    that the rate limiter accepts when it is run on its own. *)
Theorem at_most_60_requests_pass_per_window (inputs : list input)
    (srv srv' : Server (World := World)) (responses : list Response)
    (ip : string) (t : Z) :
  serve embed loadDataFiles typeError complete errorMessage CHAT_API_KEY
        inputs srv = Some (responses, srv') →
  requestCounts srv = ∅ →
  StronglySorted Z.le (map clock inputs) →
  passed ip (zip (arrivals inputs) responses)
    = RateWindow.accepted ip (eventsOf CHAT_API_KEY inputs) ∧
  requestCounts srv' = RateLimit.run (eventsOf CHAT_API_KEY inputs) ∧
  (length (List.filter (RateWindow.inLast60 t)
             (passed ip (zip (arrivals inputs) responses)))
     ≤ RateLimit.MAX_REQUESTS_PER_WINDOW)%nat.
Proof.
  intros Hserve Hempty Hclock.
  destruct (serve_throttle ip inputs srv srv' responses [] Hempty Hserve)
    as [Hcounts Hpassed].
  cbn [app] in *. change (RateWindow.accepted ip []) with (@nil Z) in Hpassed.
  cbn [app] in Hpassed. rewrite <- Hpassed.
  split_and!; [done..|].
  by apply RateWindow.accepted_window_bound, eventsOf_monotone.
Qed.

End HandlerProperties.

(** A request with an empty message, from a client that has the key:
    answered 400, and counted. *)
Lemma checks_come_before_the_quota_witness :
  let req := demoRequest "secret" "203.0.113.7, 10.0.0.1" (Str "") in
  let srv' :=
    setRequestCounts demoServer (RateLimit.isRateLimited "203.0.113.7" 1000 ∅).2 in
  demoHandler 1000 req demoServer
    = Some ({| corsHeaders := setCorsHeaders req;
               reply := Json 400 "Invalid message format" None |}, srv') ∧
  RateLimit.stored (requestCounts srv') "203.0.113.7" = [1000].
Proof.
  intros req srv'.
  assert (demoHandler 1000 req demoServer
          = Some ({| corsHeaders := setCorsHeaders req;
                     reply := Json 400 "Invalid message format" None |}, srv'))
    as Hcall by (vm_compute; reflexivity).
  split; [exact Hcall|].
  destruct (checks_come_before_the_quota _ _ _ _ _ _ _ _ _ _ _ Hcall)
    as (_ & _ & _ & Hcounted).
  destruct Hcounted as [_ Hcounted]; [done..|].
  simpl in Hcounted. destruct Hcounted as (_ & Hstored & _).
  exact Hstored.
Defined.



(** A client that changes the first item of [x-forwarded-for]. *)
Lemma fresh_address_is_never_limited_witness :
  let first := demoRequest "secret" "203.0.113.7" (Str "") in
  let second := demoRequest "secret" "203.0.113.8, 203.0.113.7" (Str "") in
  ∃ response srv'',
    demoHandler 2000 second
      (setRequestCounts demoServer (RateLimit.isRateLimited "203.0.113.7" 1000 ∅).2)
      = Some (response, srv'') ∧
    statusCode (reply response) ≠ 429.
Proof.
  intros first second.
  apply (fresh_address_is_never_limited Retriever.demoQueryEmbed Embeddings.demoFiles
           "TypeError"%string demoComplete id (Some "secret"%string)
           [Incoming 1000 first] demoServer _
           [ {| corsHeaders := setCorsHeaders first;
                reply := Json 400 "Invalid message format" None |} ]).
  - vm_compute. reflexivity.
  - reflexivity.
  - repeat constructor. vm_compute. discriminate.
Defined.

Lemma getClientIP_reads_first_forwarded_item_witness :
  getClientIP (demoRequest "secret" "203.0.113.7, 10.0.0.1" (Str "hello"))
    = "203.0.113.7"%string.
Proof.
  destruct (getClientIP_reads_first_forwarded_item
              (demoRequest "secret" "203.0.113.7, 10.0.0.1" (Str "hello")))
    as (_ & Hitem & _).
  apply (Hitem "203.0.113.7" " 10.0.0.1")%string.
  - discriminate.
  - repeat constructor; discriminate.
  - right. reflexivity.
Defined.

Lemma cors_echoes_extensions_of_allowed_origins_witness :
  setCorsHeaders (demoRequest "secret" "203.0.113.7" (Str "hello")) !! 0%nat
    = Some ("Access-Control-Allow-Origin",
            "https://www.convosol.com.example.org")%string.
Proof.
  destruct (cors_echoes_extensions_of_allowed_origins
              (demoRequest "secret" "203.0.113.7" (Str "hello")))
    as (value & Hvalue & _ & _ & Hecho).
  rewrite Hvalue. do 2 f_equal.
  apply (Hecho "https://www.convosol.com" ".example.org")%string.
  - right. left.
  - reflexivity.
Defined.

(** Sixty-one requests of one client in one second, a wrong key in
    between, and a clean-up: sixty of them get past the rate limiter. *)
Lemma at_most_60_requests_pass_per_window_witness :
  let inputs :=
    Incoming 900 (demoRequest "wrong" "203.0.113.7" (Str ""))
    :: map (λ k, Incoming (1000 + Z.of_nat k)
                   (demoRequest "secret" "203.0.113.7" (Str "")))
           (seq 0 61)
    ++ [Cleanup 3000] in
  ∃ responses srv',
    demoServe inputs demoServer = Some (responses, srv') ∧
    length responses = 62%nat ∧
    length (passed "203.0.113.7" (zip (arrivals inputs) responses)) = 60%nat ∧
    (length (List.filter (RateWindow.inLast60 2000)
               (passed "203.0.113.7" (zip (arrivals inputs) responses))) ≤ 60)%nat.
Proof.
  cbv zeta.
  set (inputs := Incoming 900 (demoRequest "wrong" "203.0.113.7" (Str ""))
                 :: map (λ k, Incoming (1000 + Z.of_nat k)
                                (demoRequest "secret" "203.0.113.7" (Str "")))
                        (seq 0 61)
                 ++ [Cleanup 3000]).
  destruct (demoServe inputs demoServer) as [[responses srv']|] eqn:Hserve;
    [|by vm_compute in Hserve].
  exists responses, srv'. split; [done|].
  assert (StronglySorted Z.le (map clock inputs)) as Hclock.
  { apply Sorted.Sorted_StronglySorted; [intros x y z; lia|].
    vm_compute. repeat constructor; discriminate. }
  destruct (at_most_60_requests_pass_per_window
              Retriever.demoQueryEmbed Embeddings.demoFiles "TypeError"%string
              demoComplete id (Some "secret"%string)
              inputs demoServer srv' responses "203.0.113.7"%string 2000
              Hserve eq_refl Hclock) as (_ & _ & Hbound).
  split_and!; [| |exact Hbound].
  - vm_compute in Hserve. by injection Hserve as <- <-.
  - vm_compute in Hserve. injection Hserve as <- <-. vm_compute. reflexivity.
Defined.

End Chat.

(** ** The client of the model provider ([lib/openai.js]) *)

Module OpenAIClient.

(** The object built by [new OpenAI({ apiKey })], as far as this
    development looks at it: the key it was built with. *)
Record OpenAI := { apiKey : string }.

(** How a call of [getOpenAIClient] ends. *)
Inductive result :=
| Client (openai : OpenAI)
| Throws (message : string).

(** [getOpenAIClient]: [OPENAI_API_KEY] is [process.env.OPENAI_API_KEY]
    at the time of the call; the second argument and the second component
    of the result are the module variable [openaiClient]. *)
Definition getOpenAIClient (OPENAI_API_KEY : option string)
    (openaiClient : option OpenAI) : result * option OpenAI :=
  match openaiClient with
  | Some client => (Client client, openaiClient)
  | None =>
      match OPENAI_API_KEY with
      | Some key =>
          if String.eqb key ""
          then (Throws "OPENAI_API_KEY is not set in environment variables", None)
          else (Client {| apiKey := key |}, Some {| apiKey := key |})
      | None => (Throws "OPENAI_API_KEY is not set in environment variables", None)
      end
  end.

(** Calls one after the other; the list gives the value of the
    environment variable at each call. *)
Fixpoint calls (environment : list (option string)) (openaiClient : option OpenAI)
    : list result * option OpenAI :=
  match environment with
  | [] => ([], openaiClient)
  | OPENAI_API_KEY :: environment =>
      let '(r, openaiClient) := getOpenAIClient OPENAI_API_KEY openaiClient in
      let '(rs, openaiClient) := calls environment openaiClient in
      (r :: rs, openaiClient)
  end.

(** The first value of the variable that is set and not empty. *)
Fixpoint firstKey (environment : list (option string)) : option string :=
  match environment with
  | [] => None
  | Some key :: environment =>
      if String.eqb key "" then firstKey environment else Some key
  | None :: environment => firstKey environment
  end.

(** *** Properties *)

Lemma calls_populated environment client :
  calls environment (Some client)
  = (map (λ _, Client client) environment, Some client).
Proof.
  induction environment as [|key environment IH]; simpl; [done|].
  by rewrite IH.
Qed.

Lemma firstKey_app environment1 environment2 :
  firstKey (environment1 ++ environment2) =
  match firstKey environment1 with
  | Some key => Some key
  | None => firstKey environment2
  end.
Proof.
  induction environment1 as [|[key|] environment1 IH]; simpl; [done| |done].
  by destruct (String.eqb key "").
Qed.

(** X27. The client is built once, from the first key found.  In a
    process that starts without a client, a call throws as long as the
    environment variable has been unset or empty at every call so far, and
    leaves no client behind; from the first call that finds a key on, every
    call returns the client built with that key, whatever the variable
    holds later. *)
Theorem client_keeps_its_first_key (environment : list (option string)) :
  let '(results, openaiClient) := calls environment None in
  length results = length environment ∧
  openaiClient = (λ key, {| apiKey := key |}) <$> firstKey environment ∧
  ∀ i r, results !! i = Some r →
    match firstKey (take (S i) environment) with
    | Some key => r = Client {| apiKey := key |} ∧ key ≠ ""%string
    | None => r = Throws "OPENAI_API_KEY is not set in environment variables"
    end.
Proof.
  induction environment as [|OPENAI_API_KEY environment IH]; [done|].
  cbn [calls].
  assert (∀ key, OPENAI_API_KEY = Some key → key ≠ ""%string →
            let '(results, openaiClient) :=
              let '(r, openaiClient) := getOpenAIClient OPENAI_API_KEY None in
              let '(rs, openaiClient) := calls environment openaiClient in
              (r :: rs, openaiClient) in
            length results = S (length environment) ∧
            openaiClient = (λ key, {| apiKey := key |}) <$>
                             firstKey (OPENAI_API_KEY :: environment) ∧
            ∀ i r, results !! i = Some r →
              match firstKey (take (S i) (OPENAI_API_KEY :: environment)) with
              | Some key => r = Client {| apiKey := key |} ∧ key ≠ ""%string
              | None => r = Throws "OPENAI_API_KEY is not set in environment variables"
              end) as Hfound.
  { intros key -> Hne. cbn [getOpenAIClient firstKey take].
    destruct (String.eqb_spec key ""); [done|].
    rewrite calls_populated. rewrite length_cons, length_map.
    split_and!; [done..|]. intros i r Hi.
    destruct i as [|i]; simpl in Hi.
    - by injection Hi as <-.
    - rewrite list_lookup_fmap in Hi.
      destruct (environment !! i); [|done]. by injection Hi as <-. }
  assert (firstKey [OPENAI_API_KEY] = None →
            let '(results, openaiClient) :=
              let '(r, openaiClient) := getOpenAIClient OPENAI_API_KEY None in
              let '(rs, openaiClient) := calls environment openaiClient in
              (r :: rs, openaiClient) in
            length results = S (length environment) ∧
            openaiClient = (λ key, {| apiKey := key |}) <$>
                             firstKey (OPENAI_API_KEY :: environment) ∧
            ∀ i r, results !! i = Some r →
              match firstKey (take (S i) (OPENAI_API_KEY :: environment)) with
              | Some key => r = Client {| apiKey := key |} ∧ key ≠ ""%string
              | None => r = Throws "OPENAI_API_KEY is not set in environment variables"
              end) as Hmissing.
  { intros Hnone.
    assert (getOpenAIClient OPENAI_API_KEY None
            = (Throws "OPENAI_API_KEY is not set in environment variables", None))
      as ->.
    { unfold getOpenAIClient. destruct OPENAI_API_KEY as [key|]; [|done].
      simpl in Hnone. by destruct (String.eqb key ""). }
    destruct (calls environment None) as [results openaiClient].
    destruct IH as (Hlen & Hclient & Hresults).
    assert (∀ l, firstKey (OPENAI_API_KEY :: l) = firstKey l) as Hskip.
    { intros l. change (OPENAI_API_KEY :: l) with ([OPENAI_API_KEY] ++ l).
      by rewrite firstKey_app, Hnone. }
    rewrite length_cons, Hlen, Hskip. split_and!; [done..|].
    intros i r Hi. cbn [take]. rewrite Hskip.
    destruct i as [|i]; simpl in Hi.
    - injection Hi as <-. by rewrite take_0.
    - by apply Hresults. }
  destruct OPENAI_API_KEY as [key|]; [|by apply Hmissing].
  destruct (String.eqb_spec key "") as [->|Hne]; [by apply Hmissing|].
  by apply (Hfound key).
Qed.

End OpenAIClient.
